(** * Decision-theory assignments: Pareto dominance and choice under uncertainty

  A shallow embedding of three Go programs:
  - [SEM10/tpr-4/main.go]: multi-expert ranking, the dominance relation
    and the Pareto set (module [Pareto]);
  - [SEM10/tpr-3/main.go]: the Savage and Laplace criteria and their
    ranking (module [Savage]);
  - the third program (Wald, MaxiMax and Hurwicz criteria, ranked in
    place through [sort.Sort]) (module [Hurwicz]).

  The dialogue of each program, its prompts, its reading loops and its
  tables, is embedded over a model of the terminal (module [Console]) in
  the modules [ParetoMain], [SavageMain] and [HurwiczMain].

  Go's [float64] is IEEE 754 binary64; it is embedded as [spec_float] with
  the operations of the standard library's executable specification at
  precision 53 and maximal exponent 1024 (module [F64]).  Go's [int] is
  only compared, converted and, as a loop index, incremented by the code
  modelled here, so ranks and counts are [Z].  Go maps are [gmap]s; reading a missing key gives the zero value of the
  element type, writing into a missing inner map is a run-time panic
  (modelled as [None]). *)

From Stdlib Require Import ZArith Lia.
From Stdlib Require Import Floats.SpecFloat.
From stdpp Require Import base option list gmap strings sorting.

Local Open Scope Z_scope.

(* ===================================================================== *)
(** * Part I: the embedding *)
(* ===================================================================== *)

(** ** binary64 *)

Module F64.

Definition prec : Z := 53.
Definition emax : Z := 1024.

(** A [float64] value.  Values that Go can hold are the [valid] ones. *)
Definition float64 : Type := spec_float.

Definition valid (x : float64) : Prop := valid_binary prec emax x = true.

Definition is_nan (x : float64) : bool :=
  match x with S754_nan => true | _ => false end.

Definition is_finite (x : float64) : bool :=
  match x with S754_zero _ | S754_finite _ _ _ => true | _ => false end.

(** [0.0] and [1.0]. *)
Definition zero : float64 := S754_zero false.
Definition one : float64 := S754_finite false 4503599627370496 (-52).

(** Go's [float64(n)] for an [int] [n] (round to nearest even). *)
Definition of_int (n : Z) : float64 := binary_normalize prec emax n 0 false.

Definition add : float64 -> float64 -> float64 := SFadd prec emax.
Definition sub : float64 -> float64 -> float64 := SFsub prec emax.
Definition mul : float64 -> float64 -> float64 := SFmul prec emax.
Definition div : float64 -> float64 -> float64 := SFdiv prec emax.

(** Go's [x < y], [x > y], [x <= y], [x >= y] and [x == y]. *)
Definition lt (x y : float64) : bool := SFltb x y.
Definition gt (x y : float64) : bool := SFltb y x.
Definition le (x y : float64) : bool := SFleb x y.
Definition ge (x y : float64) : bool := SFleb y x.
Definition eq (x y : float64) : bool := SFeqb x y.

(** The position of a value in the order of [SFcompare]: the class
  (-inf, negative, zero, positive, +inf), then exponent and mantissa. *)
Definition cls (x : float64) : Z :=
  match x with
  | S754_zero _ | S754_nan => 0
  | S754_infinity s => if s then -2 else 2
  | S754_finite s _ _ => if s then -1 else 1
  end.

Definition kexp (x : float64) : Z :=
  match x with
  | S754_finite s _ e => if s then - e else e
  | _ => 0
  end.

Definition kman (x : float64) : Z :=
  match x with
  | S754_finite s m _ => if s then Zneg m else Zpos m
  | _ => 0
  end.

Definition key_lt (x y : float64) : Prop :=
  cls x < cls y \/
  (cls x = cls y /\ (kexp x < kexp y \/ (kexp x = kexp y /\ kman x < kman y))).

Definition key_eq (x y : float64) : Prop :=
  cls x = cls y /\ kexp x = kexp y /\ kman x = kman y.

(** The binary64 value of a whole number [0 < k < 2^53]: mantissa
  [k * 2^(53 - d)] and exponent [d - 53], [d] the number of bits of [k]. *)
Definition int_repr (k : Z) : float64 :=
  let d := Z.log2 k + 1 in
  S754_finite false (Z.to_pos (k * 2 ^ (prec - d))) (d - prec).

End F64.

Abbreviation float64 := F64.float64.

(** ** Go's [sort] package

  [sort.Sort] and [sort.Slice] only touch the data through [Len], [Less]
  and [Swap].  Both run [pdqsort], whose first step on a range of at most
  twelve elements is [insertionSort]; that part is modelled as the code it
  is.  For longer inputs the rest of [pdqsort] is not modelled: its result
  is taken to be what the package documents, some rearrangement by swaps
  which is sorted whenever [Less] is a transitive ordering, with no
  promise of stability. *)

Module GoSort.

Class Interface (D : Type) := {
  Len : D -> nat;
  Less : D -> nat -> nat -> bool;
  Swap : D -> nat -> nat -> D
}.

Section Sorting.
Context {D : Type} `{Interface D}.

(** [for j := i; j > a && data.Less(j, j-1); j-- { data.Swap(j, j-1) }] *)
Fixpoint sift (data : D) (a j : nat) : D :=
  match j with
  | O => data
  | S j' =>
      if bool_decide (a < S j')%nat && Less data (S j') j'
      then sift (Swap data (S j') j') a j'
      else data
  end.

(** [for i := a + 1; i < b; i++ { ... }], with [n] iterations left. *)
Fixpoint insertion_loop (data : D) (a i n : nat) : D :=
  match n with
  | O => data
  | S n' => insertion_loop (sift data a i) a (S i) n'
  end.

Definition insertionSort (data : D) (a b : nat) : D :=
  insertion_loop data a (S a) (b - S a).

(** [sort.IsSorted]. *)
Definition IsSorted (data : D) : Prop :=
  forall i, (S i < Len data)%nat -> Less data (S i) i = false.

(** The requirement the package puts on [Less]. *)
Definition transitive_ordering (data : D) : Prop :=
  forall i j k, (i < Len data)%nat -> (j < Len data)%nat -> (k < Len data)%nat ->
    (Less data i j = true -> Less data j k = true -> Less data i k = true) /\
    (Less data i j = false -> Less data j k = false -> Less data i k = false).

Inductive swapped : D -> D -> Prop :=
| swapped_refl d : swapped d d
| swapped_step d i j d' :
    (i < Len d)%nat -> (j < Len d)%nat -> swapped (Swap d i j) d' -> swapped d d'.

Definition maxInsertion : nat := 12.

(** [Sort data data']: [data'] is a possible state of [data] after
    [sort.Sort(data)] (or [sort.Slice]) returns. *)
Definition Sort (data data' : D) : Prop :=
  if decide (Len data <= maxInsertion)%nat
  then data' = insertionSort data 0 (Len data)
  else swapped data data' /\ (transitive_ordering data -> IsSorted data').

End Sorting.

(** What [insertionSort] does to a slice, told on lists: every element in
  turn moves left past the neighbours it is [less] than.  [ins] works on
  the part already sorted, held in reverse, nearest neighbour first. *)
Fixpoint ins {A : Type} (less : A -> A -> bool) (x : A) (racc : list A) : list A :=
  match racc with
  | [] => [x]
  | y :: r => if less x y then y :: ins less x r else x :: y :: r
  end.

Definition isort {A : Type} (less : A -> A -> bool) (l : list A) : list A :=
  rev (foldl (fun racc x => ins less x racc) [] l).

(** Exchanging two elements of a slice; an index out of range panics in
    Go and is never produced by the sort, the model leaves the slice. *)
Definition swap_elems {A : Type} (l : list A) (i j : nat) : list A :=
  match l !! i, l !! j with
  | Some x, Some y => <[i := y]> (<[j := x]> l)
  | _, _ => l
  end.

(** [sort.Strings]: sorting by Go's byte-wise string order.  The order is
    total and antisymmetric, so the sorted arrangement of a slice is
    unique and any sorting function describes the outcome. *)
Definition string_le (s t : string) : Prop := String.leb s t = true.

Global Instance string_le_dec : RelDecision string_le.
Proof. intros s t. unfold string_le. apply _. Defined.

Definition Strings (x : list string) : list string := merge_sort string_le x.

End GoSort.

(** ** SEM10/tpr-4: dominance and the Pareto set *)

Module Pareto.

Record ParetoSystem := {
  alts : list string;
  experts : list string;
  rankings : gmap string (gmap string Z);     (* rankings[expert][alt] = rank *)
  dominance : gmap string (gmap string bool)  (* dominance[a][b] *)
}.

(** [p.rankings[e][a]]: a missing expert or alternative reads as [0]. *)
Definition rank (p : ParetoSystem) (e a : string) : Z :=
  default 0 (rankings p !! e ≫= (.!! a)).

(** [d[a][b]] for [d = p.dominance]: a missing entry reads as [false]. *)
Definition dom_get (d : gmap string (gmap string bool)) (a b : string) : bool :=
  default false (d !! a ≫= (.!! b)).

(** [d[a1][a2] = true]; assignment to an entry of a nil map panics. *)
Definition dom_set (d : gmap string (gmap string bool)) (a1 a2 : string)
  : option (gmap string (gmap string bool)) :=
  match d !! a1 with
  | Some row => Some (<[a1 := <[a2 := true]> row]> d)
  | None => None
  end.

(** The first loop: [p.dominance[a] = make(map[string]bool)]. *)
Fixpoint init_rows (als : list string) (d : gmap string (gmap string bool))
  : gmap string (gmap string bool) :=
  match als with
  | [] => d
  | a :: als' => init_rows als' (<[a := ∅]> d)
  end.

(** The loop over the experts for one pair, returning
    [(better, notWorse)]; [r1 > r2] leaves the loop. *)
Fixpoint compare_experts (p : ParetoSystem) (a1 a2 : string) (es : list string)
         (better notWorse : bool) : bool * bool :=
  match es with
  | [] => (better, notWorse)
  | e :: es' =>
      let r1 := rank p e a1 in
      let r2 := rank p e a2 in
      if r1 >? r2 then (better, false)
      else compare_experts p a1 a2 es' (if r1 <? r2 then true else better) notWorse
  end.

(** The body of the pair loop once [a1 != a2]: [better := false],
  [notWorse := true], the loop over the experts, and the final test
  [notWorse && better]. *)
Definition pair_test (p : ParetoSystem) (a1 a2 : string) : bool :=
  let '(better, notWorse) := compare_experts p a1 a2 (experts p) false true in
  notWorse && better.

Fixpoint inner_loop (p : ParetoSystem) (a1 : string) (as2 : list string)
         (d : gmap string (gmap string bool)) : option (gmap string (gmap string bool)) :=
  match as2 with
  | [] => Some d
  | a2 :: rest =>
      if decide (a1 = a2) then inner_loop p a1 rest d
      else if pair_test p a1 a2
      then d' ← dom_set d a1 a2; inner_loop p a1 rest d'
      else inner_loop p a1 rest d
  end.

Fixpoint outer_loop (p : ParetoSystem) (as1 : list string)
         (d : gmap string (gmap string bool)) : option (gmap string (gmap string bool)) :=
  match as1 with
  | [] => Some d
  | a1 :: rest => d' ← inner_loop p a1 (alts p) d; outer_loop p rest d'
  end.

Definition with_dominance (p : ParetoSystem) (d : gmap string (gmap string bool))
  : ParetoSystem :=
  {| alts := alts p; experts := experts p; rankings := rankings p; dominance := d |}.

Definition BuildDominance (p : ParetoSystem) : option ParetoSystem :=
  d ← outer_loop p (alts p) (init_rows (alts p) (dominance p));
  Some (with_dominance p d).

(** The search for a dominating [b], left at the first hit. *)
Fixpoint dominated (p : ParetoSystem) (a : string) (bs : list string) : bool :=
  match bs with
  | [] => false
  | b :: bs' => if dom_get (dominance p) b a then true else dominated p a bs'
  end.

Fixpoint collect (p : ParetoSystem) (als : list string) (out : list string)
  : list string :=
  match als with
  | [] => out
  | a :: als' =>
      collect p als' (if negb (dominated p a (alts p)) then out ++ [a] else out)
  end.

Definition ParetoSet (p : ParetoSystem) : list string :=
  GoSort.Strings (collect p (alts p) []).

(** The dominance rule in the words of the specification: at least as
  good for every expert, strictly better for one. *)
Definition dominates (p : ParetoSystem) (a1 a2 : string) : Prop :=
  (forall e, e ∈ experts p -> rank p e a1 <= rank p e a2) /\
  (exists e, e ∈ experts p /\ rank p e a1 < rank p e a2).

(** What [newParetoSystem] and [CollectRankings] leave behind: the two
    name lists, the ranks read, and an empty dominance map. *)
Definition newParetoSystem (als es : list string) (rk : gmap string (gmap string Z))
  : ParetoSystem :=
  {| alts := als; experts := es; rankings := rk; dominance := ∅ |}.

(** The rank sum of an alternative over the experts: a dominating
  alternative has a strictly smaller one, so an alternative of least rank
  sum is dominated by nobody. *)
Definition rank_sum (p : ParetoSystem) (es : list string) (a : string) : Z :=
  foldr (fun e acc => rank p e a + acc) 0 es.

End Pareto.

(** ** SEM10/tpr-3: the Savage and Laplace criteria *)

Module Savage.

Record UncertainDecisionSystem := {
  alternatives : list string;
  statesCount : Z;
  maxScore : Z;
  outcomes : gmap string (list float64)
}.

(** [AltValue]: an alternative with the value of a criterion. *)
Record AltValue := { alt : string; value : float64 }.

(** [u.outcomes[alt]]: a missing alternative reads as the nil slice. *)
Definition row (u : UncertainDecisionSystem) (a : string) : list float64 :=
  default [] (outcomes u !! a).

(** The loop over the alternatives for state [j]; [u.outcomes[alt][j]]
  panics when the row is shorter than [j + 1]. *)
Fixpoint column_max (u : UncertainDecisionSystem) (j : nat) (als : list string)
         (maxVal : float64) : option float64 :=
  match als with
  | [] => Some maxVal
  | a :: rest =>
      val ← row u a !! j;
      column_max u j rest (if F64.gt val maxVal then val else maxVal)
  end.

(** The loop [for j := range u.statesCount], over the [js] still to do. *)
Fixpoint max_loop (u : UncertainDecisionSystem) (js : list nat)
         (maxOutcomes : list float64) : option (list float64) :=
  match js with
  | [] => Some maxOutcomes
  | j :: js' =>
      maxVal ← column_max u j (alternatives u) F64.zero;
      max_loop u js' (<[j := maxVal]> maxOutcomes)
  end.

(** The first half of [CalculateSavage]: the per-state maxima.
  [make([]float64, n)] panics for a negative [n]. *)
Definition maxOutcomes (u : UncertainDecisionSystem) : option (list float64) :=
  if statesCount u <? 0 then None
  else
    let n := Z.to_nat (statesCount u) in
    max_loop u (seq 0 n) (replicate n F64.zero).

(** The loop over one row, at state [j]; [maxOutcomes[j]] panics when the
  row is longer than the state count. *)
Fixpoint regret_loop (maxOut : list float64) (j : nat) (data : list float64)
         (maxRegret : float64) : option float64 :=
  match data with
  | [] => Some maxRegret
  | outcome :: rest =>
      m ← maxOut !! j;
      let regret := F64.sub m outcome in
      regret_loop maxOut (S j) rest (if F64.gt regret maxRegret then regret else maxRegret)
  end.

Fixpoint savage_loop (u : UncertainDecisionSystem) (maxOut : list float64)
         (als : list string) (savage : gmap string float64)
  : option (gmap string float64) :=
  match als with
  | [] => Some savage
  | a :: rest =>
      maxRegret ← regret_loop maxOut 0 (row u a) F64.zero;
      savage_loop u maxOut rest (<[a := maxRegret]> savage)
  end.

Definition CalculateSavage (u : UncertainDecisionSystem) : option (gmap string float64) :=
  maxOut ← maxOutcomes u;
  savage_loop u maxOut (alternatives u) ∅.

(** The invariant of a UtilityMatrix: a row of [statesCount] values for
  every alternative. *)
Definition complete (u : UncertainDecisionSystem) : Prop :=
  0 <= statesCount u /\
  forall a, a ∈ alternatives u -> length (row u a) = Z.to_nat (statesCount u).

(** Utilities are positive: [x > 0] in Go's sense, which excludes NaN. *)
Definition positive (u : UncertainDecisionSystem) : Prop :=
  forall a x, a ∈ alternatives u -> x ∈ row u a -> F64.gt x F64.zero = true.

(** [sum += outcome] over a row. *)
Fixpoint sum_loop (data : list float64) (sum : float64) : float64 :=
  match data with
  | [] => sum
  | outcome :: rest => sum_loop rest (F64.add sum outcome)
  end.

Fixpoint laplace_loop (u : UncertainDecisionSystem) (als : list string)
         (laplace : gmap string float64) : gmap string float64 :=
  match als with
  | [] => laplace
  | a :: rest =>
      let sum := sum_loop (row u a) F64.zero in
      let avg := F64.div sum (F64.of_int (statesCount u)) in
      laplace_loop u rest (<[a := avg]> laplace)
  end.

Definition CalculateLaplace (u : UncertainDecisionSystem) : gmap string float64 :=
  laplace_loop u (alternatives u) ∅.

(** The slice handed to [sort.Slice] with one of the two closures
  [arr[i].value < arr[j].value] and [arr[i].value > arr[j].value]. *)
Record lessSwap := { ascending : bool; arr : list AltValue }.

Definition less_value (asc : bool) (x y : AltValue) : bool :=
  if asc then F64.lt (value x) (value y) else F64.gt (value x) (value y).

Global Instance lessSwap_Interface : GoSort.Interface lessSwap := {|
  GoSort.Len d := length (arr d);
  GoSort.Less d i j :=
    match arr d !! i, arr d !! j with
    | Some x, Some y => less_value (ascending d) x y
    | _, _ => false
    end;
  GoSort.Swap d i j := {| ascending := ascending d; arr := GoSort.swap_elems (arr d) i j |}
|}.

(** [for alt, val := range data]: Go leaves the order of a map iteration
  unspecified, and it varies from one run to the next.  [iteration data arr0]
  says that [arr0] is the slice one run may build. *)
Definition iteration (data : gmap string float64) (arr0 : list AltValue) : Prop :=
  arr0 ≡ₚ (fun kv => {| alt := kv.1; value := kv.2 |}) <$> map_to_list data.

(** [sortAltValues data ascending out]: [out] is a slice the function may
  return. *)
Definition sortAltValues (data : gmap string float64) (asc : bool)
           (out : list AltValue) : Prop :=
  exists arr0, iteration data arr0 /\
    GoSort.Sort {| ascending := asc; arr := arr0 |} {| ascending := asc; arr := out |}.

(** The lines [PrintRanking] prints: rank [i + 1], alternative, value. *)
Definition PrintRanking (altValues : list AltValue) : list (Z * string * float64) :=
  imap (fun i item => (Z.of_nat i + 1, alt item, value item)) altValues.

End Savage.

(** ** The third program: Wald, MaxiMax and Hurwicz *)

Module Hurwicz.

Record Alternative := {
  name : string;
  wald : float64;     (* the minimum *)
  maxmax : float64;   (* the maximum *)
  hurwicz : float64
}.

Record UncertainDecisionSystem := {
  alternatives : list string;
  statesCount : Z;
  maxScore : Z;
  outcomes : gmap string (list float64)
}.

Record ByCriterion := {
  alts : list Alternative;
  value : Alternative -> float64
}.

(** The zero value of [Alternative], as [make] leaves it. *)
Definition zeroAlternative : Alternative :=
  {| name := EmptyString; wald := F64.zero; maxmax := F64.zero; hurwicz := F64.zero |}.

(** The loop [for _, v := range data] with its two independent updates. *)
Fixpoint minmax_loop (data : list float64) (minVal maxVal : float64)
  : float64 * float64 :=
  match data with
  | [] => (minVal, maxVal)
  | v :: rest =>
      minmax_loop rest (if F64.lt v minVal then v else minVal)
                       (if F64.gt v maxVal then v else maxVal)
  end.

(** One iteration of the loop of [CalculateCriteria]: what [alts[i]] holds
  afterwards.  Every operation of [alpha*maxVal + (1-alpha)*minVal] is
  rounded on its own; a compiler that fuses a product into the sum yields
  the same value whenever the products are exact, as they are for the
  coefficients 0 and 1. *)
Definition criteria_of (alpha : float64) (a : string) (data : list float64)
  : Alternative :=
  match data with
  | [] => zeroAlternative
  | d0 :: _ =>
      let '(minVal, maxVal) := minmax_loop data d0 d0 in
      let hurwicz :=
        F64.add (F64.mul alpha maxVal) (F64.mul (F64.sub F64.one alpha) minVal) in
      {| name := a; wald := minVal; maxmax := maxVal; hurwicz := hurwicz |}
  end.

(** A utility as [CollectOutcomes] stores it: a finite binary64 value,
  at least 1 (and at most [maxScore]). *)
Definition utility (x : float64) : Prop :=
  F64.valid x /\ F64.is_finite x = true /\ F64.ge x F64.one = true.

(** [alpha] is the coefficient read by [readValidatedFloat(promptAlpha, 0, 1)]. *)
Definition CalculateCriteria (u : UncertainDecisionSystem) (alpha : float64)
  : list Alternative :=
  (fun a => criteria_of alpha a (default [] (outcomes u !! a))) <$> alternatives u.

Global Instance ByCriterion_Interface : GoSort.Interface ByCriterion := {|
  GoSort.Len b := length (alts b);
  GoSort.Swap b i j := {| alts := GoSort.swap_elems (alts b) i j; value := value b |};
  GoSort.Less b i j :=
    match alts b !! i, alts b !! j with
    | Some x, Some y => F64.gt (value b x) (value b y)
    | _, _ => false
    end
|}.

(** [PrintRankings] sorts the slice it is given in place and prints it:
  [alts1] is the caller's slice afterwards, [lines] what is printed. *)
Definition PrintRankings (alts0 : list Alternative) (valueFunc : Alternative -> float64)
           (alts1 : list Alternative) (lines : list (Z * string * float64)) : Prop :=
  GoSort.Sort {| alts := alts0; value := valueFunc |}
              {| alts := alts1; value := valueFunc |} /\
  lines = imap (fun i a => (Z.of_nat i + 1, name a, valueFunc a)) alts1.

(** The three rankings of [main], all on the one slice [alts]. *)
Definition main_rankings (u : UncertainDecisionSystem) (alpha : float64)
           (printed : list (Z * string * float64) * list (Z * string * float64) *
                      list (Z * string * float64)) : Prop :=
  exists alts1 alts2 alts3,
    PrintRankings (CalculateCriteria u alpha) wald alts1 printed.1.1 /\
    PrintRankings alts1 maxmax alts2 printed.1.2 /\
    PrintRankings alts2 hurwicz alts3 printed.2.

End Hurwicz.

(** ** Inputs used as examples *)

Module Scenarios.
Local Open Scope string_scope.

(** The ranking scenario of the specification: three alternatives, two
  experts, E1:(A=1,B=2,C=3), E2:(A=1,B=3,C=2). *)
Definition scenario : Pareto.ParetoSystem :=
  Pareto.newParetoSystem ["A"; "B"; "C"] ["E1"; "E2"]
    {[ "E1" := {[ "A" := 1; "B" := 2; "C" := 3 ]};
       "E2" := {[ "A" := 1; "B" := 3; "C" := 2 ]} ]}.

(** The utility scenario of the specification, A = [10, 2] and B = [6, 6],
  as the second and as the third program hold it. *)
Definition savage_rows : Savage.UncertainDecisionSystem :=
  {| Savage.alternatives := ["A"; "B"]; Savage.statesCount := 2;
     Savage.maxScore := 10;
     Savage.outcomes :=
       {[ "A" := [F64.of_int 10; F64.of_int 2];
          "B" := [F64.of_int 6; F64.of_int 6] ]} |}.

Definition two_rows : Hurwicz.UncertainDecisionSystem :=
  {| Hurwicz.alternatives := ["A"; "B"]; Hurwicz.statesCount := 2;
     Hurwicz.maxScore := 10;
     Hurwicz.outcomes :=
       {[ "A" := [F64.of_int 10; F64.of_int 2];
          "B" := [F64.of_int 6; F64.of_int 6] ]} |}.

(** A matrix whose first alternative is best in every state:
  A = [10, 6], B = [6, 6]. *)
Definition dominant_rows : Savage.UncertainDecisionSystem :=
  {| Savage.alternatives := ["A"; "B"]; Savage.statesCount := 2;
     Savage.maxScore := 10;
     Savage.outcomes :=
       {[ "A" := [F64.of_int 10; F64.of_int 6];
          "B" := [F64.of_int 6; F64.of_int 6] ]} |}.

(** The Savage scores of [savage_rows]: a tie. *)
Definition savage_tie : gmap string float64 :=
  {[ "A" := F64.of_int 4; "B" := F64.of_int 4 ]}.

(** The binary64 value nearest to 1.4, and an alternative worth 1.4 in each
  of three states. *)
Definition c1_4 : float64 := S754_finite false 6305039478318694 (-52).

Definition constant_1_4 : Savage.UncertainDecisionSystem :=
  {| Savage.alternatives := ["A"]; Savage.statesCount := 3; Savage.maxScore := 10;
     Savage.outcomes := {[ "A" := [c1_4; c1_4; c1_4] ]} |}.

(** Two alternatives, declared A then B, that differ in the minimum and
  agree in the maximum: A = [1, 5], B = [2, 5]. *)
Definition tie_rows : Hurwicz.UncertainDecisionSystem :=
  {| Hurwicz.alternatives := ["A"; "B"]; Hurwicz.statesCount := 2;
     Hurwicz.maxScore := 5;
     Hurwicz.outcomes :=
       {[ "A" := [F64.of_int 1; F64.of_int 5];
          "B" := [F64.of_int 2; F64.of_int 5] ]} |}.

End Scenarios.

(** ** The terminal

  The programs write prompts, tables and messages with [fmt.Print],
  [fmt.Println] and [fmt.Printf] and read lines of standard input through
  a [bufio.Reader].  What is written is kept as the list of the calls
  made, formats and operands as they were handed to [fmt]; what is read
  is taken from the bytes of standard input still to come.  A function
  that talks to the terminal is a function of the [console]; it returns, or
  panics, or (where the source loops without a bound) has not returned
  after the number of iterations it was allowed. *)

Module Console.

(** An operand handed to [fmt]: a number, a string, or the string that
    [fmt.Sprintf] (the error that [fmt.Errorf]) builds from a format. *)
Local Set Warnings "-register-all".
Inductive arg :=
| Int (n : Z)
| Float (x : float64)
| Str (s : string)
| Sprintf (format : string) (args : list arg).
Local Set Warnings "register-all".

Definition Errorf (format : string) (args : list arg) : arg := Sprintf format args.

Inductive event :=
| Print (a : arg)
| Println (args : list arg)
| Printf (format : string) (args : list arg).

Record console := { stdin : string; stdout : list event }.

(** The line feed, written ["\n"] in Go. *)
Definition newline : string := String (Ascii.ascii_of_nat 10) EmptyString.

(** [bufio.Reader.ReadString('\n')]: the bytes up to and including the
    first line feed; at the end of input, the bytes that were left
    together with the error [io.EOF].  The result is the data, whether
    [err != nil], and the input that remains. *)
Fixpoint ReadString (input : string) : string * bool * string :=
  match input with
  | EmptyString => (EmptyString, true, EmptyString)
  | String ch rest =>
      if Ascii.eqb ch (Ascii.ascii_of_nat 10) then (String ch EmptyString, false, rest)
      else let '(s, err, rest') := ReadString rest in (String ch s, err, rest')
  end.

(** Whether a whole line, ended by its line feed, is still to come. *)
Fixpoint line_ahead (input : string) : bool :=
  match input with
  | EmptyString => false
  | String ch rest => Ascii.eqb ch (Ascii.ascii_of_nat 10) || line_ahead rest
  end.

(** The functions of [strings] and [strconv] the programs call; they are
    not part of the programs and every property below holds whatever they
    return.  [None] stands for [err != nil]. *)
Class Strconv := {
  TrimSpace : string -> string;
  Atoi : string -> option Z;
  ParseFloat : string -> option float64
}.

Inductive result (A : Type) :=
| Value (a : A) (c : console)
| Panic
| OutOfFuel.
Global Arguments Value {A} a c.
Global Arguments Panic {A}.
Global Arguments OutOfFuel {A}.

Definition IO (A : Type) : Type := console -> result A.

Global Instance IO_ret : MRet IO := fun A a c => Value a c.

Global Instance IO_bind : MBind IO := fun A B f m c =>
  match m c with
  | Value a c' => f a c'
  | Panic => Panic
  | OutOfFuel => OutOfFuel
  end.

(** One call of [fmt.Print], [fmt.Println] or [fmt.Printf]. *)
Definition write (e : event) : IO unit := fun c =>
  Value tt {| stdin := stdin c; stdout := stdout c ++ [e] |}.

(** [reader.ReadString('\n')] on standard input. *)
Definition read_line : IO (string * bool) := fun c =>
  let '(s, err, rest) := ReadString (stdin c) in
  Value (s, err) {| stdin := rest; stdout := stdout c |}.

(** A value that must be there: [None] is a run-time panic. *)
Definition must {A : Type} (o : option A) : IO A := fun c =>
  match o with Some a => Value a c | None => Panic end.

(** [for _, x := range l { s = body(x, s) }]. *)
Fixpoint for_range {A S : Type} (l : list A) (body : A -> S -> IO S) (s : S) : IO S :=
  match l with
  | [] => mret s
  | x :: l' => s' ← body x s; for_range l' body s'
  end.

Definition for_each {A : Type} (l : list A) (body : A -> IO unit) : IO unit :=
  for_range l (fun x _ => body x) tt.

(** [for { body }], left by [return v] when the body yields [Some v]; at
    most [fuel] iterations are run. *)
Fixpoint forever {A : Type} (fuel : nat) (body : IO (option A)) : IO A :=
  match fuel with
  | O => fun _ => OutOfFuel
  | S fuel' =>
      r ← body;
      match r with
      | Some v => mret v
      | None => forever fuel' body
      end
  end.

(** [post m c Q]: run from [c], [m] does not panic, and when it returns
    [a] leaving the console [c'], then [Q a c']. *)
Definition post {A : Type} (m : IO A) (c : console) (Q : A -> console -> Prop) : Prop :=
  match m c with
  | Value a c' => Q a c'
  | Panic => False
  | OutOfFuel => True
  end.

(** [wrote c c']: from [c] to [c'] the output has only grown. *)
Definition wrote (c c' : console) : Prop := exists es, stdout c' = stdout c ++ es.

(** What a prompt loop has written when it is entered again: the prompt
    and the complaint, once for every line refused. *)
Definition refused (k : nat) (prompt : arg) (complaint : event) : list event :=
  concat (replicate k [Print prompt; complaint]).

End Console.

(** ** SEM10/tpr-4: the dialogue *)

Module ParetoMain.
Import Console Pareto.
Local Open Scope string_scope.

Definition promptAltCount : string := "Введіть кількість альтернатив: ".
Definition promptAltName : string := "Введіть назву альтернативи %d: ".
Definition promptExpertCount : string := "Введіть кількість експертів: ".
Definition promptExpertName : string := "Введіть ім'я експерта %d: ".
Definition promptRank : string :=
  "Ранг для альтернативи '%s' від експерта '%s' (1…%d): ".

Definition colAltFormat : string := "%-15s".
Definition colExpertFormat : string := "%-8s".
Definition colRankFormat : string := "%-8d".

(** The literals of the function bodies. *)
Definition msgInvalidNumber : string := "Невірне число, спробуйте ще раз.".
Definition fmtRankRange : string := "Ведіть число від 1 до %d." ++ newline.
Definition fmtExpertHeader : string :=
  newline ++ "--- Ранжування від експерта %s ---" ++ newline.
Definition msgRankingTable : string :=
  newline ++ "Таблиця ранжувань (рядок – альтернатива, стовпці – експерти):".
Definition msgDominanceMatrix : string :=
  newline ++ "Матриця домінування (1 – рядок домінує над стовпцем):".
Definition msgParetoSet : string :=
  newline ++ "Множина Парето оптимальних альтернатив:".
Definition fmtParetoItem : string := "%d) %s" ++ newline.

Section Program.
Context `{Strconv}.

(** [readString]: the error of [ReadString] is dropped, so at the end of
    input the bytes left, or the empty string, are trimmed and returned. *)
Definition readString (prompt : arg) : IO string :=
  write (Print prompt);;
  '(s, _) ← read_line;
  mret (TrimSpace s).

Definition readInt (fuel : nat) (prompt : arg) : IO Z :=
  forever fuel (
    s ← readString prompt;
    let again := write (Println [Str msgInvalidNumber]);; mret None in
    match Atoi s with
    | Some v => if bool_decide (v > 0) then mret (Some v) else again
    | None => again
    end).

Definition readRank (fuel : nat) (prompt : arg) (max : Z) : IO Z :=
  forever fuel (
    s ← readString prompt;
    let again := write (Printf fmtRankRange [Int max]);; mret None in
    match Atoi s with
    | Some v => if bool_decide (v >= 1) && bool_decide (v <= max) then mret (Some v) else again
    | None => again
    end).

(** [items := make([]string, n)] and the loop
    [for i := range n { items[i] = ir.readString(fmt.Sprintf(format, i+1)) }]. *)
Definition read_names (format : string) (n : Z) : IO (list string) :=
  for_range (seq 0 (Z.to_nat n))
    (fun i items =>
       s ← readString (Sprintf format [Int (Z.of_nat i + 1)]);
       mret (<[i := s]> items))
    (replicate (Z.to_nat n) EmptyString).

Definition newParetoSystem (fuel : nat) : IO ParetoSystem :=
  n ← readInt fuel (Str promptAltCount);
  alts ← read_names promptAltName n;
  n ← readInt fuel (Str promptExpertCount);
  experts ← read_names promptExpertName n;
  mret {| alts := alts; experts := experts; rankings := ∅; dominance := ∅ |}.

(** [rk[e][a] = v]; assignment to an entry of a nil map panics. *)
Definition rank_set (rk : gmap string (gmap string Z)) (e a : string) (v : Z)
  : option (gmap string (gmap string Z)) :=
  match rk !! e with
  | Some row => Some (<[e := <[a := v]> row]> rk)
  | None => None
  end.

Definition CollectRankings (fuel : nat) (p : ParetoSystem) : IO ParetoSystem :=
  let count := Z.of_nat (length (alts p)) in
  rk ← for_range (experts p)
         (fun e rk =>
            let rk := <[e := ∅]> rk in
            write (Printf fmtExpertHeader [Str e]);;
            for_range (alts p)
              (fun a rk =>
                 v ← readRank fuel (Sprintf promptRank [Str a; Str e; Int count]) count;
                 must (rank_set rk e a v))
              rk)
         (rankings p);
  mret {| alts := alts p; experts := experts p; rankings := rk;
          dominance := dominance p |}.

Definition PrintRankingTable (p : ParetoSystem) : IO unit :=
  write (Println [Str msgRankingTable]);;
  write (Printf colAltFormat [Str "Альтернатива"]);;
  for_each (experts p) (fun e => write (Printf colExpertFormat [Str e]));;
  write (Println []);;
  for_each (alts p) (fun a =>
    write (Printf colAltFormat [Str a]);;
    for_each (experts p) (fun e => write (Printf colRankFormat [Int (rank p e a)]));;
    write (Println [])).

(** One cell of the dominance matrix. *)
Definition dominance_cell (p : ParetoSystem) (a1 a2 : string) : event :=
  if decide (a1 = a2) then Printf "%-8s" [Str "-"]
  else if dom_get (dominance p) a1 a2 then Printf "%-8d" [Int 1]
  else Printf "%-8d" [Int 0].

Definition PrintDominanceMatrix (p : ParetoSystem) : IO unit :=
  write (Println [Str msgDominanceMatrix]);;
  write (Printf colAltFormat [Str EmptyString]);;
  for_each (alts p) (fun a => write (Printf "%-8s" [Str a]));;
  write (Println []);;
  for_each (alts p) (fun a1 =>
    write (Printf colAltFormat [Str a1]);;
    for_each (alts p) (fun a2 => write (dominance_cell p a1 a2));;
    write (Println [])).

(** The closing loop of [main]: [for i, a := range pareto]. *)
Definition pareto_lines (pareto : list string) : list event :=
  imap (fun i a => Printf fmtParetoItem [Int (Z.of_nat i + 1); Str a]) pareto.

Definition main (fuel : nat) : IO unit :=
  ps ← newParetoSystem fuel;
  ps ← CollectRankings fuel ps;
  PrintRankingTable ps;;
  ps ← must (BuildDominance ps);
  PrintDominanceMatrix ps;;
  let pareto := ParetoSet ps in
  write (Println [Str msgParetoSet]);;
  for_each (pareto_lines pareto) write.

End Program.

(** The ranks of the experts [es] are all there and within [1..count]. *)
Definition ranked (rk : gmap string (gmap string Z)) (es als : list string) (count : Z)
  : Prop :=
  forall e a, e ∈ es -> a ∈ als ->
    exists row v, rk !! e = Some row /\ row !! a = Some v /\ (1 <= v <= count)%Z.

End ParetoMain.

(** ** SEM10/tpr-3: the dialogue *)

Module SavageMain.
Import Console Savage.
Local Open Scope string_scope.

Definition promptAltCount : string := "Введіть кількість альтернатив: ".
Definition promptAltName : string := "Введіть назву альтернативи %d: ".
Definition promptStateCount : string := "Введіть кількість зовнішніх умов (станів): ".
Definition promptStateValue : string :=
  "Введіть значення корисності для альтернативи '%s' при стані %d (від 1 до %d): ".
Definition promptMaxScore : string :=
  "Введіть максимальне значення бальної системи (наприклад, 10): ".
Definition promptCriterionResults : string :=
  newline ++ "Результати за критерієм %s:" ++ newline.

Definition errInvalidCount : string := "Некоректне число %s".
Definition errInvalidScore : string := "Некоректне значення системи балів".
Definition errInvalidValue : string :=
  "Некоректне значення. Будь ласка, спробуйте ще раз.".

Definition headerFormat : string := "%-20s".
Definition stateHeaderFormat : string := "%-15s".
Definition scoreFormat : string := "%-15.2f".
Definition resultRankFormat : string := "%-5s %-20s %-15s" ++ newline.
Definition resultItemFormat : string := "%-5d %-20s %-15.4f" ++ newline.

(** The literals of the function bodies. *)
Definition fmtAltValues : string :=
  newline ++ "Введіть значення корисності для альтернативи '%s':" ++ newline.
Definition msgOutcomesMatrix : string := newline ++ "Матриця корисності:".

(** The three errors of [newUncertainDecisionSystem]. *)
Definition errAlternatives : arg := Errorf errInvalidCount [Str "альтернатив"].
Definition errStates : arg := Errorf errInvalidCount [Str "зовнішніх умов"].
Definition errScore : arg := Errorf errInvalidScore [].

Section Program.
Context `{Strconv}.

(** [readString] returns the pair [(string, error)]: on a read error,
    which is the end of input, the bytes read so far are dropped and the
    empty string is returned with the error. *)
Definition readString (prompt : arg) : IO (string * bool) :=
  write (Print prompt);;
  '(input, err) ← read_line;
  if err : bool then mret (EmptyString, true) else mret (TrimSpace input, false).

(** [readInt]: [None] stands for [err != nil], from the read or from
    [strconv.Atoi]; the number that comes with an error is never used. *)
Definition readInt (prompt : arg) : IO (option Z) :=
  '(str, err) ← readString prompt;
  if err : bool then mret None else mret (Atoi str).

Definition readValidatedFloat (fuel : nat) (prompt : arg) (min max : float64)
  : IO float64 :=
  forever fuel (
    '(str, err) ← readString prompt;
    if err : bool then mret None
    else
      let again := write (Println [Str errInvalidValue]);; mret None in
      match ParseFloat str with
      | Some val => if F64.ge val min && F64.le val max then mret (Some val) else again
      | None => again
      end).

(** The test [err != nil || n <= 0] on what [readInt] returned: the count
    when it passes. *)
Definition valid_count (r : option Z) : option Z :=
  match r with
  | Some n => if bool_decide (n <= 0) then None else Some n
  | None => None
  end.

(** [alts := make([]string, altCount)] and the loop that fills it; the
    error of [readString] is dropped and the name is then empty. *)
Definition read_names (n : Z) : IO (list string) :=
  for_range (seq 0 (Z.to_nat n))
    (fun i alts =>
       '(name, _) ← readString (Sprintf promptAltName [Int (Z.of_nat i + 1)]);
       mret (<[i := name]> alts))
    (replicate (Z.to_nat n) EmptyString).

(** [newUncertainDecisionSystem] returns the pair [(system, error)]:
    [inl] is the error, the system then being nil. *)
Definition newUncertainDecisionSystem : IO (arg + UncertainDecisionSystem) :=
  r ← readInt (Str promptAltCount);
  match valid_count r with
  | None => mret (inl errAlternatives)
  | Some altCount =>
      alts ← read_names altCount;
      r ← readInt (Str promptStateCount);
      match valid_count r with
      | None => mret (inl errStates)
      | Some stCount =>
          r ← readInt (Str promptMaxScore);
          match valid_count r with
          | None => mret (inl errScore)
          | Some maxScore =>
              mret (inr {| alternatives := alts; statesCount := stCount;
                           maxScore := maxScore; outcomes := ∅ |})
          end
      end
  end.

(** [make([]float64, n)] panics for a negative [n]. *)
Definition make_floats (n : Z) : option (list float64) :=
  if (n <? 0)%Z then None else Some (replicate (Z.to_nat n) F64.zero).

Definition CollectOutcomes (fuel : nat) (u : UncertainDecisionSystem)
  : IO UncertainDecisionSystem :=
  outcomes ← for_range (alternatives u)
    (fun alt outcomes =>
       write (Printf fmtAltValues [Str alt]);;
       values ← must (make_floats (statesCount u));
       values ← for_range (seq 0 (Z.to_nat (statesCount u)))
         (fun j values =>
            let prompt :=
              Sprintf promptStateValue
                [Str alt; Int (Z.of_nat j + 1); Int (maxScore u)] in
            v ← readValidatedFloat fuel prompt F64.one (F64.of_int (maxScore u));
            mret (<[j := v]> values))
         values;
       mret (<[alt := values]> outcomes))
    (outcomes u);
  mret {| alternatives := alternatives u; statesCount := statesCount u;
          maxScore := maxScore u; outcomes := outcomes |}.

Definition PrintOutcomesMatrix (u : UncertainDecisionSystem) : IO unit :=
  write (Println [Str msgOutcomesMatrix]);;
  write (Printf headerFormat [Str "Альтернатива"]);;
  for_each (seq 0 (Z.to_nat (statesCount u))) (fun j =>
    write (Printf stateHeaderFormat [Sprintf "Стан %d" [Int (Z.of_nat j + 1)]]));;
  write (Println []);;
  for_each (alternatives u) (fun alt =>
    write (Printf headerFormat [Str alt]);;
    for_each (row u alt) (fun outcome => write (Printf scoreFormat [Float outcome]));;
    write (Println [])).

(** What [PrintRanking] writes. *)
Definition ranking_events (title : string) (altValues : list AltValue)
           (valueLabel : string) : list event :=
  [ Printf promptCriterionResults [Str title];
    Printf resultRankFormat [Str "Ранг"; Str "Альтернатива"; Str valueLabel] ] ++
  ((fun '(i, a, v) => Printf resultItemFormat [Int i; Str a; Float v])
     <$> Savage.PrintRanking altValues).

Definition PrintRanking (title : string) (altValues : list AltValue)
           (valueLabel : string) : IO unit :=
  for_each (ranking_events title altValues valueLabel) write.

(** What [main] does up to the computation of the criteria. *)
Definition inputs (fuel : nat) (u : UncertainDecisionSystem)
  : IO UncertainDecisionSystem :=
  u ← CollectOutcomes fuel u;
  PrintOutcomesMatrix u;;
  mret u.

(** [main fuel c r]: [r] is a possible outcome of [main] run from [c].
    The outcome is not determined by the input where [sortAltValues]
    iterates over a map. *)
Definition main (fuel : nat) (c : console) (r : result unit) : Prop :=
  match newUncertainDecisionSystem c with
  | Value (inl err) c1 => r = write (Println [err]) c1
  | Value (inr u) c1 =>
      match inputs fuel u c1 with
      | Value u c2 =>
          match CalculateSavage u with
          | None => r = Panic
          | Some savage =>
              exists sortedSev sortedLaplace,
                sortAltValues savage true sortedSev /\
                sortAltValues (CalculateLaplace u) false sortedLaplace /\
                r = (PrintRanking "Севіджа" sortedSev "Макс. жалю";;
                     PrintRanking "Лапласа" sortedLaplace "Середня корисність") c2
          end
      | Panic => r = Panic
      | OutOfFuel => r = OutOfFuel
      end
  | Panic => r = Panic
  | OutOfFuel => r = OutOfFuel
  end.

End Program.

(** What the float loop accepts: [v >= min && v <= max]. *)
Definition accepted (min max v : float64) : Prop :=
  F64.ge v min = true /\ F64.le v max = true.

(** What [newUncertainDecisionSystem] may return. *)
Definition checked (r : arg + UncertainDecisionSystem) : Prop :=
  match r with
  | inl err => err ∈ [errAlternatives; errStates; errScore]
  | inr u =>
      (0 < length (alternatives u))%nat /\ (0 < statesCount u)%Z /\
      (0 < maxScore u)%Z /\ outcomes u = ∅
  end.

(** A row as [CollectOutcomes] leaves it. *)
Definition collected (u : UncertainDecisionSystem) (values : list float64) : Prop :=
  length values = Z.to_nat (statesCount u) /\
  Forall (accepted F64.one (F64.of_int (maxScore u))) values.

End SavageMain.

(** ** The third program: the dialogue *)

Module HurwiczMain.
Import Console Hurwicz.
Local Open Scope string_scope.

Definition promptAltCount : string := "Введіть кількість альтернатив: ".
Definition promptAltName : string := "Введіть назву альтернативи %d: ".
Definition promptAltValue : string :=
  newline ++ "Введіть значення корисності для альтернативи '%s':" ++ newline.
Definition promptStateCount : string := "Введіть кількість зовнішніх умов (станів): ".
Definition promptStateValue : string :=
  "Введіть значення корисності для альтернативи '%s' при стані %d (від 1 до %d): ".
Definition promptMaxScore : string :=
  "Введіть максимальне значення бальної системи (наприклад, 10): ".
Definition promptAlpha : string := "Введіть коефіцієнт оптимізму α (від 0 до 1): ".
Definition promptCriterionResults : string :=
  newline ++ "Результати за критерієм %s:" ++ newline.

Definition errInvalidCount : string := "Некоректне число %s".
Definition errInvalidScore : string := "Некоректне значення системи балів".
Definition errInvalidValue : string :=
  "Некоректне значення. Будь ласка, спробуйте ще раз.".

Definition headerFormat : string := "%-20s".
Definition altHeaderFormat : string := "%-20s".
Definition stateHeaderFormat : string := "%-15s".
Definition scoreFormat : string := "%-15.2f".
Definition resultRankFormat : string := "%-5s %-20s %-15s" ++ newline.
Definition resultItemFormat : string := "%-5d %-20s %-15.4f" ++ newline.

(** The literal of [PrintOutcomesMatrix]. *)
Definition msgOutcomesMatrix : string :=
  newline ++ "Матриця корисності альтернатив для кожного стану:".

(** The three errors of [newUncertainDecisionSystem]. *)
Definition errAlternatives : arg := Errorf errInvalidCount [Str "альтернатив"].
Definition errStates : arg := Errorf errInvalidCount [Str "зовнішніх умов"].
Definition errScore : arg := Errorf errInvalidScore [].

Section Program.
Context `{Strconv}.

Definition readString (prompt : arg) : IO (string * bool) :=
  write (Print prompt);;
  '(input, err) ← read_line;
  if err : bool then mret (EmptyString, true) else mret (TrimSpace input, false).

(** [readInt] and [readFloat]: [None] stands for [err != nil]; the
    number that comes with an error is never used. *)
Definition readInt (prompt : arg) : IO (option Z) :=
  '(input, err) ← readString prompt;
  if err : bool then mret None else mret (Atoi input).

Definition readFloat (prompt : arg) : IO (option float64) :=
  '(input, err) ← readString prompt;
  if err : bool then mret None else mret (ParseFloat input).

Definition readStringArray (count : Z) (promptTemplate : string) : IO (list string) :=
  for_range (seq 0 (Z.to_nat count))
    (fun i items =>
       let prompt := Sprintf promptTemplate [Int (Z.of_nat i + 1)] in
       '(str, _) ← readString prompt;
       mret (<[i := str]> items))
    (replicate (Z.to_nat count) EmptyString).

Definition readValidatedFloat (fuel : nat) (prompt : arg) (min max : float64)
  : IO float64 :=
  forever fuel (
    r ← readFloat prompt;
    let again := write (Println [Str errInvalidValue]);; mret None in
    match r with
    | Some value => if F64.ge value min && F64.le value max then mret (Some value) else again
    | None => again
    end).

(** The test [err != nil || n <= 0] on what [readInt] returned: the count
    when it passes. *)
Definition valid_count (r : option Z) : option Z :=
  match r with
  | Some n => if bool_decide (n <= 0) then None else Some n
  | None => None
  end.

Definition newUncertainDecisionSystem : IO (arg + UncertainDecisionSystem) :=
  r ← readInt (Str promptAltCount);
  match valid_count r with
  | None => mret (inl errAlternatives)
  | Some altCount =>
      alternatives ← readStringArray altCount promptAltName;
      r ← readInt (Str promptStateCount);
      match valid_count r with
      | None => mret (inl errStates)
      | Some stateCount =>
          r ← readInt (Str promptMaxScore);
          match valid_count r with
          | None => mret (inl errScore)
          | Some maxScore =>
              mret (inr {| alternatives := alternatives; statesCount := stateCount;
                           maxScore := maxScore; outcomes := ∅ |})
          end
      end
  end.

(** [make([]float64, n)] panics for a negative [n]. *)
Definition make_floats (n : Z) : option (list float64) :=
  if (n <? 0)%Z then None else Some (replicate (Z.to_nat n) F64.zero).

Definition CollectOutcomes (fuel : nat) (u : UncertainDecisionSystem)
  : IO UncertainDecisionSystem :=
  outcomes ← for_range (alternatives u)
    (fun alt outcomes =>
       write (Printf promptAltValue [Str alt]);;
       outcomeSlice ← must (make_floats (statesCount u));
       outcomeSlice ← for_range (seq 0 (Z.to_nat (statesCount u)))
         (fun j outcomeSlice =>
            let prompt :=
              Sprintf promptStateValue
                [Str alt; Int (Z.of_nat j + 1); Int (maxScore u)] in
            v ← readValidatedFloat fuel prompt F64.one (F64.of_int (maxScore u));
            mret (<[j := v]> outcomeSlice))
         outcomeSlice;
       mret (<[alt := outcomeSlice]> outcomes))
    (outcomes u);
  mret {| alternatives := alternatives u; statesCount := statesCount u;
          maxScore := maxScore u; outcomes := outcomes |}.

Definition PrintOutcomesMatrix (u : UncertainDecisionSystem) : IO unit :=
  write (Println [Str msgOutcomesMatrix]);;
  write (Printf headerFormat [Str "Альтернатива"]);;
  for_each (seq 0 (Z.to_nat (statesCount u))) (fun j =>
    write (Printf stateHeaderFormat [Sprintf "Стан %d" [Int (Z.of_nat j + 1)]]));;
  write (Println []);;
  for_each (alternatives u) (fun alt =>
    write (Printf altHeaderFormat [Str alt]);;
    for_each (default [] (outcomes u !! alt))
      (fun outcome => write (Printf scoreFormat [Float outcome]));;
    write (Println [])).

(** [CalculateCriteria] as it is called: the coefficient is read first. *)
Definition CalculateCriteria (fuel : nat) (u : UncertainDecisionSystem)
  : IO (list Alternative) :=
  alpha ← readValidatedFloat fuel (Str promptAlpha) F64.zero F64.one;
  mret (Hurwicz.CalculateCriteria u alpha).

(** What [PrintRankings] writes once the slice is sorted. *)
Definition ranking_events (criterionName : string)
           (lines : list (Z * string * float64)) : list event :=
  [ Printf promptCriterionResults [Str criterionName];
    Printf resultRankFormat [Str "Ранг"; Str "Альтернатива"; Str criterionName] ] ++
  ((fun '(i, a, v) => Printf resultItemFormat [Int i; Str a; Float v]) <$> lines).

(** [PrintRankings criterionName alts0 valueFunc alts1 c c']: the call
    may leave the caller's slice as [alts1] and the console as [c']. *)
Definition PrintRankings (criterionName : string) (alts0 : list Alternative)
           (valueFunc : Alternative -> float64) (alts1 : list Alternative)
           (c c' : console) : Prop :=
  exists lines, Hurwicz.PrintRankings alts0 valueFunc alts1 lines /\
    for_each (ranking_events criterionName lines) write c = Value tt c'.

(** What [main] does up to the rankings. *)
Definition inputs (fuel : nat) (u : UncertainDecisionSystem) : IO (list Alternative) :=
  u ← CollectOutcomes fuel u;
  PrintOutcomesMatrix u;;
  CalculateCriteria fuel u.

(** [main fuel c r]: [r] is a possible outcome of [main] run from [c]. *)
Definition main (fuel : nat) (c : console) (r : result unit) : Prop :=
  match newUncertainDecisionSystem c with
  | Value (inl err) c1 => r = write (Println [err]) c1
  | Value (inr u) c1 =>
      match inputs fuel u c1 with
      | Value alts c2 =>
          exists alts1 alts2 alts3 c3 c4 c5,
            PrintRankings "Вальда" alts wald alts1 c2 c3 /\
            PrintRankings "maxmax" alts1 maxmax alts2 c3 c4 /\
            PrintRankings "Гурвіца" alts2 hurwicz alts3 c4 c5 /\
            r = Value tt c5
      | Panic => r = Panic
      | OutOfFuel => r = OutOfFuel
      end
  | Panic => r = Panic
  | OutOfFuel => r = OutOfFuel
  end.

End Program.

(** What the float loop accepts: [v >= min && v <= max]. *)
Definition accepted (min max v : float64) : Prop :=
  F64.ge v min = true /\ F64.le v max = true.

(** What [newUncertainDecisionSystem] may return. *)
Definition checked (r : arg + UncertainDecisionSystem) : Prop :=
  match r with
  | inl err => err ∈ [errAlternatives; errStates; errScore]
  | inr u =>
      (0 < length (alternatives u))%nat /\ (0 < statesCount u)%Z /\
      (0 < maxScore u)%Z /\ outcomes u = ∅
  end.

(** A row as [CollectOutcomes] leaves it. *)
Definition collected (u : UncertainDecisionSystem) (values : list float64) : Prop :=
  length values = Z.to_nat (statesCount u) /\
  Forall (accepted F64.one (F64.of_int (maxScore u))) values.

End HurwiczMain.

(** ** Sessions used as examples *)

Module Sessions.
Import Console.
Local Open Scope string_scope.

(** A stand-in for [strings.TrimSpace], [strconv.Atoi] and
    [strconv.ParseFloat], enough to run a session typed in ASCII: white
    space is cut at both ends, a number is a non-empty run of decimal
    digits, and [ParseFloat] reads whole numbers only.  It serves the
    examples; no property depends on it. *)
Definition is_space (ch : Ascii.ascii) : bool :=
  let n := Ascii.nat_of_ascii ch in
  (n =? 32)%nat || ((9 <=? n)%nat && (n <=? 13)%nat).

Fixpoint trim_left (s : string) : string :=
  match s with
  | EmptyString => EmptyString
  | String ch rest => if is_space ch then trim_left rest else s
  end.

Definition reverse_string (s : string) : string :=
  String.string_of_list_ascii (rev (String.list_ascii_of_string s)).

Definition trim (s : string) : string :=
  reverse_string (trim_left (reverse_string (trim_left s))).

Fixpoint digits (s : string) (acc : Z) : option Z :=
  match s with
  | EmptyString => Some acc
  | String ch rest =>
      let n := Z.of_nat (Ascii.nat_of_ascii ch) in
      if ((48 <=? n)%Z && (n <=? 57)%Z) then digits rest (10 * acc + (n - 48))%Z else None
  end.

Definition atoi (s : string) : option Z :=
  match s with
  | EmptyString => None
  | _ => digits s 0%Z
  end.

Definition parse_whole (s : string) : option float64 := F64.of_int <$> atoi s.

Definition typed : Strconv :=
  {| TrimSpace := trim; Atoi := atoi; ParseFloat := parse_whole |}.

(** The console before a run: the lines typed, each ended by a line feed,
    and nothing written yet. *)
Definition keyboard (lines : list string) : console :=
  {| stdin := foldr (fun l acc => l ++ newline ++ acc) EmptyString lines;
     stdout := [] |}.

(** What was written last. *)
Definition last_written {A : Type} (n : nat) (r : result A) : option (list event) :=
  match r with
  | Value _ c => Some (drop (length (stdout c) - n) (stdout c))
  | _ => None
  end.

(** A run of the first program: a count of 0 and a rank of 3 are refused,
    then A and B are ranked 1 and 2 by the one expert. *)
Definition pareto_keys : console :=
  keyboard ["0"; "2"; "A"; "B"; "1"; "E"; "3"; "1"; "2"].

(** A system as [newUncertainDecisionSystem] returns it, two alternatives
    and two states on a scale up to 10, as the second and as the third
    program hold it; and the utilities typed for it, with a line that is
    refused, followed by the coefficient of optimism. *)
Definition empty_rows : Savage.UncertainDecisionSystem :=
  {| Savage.alternatives := ["A"; "B"]; Savage.statesCount := 2;
     Savage.maxScore := 10; Savage.outcomes := ∅ |}.

Definition empty_rows3 : Hurwicz.UncertainDecisionSystem :=
  {| Hurwicz.alternatives := ["A"; "B"]; Hurwicz.statesCount := 2;
     Hurwicz.maxScore := 10; Hurwicz.outcomes := ∅ |}.

Definition utility_keys : console :=
  keyboard ["10"; "2"; "11"; "6"; "6"; "1"].

(** A whole run of the second program. *)
Definition savage_keys : console :=
  keyboard ["2"; "A"; "B"; "2"; "10"; "10"; "2"; "6"; "6"].

(** Input that ends without a line feed. *)
Definition unfinished_line : console := {| stdin := "5"; stdout := [] |}.

(** Two scores that differ. *)
Definition distinct_scores : gmap string float64 :=
  {[ "A" := F64.of_int 1; "B" := F64.of_int 2 ]}.

End Sessions.

(* ===================================================================== *)
(** * Part II: properties *)
(* ===================================================================== *)

(** ** Go's string order *)

Section StringOrder.
Import GoSort.

Lemma ascii_compare_N (a b : Ascii.ascii) :
  Ascii.compare a b = N.compare (Ascii.N_of_ascii a) (Ascii.N_of_ascii b).
Proof. reflexivity. Qed.

Lemma string_compare_cons (a b : Ascii.ascii) (s t : string) :
  String.compare (String a s) (String b t) =
  match N.compare (Ascii.N_of_ascii a) (Ascii.N_of_ascii b) with
  | Eq => String.compare s t
  | c => c
  end.
Proof.
  simpl. rewrite ascii_compare_N.
  by destruct (N.compare _ _).
Qed.

Lemma string_leb_trans (s t u : string) :
  String.leb s t = true -> String.leb t u = true -> String.leb s u = true.
Proof.
  unfold String.leb. revert t u.
  induction s as [|a s IH]; intros [|b t] [|c u]; try (simpl; congruence).
  rewrite !string_compare_cons.
  destruct (N.compare_spec (Ascii.N_of_ascii a) (Ascii.N_of_ascii b)) as [E1|L1|G1];
    destruct (N.compare_spec (Ascii.N_of_ascii b) (Ascii.N_of_ascii c)) as [E2|L2|G2];
    try congruence.
  - rewrite E1, E2, N.compare_refl. apply IH.
  - intros _ _. rewrite E1. by rewrite (proj2 (N.compare_lt_iff _ _) L2).
  - intros _ _. rewrite <- E2. by rewrite (proj2 (N.compare_lt_iff _ _) L1).
  - intros _ _.
    assert (Ascii.N_of_ascii a < Ascii.N_of_ascii c)%N as L by lia.
    by rewrite (proj2 (N.compare_lt_iff _ _) L).
Qed.

Global Instance string_le_trans : Transitive string_le.
Proof. intros s t u. apply string_leb_trans. Qed.

Global Instance string_le_total : Total string_le.
Proof. intros s t. apply String.leb_total. Qed.

Global Instance string_le_antisym : AntiSymm eq string_le.
Proof. intros s t. apply String.leb_antisym. Qed.

Lemma Strings_sorted (x : list string) : StronglySorted string_le (Strings x).
Proof. apply (StronglySorted_merge_sort _). Qed.

Lemma Strings_perm (x : list string) : Strings x ≡ₚ x.
Proof. apply merge_sort_Permutation. Qed.

(** Whatever sorting procedure is run, the outcome is this list. *)
Lemma Strings_unique (x y : list string) :
  y ≡ₚ x -> StronglySorted string_le y -> y = Strings x.
Proof.
  intros Hp Hs. apply (StronglySorted_unique string_le); auto using Strings_sorted.
  by rewrite Hp, Strings_perm.
Qed.

Lemma Strings_order_independent (x y : list string) :
  x ≡ₚ y -> Strings x = Strings y.
Proof.
  intros Hp. apply Strings_unique; auto using Strings_sorted.
  by rewrite Strings_perm.
Qed.

End StringOrder.

(** ** The dominance relation *)

Section DominanceFacts.
Import Pareto.

Lemma compare_experts_spec p a1 a2 es better :
  let '(b, nw) := compare_experts p a1 a2 es better true in
  nw && b = true <->
  (forall e, e ∈ es -> rank p e a1 <= rank p e a2) /\
  (better = true \/ exists e, e ∈ es /\ rank p e a1 < rank p e a2).
Proof.
  revert better. induction es as [|e es IH]; intros better; simpl.
  - split.
    + intros ->. split; [intros e He; by apply elem_of_nil in He | by left].
    + intros [_ [->|(e & He & _)]]; [done | by apply elem_of_nil in He].
  - destruct (Z.gtb_spec (rank p e a1) (rank p e a2)) as [Hgt|Hle].
    + split; [done|]. intros [Hall _].
      specialize (Hall e (list_elem_of_here _ _)). lia.
    + specialize (IH (if rank p e a1 <? rank p e a2 then true else better)).
      destruct (compare_experts p a1 a2 es _ true) as [b nw].
      rewrite IH. clear IH.
      destruct (Z.ltb_spec (rank p e a1) (rank p e a2)) as [Hlt|Hge].
      * split.
        -- intros [Hall _]. split.
           ++ intros e' [->|He']%elem_of_cons; [lia | auto].
           ++ right. exists e. split; [apply list_elem_of_here | done].
        -- intros [Hall _]. split; [|by left].
           intros e' He'. apply Hall. by apply list_elem_of_further.
      * split.
        -- intros [Hall Hex]. split.
           ++ intros e' [->|He']%elem_of_cons; [lia | auto].
           ++ destruct Hex as [->|(e' & He' & Hlt)]; [by left|].
              right. exists e'. split; [by apply list_elem_of_further | done].
        -- intros [Hall Hex]. split.
           ++ intros e' He'. apply Hall. by apply list_elem_of_further.
           ++ destruct Hex as [->|(e' & [->|He']%elem_of_cons & Hlt)];
                [by left | lia | right; eauto].
Qed.

(** The pair test decides the rule of the specification. *)
Lemma pair_test_dominates p a1 a2 :
  pair_test p a1 a2 = true <-> dominates p a1 a2.
Proof.
  unfold pair_test, dominates.
  pose proof (compare_experts_spec p a1 a2 (experts p) false) as H.
  destruct (compare_experts p a1 a2 (experts p) false true) as [b nw].
  rewrite H. split.
  - intros [Hall [?|Hex]]; [done | by split].
  - intros [Hall Hex]. split; [done | by right].
Qed.

Lemma init_rows_lookup als d a :
  init_rows als d !! a = if decide (a ∈ als) then Some ∅ else d !! a.
Proof.
  revert d. induction als as [|b als IH]; intros d; cbn [init_rows].
  - case_decide as Hin; [by apply elem_of_nil in Hin | done].
  - rewrite IH. destruct (decide (a ∈ als)) as [Hin|Hnin].
    + by rewrite decide_True by (by apply list_elem_of_further).
    + destruct (decide (a = b)) as [->|Hne].
      * rewrite decide_True by apply list_elem_of_here. apply lookup_insert_eq.
      * rewrite decide_False by (intros [?|?]%elem_of_cons; done).
        by apply lookup_insert_ne.
Qed.

Lemma dom_get_init_rows als d a b :
  dom_get (init_rows als d) a b = if decide (a ∈ als) then false else dom_get d a b.
Proof.
  unfold dom_get. rewrite init_rows_lookup. by destruct (decide (a ∈ als)).
Qed.

Lemma dom_set_spec d a1 a2 :
  is_Some (d !! a1) ->
  exists d', dom_set d a1 a2 = Some d' /\
    (forall a, is_Some (d !! a) -> is_Some (d' !! a)) /\
    (forall x y, dom_get d' x y =
                 if decide (x = a1 /\ y = a2) then true else dom_get d x y).
Proof.
  intros [row Hrow]. unfold dom_set. rewrite Hrow. eexists. split; [done|]. split.
  - intros a Ha. destruct (decide (a = a1)) as [->|Hne].
    + rewrite lookup_insert_eq. by eexists.
    + by rewrite lookup_insert_ne.
  - intros x y. unfold dom_get.
    destruct (decide (x = a1)) as [->|Hne].
    + rewrite lookup_insert_eq, Hrow. simpl.
      destruct (decide (y = a2)) as [->|Hne2].
      * rewrite decide_True by done. by rewrite lookup_insert_eq.
      * rewrite decide_False by (intros [_ ?]; done). by rewrite lookup_insert_ne.
    + rewrite decide_False by (intros [? _]; done). by rewrite lookup_insert_ne.
Qed.

Lemma inner_loop_spec p a1 as2 d :
  is_Some (d !! a1) ->
  exists d', inner_loop p a1 as2 d = Some d' /\
    (forall a, is_Some (d !! a) -> is_Some (d' !! a)) /\
    (forall x y, dom_get d' x y =
       dom_get d x y || (bool_decide (x = a1 /\ y ∈ as2 /\ x <> y) && pair_test p x y)).
Proof.
  revert d. induction as2 as [|a2 rest IH]; intros d Hrow; cbn [inner_loop].
  - exists d. split; [done|]. split; [done|]. intros x y.
    rewrite bool_decide_eq_false_2; [by rewrite orb_false_r|].
    intros (_ & H & _). by apply elem_of_nil in H.
  - destruct (decide (a1 = a2)) as [<-|Hne].
    + destruct (IH d Hrow) as (d' & Hd' & Hsome & Hget).
      exists d'. split; [done|]. split; [done|]. intros x y. rewrite Hget.
      f_equal. f_equal. apply bool_decide_ext. rewrite elem_of_cons.
      intuition (subst; try congruence; auto).
    + destruct (pair_test p a1 a2) eqn:Ht.
      * destruct (dom_set_spec d a1 a2 Hrow) as (d1 & Hd1 & Hsome1 & Hget1).
        rewrite Hd1. simpl.
        destruct (IH d1 (Hsome1 _ Hrow)) as (d' & Hd' & Hsome & Hget).
        exists d'. split; [done|]. split; [auto|]. intros x y.
        rewrite Hget, Hget1.
        destruct (decide (x = a1 /\ y = a2)) as [[-> ->]|Hn].
        -- rewrite Ht. simpl. symmetry. apply orb_true_iff. right.
           rewrite andb_true_r. apply bool_decide_eq_true_2.
           split; [done|]. split; [apply list_elem_of_here | done].
        -- destruct (dom_get d x y); [done|]. simpl.
           f_equal. apply bool_decide_ext. rewrite elem_of_cons. intuition (subst; try congruence; auto).
      * destruct (IH d Hrow) as (d' & Hd' & Hsome & Hget).
        exists d'. split; [done|]. split; [done|]. intros x y. rewrite Hget.
        destruct (dom_get d x y); [done|]. simpl.
        destruct (decide (x = a1 /\ y = a2)) as [[-> ->]|Hn].
        -- rewrite Ht. by rewrite !andb_false_r.
        -- f_equal. apply bool_decide_ext. rewrite elem_of_cons. intuition (subst; try congruence; auto).
Qed.

Lemma outer_loop_spec p as1 d :
  (forall a, a ∈ as1 -> is_Some (d !! a)) ->
  exists d', outer_loop p as1 d = Some d' /\
    (forall a, is_Some (d !! a) -> is_Some (d' !! a)) /\
    (forall x y, dom_get d' x y =
       dom_get d x y ||
       (bool_decide (x ∈ as1 /\ y ∈ alts p /\ x <> y) && pair_test p x y)).
Proof.
  revert d. induction as1 as [|a1 rest IH]; intros d Hrows; cbn [outer_loop].
  - exists d. split; [done|]. split; [done|]. intros x y.
    rewrite bool_decide_eq_false_2; [by rewrite orb_false_r|].
    intros (H & _). by apply elem_of_nil in H.
  - destruct (inner_loop_spec p a1 (alts p) d) as (d1 & Hd1 & Hsome1 & Hget1).
    { apply Hrows, list_elem_of_here. }
    rewrite Hd1. simpl.
    destruct (IH d1) as (d' & Hd' & Hsome & Hget).
    { intros a Ha. apply Hsome1, Hrows. by apply list_elem_of_further. }
    exists d'. split; [done|]. split; [auto|]. intros x y.
    rewrite Hget, Hget1, <- orb_assoc. f_equal.
    rewrite <- andb_orb_distrib_l. f_equal.
    rewrite <- bool_decide_or. apply bool_decide_ext.
    rewrite elem_of_cons. intuition (subst; try congruence; auto).
Qed.

(** [BuildDominance] never panics, and afterwards the entry of every pair
    whose first component is an alternative is the pair test. *)
Lemma BuildDominance_spec p :
  exists p', BuildDominance p = Some p' /\
    alts p' = alts p /\ experts p' = experts p /\ rankings p' = rankings p /\
    (forall x y, x ∈ alts p ->
       dom_get (dominance p') x y =
       bool_decide (y ∈ alts p /\ x <> y) && pair_test p x y) /\
    (forall x y, x ∉ alts p ->
       dom_get (dominance p') x y = dom_get (dominance p) x y).
Proof.
  unfold BuildDominance.
  destruct (outer_loop_spec p (alts p) (init_rows (alts p) (dominance p)))
    as (d' & Hd' & _ & Hget).
  { intros a Ha. rewrite init_rows_lookup, decide_True by done. by eexists. }
  rewrite Hd'. simpl. eexists. split; [done|]. simpl.
  repeat split; intros x y Hx; rewrite Hget, dom_get_init_rows.
  - rewrite decide_True by done. simpl. f_equal. apply bool_decide_ext. intuition (subst; try congruence; auto).
  - rewrite decide_False by done. rewrite bool_decide_eq_false_2 by intuition (subst; try congruence; auto).
    by rewrite orb_false_r.
Qed.

End DominanceFacts.

(** ** The Pareto set *)

Section ParetoSetFacts.
Import Pareto GoSort.

Lemma dominated_spec p a bs :
  dominated p a bs = true <-> exists b, b ∈ bs /\ dom_get (dominance p) b a = true.
Proof.
  induction bs as [|b bs IH]; simpl.
  - split; [done | intros (b & Hb & _); by apply elem_of_nil in Hb].
  - destruct (dom_get (dominance p) b a) eqn:Hb.
    + split; [|done]. intros _. exists b. split; [apply list_elem_of_here | done].
    + rewrite IH. split.
      * intros (b' & Hb' & Hd). exists b'. split; [by apply list_elem_of_further | done].
      * intros (b' & [->|Hb']%elem_of_cons & Hd); [congruence | eauto].
Qed.

Lemma collect_filter p als out :
  collect p als out = out ++ filter (fun a => dominated p a (alts p) = false) als.
Proof.
  revert out. induction als as [|a als IH]; intros out; cbn [collect].
  - by rewrite app_nil_r.
  - rewrite IH, filter_cons. case_decide as Hd; rewrite Hd || apply not_false_is_true in Hd.
    + simpl. by rewrite <- app_assoc.
    + by rewrite Hd.
Qed.

Lemma ParetoSet_perm p :
  ParetoSet p ≡ₚ filter (fun a => dominated p a (alts p) = false) (alts p).
Proof. unfold ParetoSet. by rewrite Strings_perm, collect_filter. Qed.

Lemma elem_of_ParetoSet p a :
  a ∈ ParetoSet p <->
  a ∈ alts p /\ ~ exists b, b ∈ alts p /\ dom_get (dominance p) b a = true.
Proof.
  rewrite ParetoSet_perm, list_elem_of_filter, <- dominated_spec.
  destruct (dominated p a (alts p)); intuition congruence.
Qed.

Lemma filter_ext_elem {A : Type} (P Q : A -> Prop)
      `{!forall x, Decision (P x)} `{!forall x, Decision (Q x)} (l : list A) :
  (forall a, a ∈ l -> (P a <-> Q a)) -> filter P l = filter Q l.
Proof.
  induction l as [|x l IH]; intros Hext; [done|].
  rewrite !filter_cons, IH by (intros a Ha; apply Hext; by apply list_elem_of_further).
  pose proof (Hext x (list_elem_of_here _ _)) as Hx.
  repeat case_decide; tauto || done.
Qed.

Lemma dominated_perm p p' a :
  alts p' ≡ₚ alts p -> dominance p' = dominance p ->
  dominated p' a (alts p') = dominated p a (alts p).
Proof.
  intros Hp Hd. apply eq_true_iff_eq. rewrite !dominated_spec, Hd.
  by setoid_rewrite Hp.
Qed.

Lemma rank_sum_le p es a b :
  (forall e, e ∈ es -> rank p e a <= rank p e b) ->
  rank_sum p es a <= rank_sum p es b.
Proof.
  induction es as [|e es IH]; intros Hall; simpl; [lia|].
  specialize (Hall e (list_elem_of_here _ _)) as He.
  assert (rank_sum p es a <= rank_sum p es b).
  { apply IH. intros e' He'. apply Hall. by apply list_elem_of_further. }
  lia.
Qed.

Lemma rank_sum_lt p es a b :
  (forall e, e ∈ es -> rank p e a <= rank p e b) ->
  (exists e, e ∈ es /\ rank p e a < rank p e b) ->
  rank_sum p es a < rank_sum p es b.
Proof.
  induction es as [|e es IH]; intros Hall (e' & He' & Hlt); simpl.
  - by apply elem_of_nil in He'.
  - specialize (Hall e (list_elem_of_here _ _)) as He.
    assert (forall e0, e0 ∈ es -> rank p e0 a <= rank p e0 b) as Hall'.
    { intros e0 He0. apply Hall. by apply list_elem_of_further. }
    apply elem_of_cons in He' as [->|He'].
    + pose proof (rank_sum_le p es a b Hall'). lia.
    + assert (rank_sum p es a < rank_sum p es b) by (apply IH; eauto). lia.
Qed.

Lemma dominates_rank_sum p a b :
  dominates p a b -> rank_sum p (experts p) a < rank_sum p (experts p) b.
Proof. intros [Hall Hex]. by apply rank_sum_lt. Qed.

Lemma least_element {A : Type} (f : A -> Z) (l : list A) :
  l <> [] -> exists a, a ∈ l /\ forall b, b ∈ l -> f a <= f b.
Proof.
  induction l as [|x l IH]; [done|]. intros _.
  destruct l as [|y l].
  - exists x. split; [apply list_elem_of_here|].
    intros b ->%list_elem_of_singleton. lia.
  - destruct IH as (a & Ha & Hmin); [done|].
    destruct (Z_le_gt_dec (f x) (f a)) as [Hle|Hgt].
    + exists x. split; [apply list_elem_of_here|].
      intros b [->|Hb]%elem_of_cons; [lia|]. specialize (Hmin b Hb). lia.
    + exists a. split; [by apply list_elem_of_further|].
      intros b [->|Hb]%elem_of_cons; [lia | auto].
Qed.

End ParetoSetFacts.

(** ** Claims on the Pareto pipeline *)

Section ParetoClaims.
Import Pareto GoSort Scenarios.
Local Open Scope string_scope.

(** C1.  [BuildDominance] returns, and for any two distinct alternatives
    [a1], [a2] the entry [dominance[a1][a2]] is true exactly when every
    expert ranks [a1] with a number at most that of [a2] and some expert
    ranks [a1] with a strictly smaller number.  Missing ranks read as 0, so
    completeness of the rank matrix is not needed. *)
Theorem C1_dominance_rule (p : ParetoSystem) :
  exists p', BuildDominance p = Some p' /\
    forall a1 a2, a1 ∈ alts p -> a2 ∈ alts p -> a1 <> a2 ->
      (dom_get (dominance p') a1 a2 = true <->
       (forall e, e ∈ experts p -> rank p e a1 <= rank p e a2) /\
       (exists e, e ∈ experts p /\ rank p e a1 < rank p e a2)).
Proof.
  destruct (BuildDominance_spec p) as (p' & Hp' & _ & _ & _ & Hin & _).
  exists p'. split; [done|]. intros a1 a2 H1 H2 Hne.
  rewrite (Hin a1 a2 H1), bool_decide_eq_true_2 by done.
  apply pair_test_dominates.
Qed.

(** C2.  [ParetoSet] returns exactly the alternatives [a] for which no
    alternative [b] has [dominance[b][a]] true (each as often as it is
    declared), in byte-wise lexicographic order, and the result does not
    depend on the order in which the alternatives are declared. *)
Theorem C2_pareto_set_sorted_nondominated (p : ParetoSystem) :
  (forall a, a ∈ ParetoSet p <->
     a ∈ alts p /\ ~ exists b, b ∈ alts p /\ dom_get (dominance p) b a = true) /\
  ParetoSet p ≡ₚ filter (fun a => dominated p a (alts p) = false) (alts p) /\
  StronglySorted (fun s t => String.leb s t = true) (ParetoSet p) /\
  (forall p', alts p' ≡ₚ alts p -> dominance p' = dominance p ->
     ParetoSet p' = ParetoSet p).
Proof.
  split; [apply elem_of_ParetoSet|]. split; [apply ParetoSet_perm|].
  split; [apply Strings_sorted|].
  intros p' Hp Hd. unfold ParetoSet. apply Strings_order_independent.
  rewrite !collect_filter. simpl.
  rewrite Hp. apply reflexive_eq, filter_ext_elem.
  intros a _. by rewrite (dominated_perm p p' a Hp Hd).
Qed.

Example scenario_dominance :
  (fun p => let d := dominance p in
     (dom_get d "A" "B", dom_get d "A" "C", dom_get d "B" "C", dom_get d "C" "B"))
    <$> BuildDominance scenario = Some (true, true, false, false).
Proof. vm_compute. reflexivity. Qed.

Example scenario_pareto :
  ParetoSet <$> BuildDominance scenario = Some ["A"].
Proof. vm_compute. reflexivity. Qed.

(** C5.  With at least one alternative, the Pareto set computed from the
    dominance relation that [BuildDominance] builds is not empty. *)
Theorem C5_pareto_set_nonempty (p : ParetoSystem) :
  alts p <> [] ->
  exists p', BuildDominance p = Some p' /\ ParetoSet p' <> [].
Proof.
  intros Hne.
  destruct (BuildDominance_spec p) as (p' & Hp' & Halts & _ & _ & Hin & _).
  exists p'. split; [done|].
  destruct (least_element (rank_sum p (experts p)) (alts p) Hne) as (a & Ha & Hmin).
  assert (a ∈ ParetoSet p') as Hmem.
  { apply elem_of_ParetoSet. rewrite Halts. split; [done|].
    intros (b & Hb & Hdom). rewrite (Hin b a Hb) in Hdom.
    apply andb_true_iff in Hdom as [_ Hdom].
    apply pair_test_dominates, dominates_rank_sum in Hdom.
    specialize (Hmin b Hb). lia. }
  intros Hnil. rewrite Hnil in Hmem. by apply elem_of_nil in Hmem.
Qed.

Lemma C5_pareto_set_nonempty_witness :
  alts scenario <> [] /\
  exists p', BuildDominance scenario = Some p' /\ ParetoSet p' <> [].
Proof.
  assert (alts scenario <> []) as H by (vm_compute; discriminate).
  split; [exact H | exact (C5_pareto_set_nonempty scenario H)].
Defined.

(** C6.  For two alternatives [a] and [b], [dominance[a][b]] and
    [dominance[b][a]] are never both true; and when every expert gives them
    the same rank, both are false. *)
Theorem C6_dominance_antisymmetric (p : ParetoSystem) :
  exists p', BuildDominance p = Some p' /\
    (forall a b, a ∈ alts p -> b ∈ alts p -> a <> b ->
       dom_get (dominance p') a b && dom_get (dominance p') b a = false) /\
    (forall a b, a ∈ alts p -> b ∈ alts p ->
       (forall e, e ∈ experts p -> rank p e a = rank p e b) ->
       dom_get (dominance p') a b = false /\ dom_get (dominance p') b a = false).
Proof.
  destruct (BuildDominance_spec p) as (p' & Hp' & _ & _ & _ & Hin & _).
  exists p'. split; [done|]. split.
  - intros a b Ha Hb _. apply not_true_is_false. intros [Hab Hba]%andb_true_iff.
    rewrite (Hin _ _ Ha) in Hab. rewrite (Hin _ _ Hb) in Hba.
    apply andb_true_iff in Hab as [_ Hab%pair_test_dominates%dominates_rank_sum].
    apply andb_true_iff in Hba as [_ Hba%pair_test_dominates%dominates_rank_sum].
    lia.
  - intros a b Ha Hb Htie.
    split; apply not_true_is_false; intros Hd;
      [rewrite (Hin _ _ Ha) in Hd | rewrite (Hin _ _ Hb) in Hd];
      apply andb_true_iff in Hd as [_ (_ & e & He & Hlt)%pair_test_dominates];
      specialize (Htie e He); lia.
Qed.

(** C10.  The computed relation is a strict partial order on the
    alternatives: no alternative dominates itself, and dominance is
    transitive. *)
Theorem C10_dominance_strict_partial_order (p : ParetoSystem) :
  exists p', BuildDominance p = Some p' /\
    (forall a, a ∈ alts p -> dom_get (dominance p') a a = false) /\
    (forall a b c, a ∈ alts p -> b ∈ alts p -> c ∈ alts p ->
       dom_get (dominance p') a b = true -> dom_get (dominance p') b c = true ->
       dom_get (dominance p') a c = true).
Proof.
  destruct (BuildDominance_spec p) as (p' & Hp' & _ & _ & _ & Hin & _).
  exists p'. split; [done|]. split.
  - intros a Ha. rewrite (Hin _ _ Ha).
    rewrite bool_decide_eq_false_2; [done | by intros [_ ?]].
  - intros a b c Ha Hb Hc Hab Hbc.
    rewrite (Hin _ _ Ha) in Hab. rewrite (Hin _ _ Hb) in Hbc.
    apply andb_true_iff in Hab as [_ Hab%pair_test_dominates].
    apply andb_true_iff in Hbc as [_ Hbc%pair_test_dominates].
    assert (dominates p a c) as Hac.
    { destruct Hab as [Hab1 (e & He & Hlt)], Hbc as [Hbc1 _]. split.
      - intros e' He'. specialize (Hab1 e' He'). specialize (Hbc1 e' He'). lia.
      - exists e. split; [done|]. specialize (Hbc1 e He). lia. }
    rewrite (Hin _ _ Ha). apply andb_true_iff. split; [|by apply pair_test_dominates].
    apply bool_decide_eq_true_2. split; [done|]. intros ->.
    destruct Hac as [Hall (e & He & Hlt)]. lia.
Qed.

End ParetoClaims.

(** ** binary64: order *)

Section F64Order.
Import F64.

Ltac compare_cases :=
  repeat match goal with
  | |- context [Z.compare ?a ?b] => destruct (Z.compare_spec a b)
  | |- context [Pos.compare_cont Eq ?a ?b] =>
      change (Pos.compare_cont Eq a b) with (Pos.compare a b);
      destruct (Pos.compare_spec a b)
  end.

Ltac order_cases x y :=
  unfold lt, gt, le, ge, eq, SFltb, SFleb, SFeqb, key_lt, key_eq;
  destruct x as [[]|[]| |[] ? ?], y as [[]|[]| |[] ? ?]; simpl;
  compare_cases; simpl;
  (split; [ try discriminate; intros _; repeat split; try reflexivity; lia
          | intros (? & ? & ?); try discriminate; try reflexivity; try lia ]).

Lemma lt_true_iff x y :
  lt x y = true <-> is_nan x = false /\ is_nan y = false /\ key_lt x y.
Proof. order_cases x y. Qed.

Lemma le_true_iff x y :
  le x y = true <-> is_nan x = false /\ is_nan y = false /\ (key_lt x y \/ key_eq x y).
Proof. order_cases x y. Qed.

Lemma eq_true_iff x y :
  eq x y = true <-> is_nan x = false /\ is_nan y = false /\ key_eq x y.
Proof. order_cases x y. Qed.

Lemma gt_lt x y : gt x y = lt y x.
Proof. reflexivity. Qed.

Lemma ge_le x y : ge x y = le y x.
Proof. reflexivity. Qed.

Lemma lt_false_iff x y :
  is_nan x = false -> is_nan y = false ->
  (lt x y = false <-> le y x = true).
Proof.
  intros Hx Hy. rewrite le_true_iff, <- not_true_iff_false, lt_true_iff.
  unfold key_lt, key_eq. split.
  - intros H. repeat split; try done.
    destruct (Z_lt_le_dec (cls x) (cls y)); [exfalso; apply H; repeat split; auto|].
    destruct (Z_lt_le_dec (kexp x) (kexp y)); [|destruct (Z_lt_le_dec (kman x) (kman y))].
    + destruct (Z.eq_dec (cls x) (cls y)); [exfalso; apply H; repeat split; auto | lia].
    + destruct (Z.eq_dec (cls x) (cls y)); [|lia].
      destruct (Z.eq_dec (kexp x) (kexp y)); [|lia].
      exfalso; apply H; repeat split; auto.
    + lia.
  - intros (_ & _ & H) (_ & _ & H'). lia.
Qed.

Lemma lt_asym x y : lt x y = true -> lt y x = false.
Proof.
  rewrite <- not_true_iff_false, !lt_true_iff. unfold key_lt.
  intros (_ & _ & H) (_ & _ & H'). lia.
Qed.

Lemma lt_le x y : lt x y = true -> le x y = true.
Proof. rewrite lt_true_iff, le_true_iff. tauto. Qed.

Lemma le_refl x : is_nan x = false -> le x x = true.
Proof. intros H. rewrite le_true_iff. unfold key_eq. tauto. Qed.

Lemma le_trans x y z : le x y = true -> le y z = true -> le x z = true.
Proof.
  rewrite !le_true_iff. unfold key_lt, key_eq.
  intros (Hx & _ & H) (_ & Hz & H'). repeat split; try done. lia.
Qed.

Lemma lt_le_trans x y z : lt x y = true -> le y z = true -> lt x z = true.
Proof.
  rewrite !lt_true_iff, le_true_iff. unfold key_lt, key_eq.
  intros (Hx & _ & H) (_ & Hz & H'). repeat split; try done. lia.
Qed.

Lemma le_lt_trans x y z : le x y = true -> lt y z = true -> lt x z = true.
Proof.
  rewrite !lt_true_iff, le_true_iff. unfold key_lt, key_eq.
  intros (Hx & _ & H) (_ & Hz & H'). repeat split; try done. lia.
Qed.

Lemma lt_trans x y z : lt x y = true -> lt y z = true -> lt x z = true.
Proof. intros H1 H2. eapply lt_le_trans; [done | by apply lt_le]. Qed.

Lemma le_not_nan_l x y : le x y = true -> is_nan x = false.
Proof. rewrite le_true_iff. tauto. Qed.

Lemma le_not_nan_r x y : le x y = true -> is_nan y = false.
Proof. rewrite le_true_iff. tauto. Qed.

(** Two values that compare equal to a third are not below one another. *)
Lemma eq_class_not_lt x y v :
  eq x v = true -> eq y v = true -> lt x y = false.
Proof.
  rewrite <- not_true_iff_false, !eq_true_iff, lt_true_iff. unfold key_lt, key_eq.
  intros (_ & _ & H) (_ & _ & H') (_ & _ & H''). lia.
Qed.

End F64Order.

(** ** binary64: operations that round nothing away *)

Section F64Exact.
Import F64.

Lemma digits2_pos_log2 (p : positive) :
  Zpos (digits2_pos p) = Z.log2 (Zpos p) + 1.
Proof.
  induction p as [p IH|p IH|]; simpl; [| |reflexivity];
    rewrite Pos2Z.inj_succ; destruct p; simpl in *; lia.
Qed.

Lemma iter_pos_nat {A : Type} (f : A -> A) (n : positive) (x : A) :
  SpecFloat.iter_pos f n x = Nat.iter (Pos.to_nat n) f x.
Proof.
  revert x. induction n as [n IH|n IH|]; intros x; simpl SpecFloat.iter_pos.
  - rewrite !IH, Pos2Nat.inj_xI, <- Nat.iter_add, <- Nat.iter_succ_r. f_equal. lia.
  - rewrite !IH, Pos2Nat.inj_xO, <- Nat.iter_add. f_equal. lia.
  - reflexivity.
Qed.

Lemma shr_1_iter_exact (n : nat) (m : positive) :
  Nat.iter n shr_1 {| shr_m := Zpos (Nat.iter n xO m); shr_r := false; shr_s := false |} =
  {| shr_m := Zpos m; shr_r := false; shr_s := false |}.
Proof.
  induction n as [|n IH]; [reflexivity|].
  rewrite Nat.iter_succ_r. simpl. exact IH.
Qed.

Lemma Zpos_iter_xO (n : nat) (m : positive) :
  Zpos (Nat.iter n xO m) = Zpos m * 2 ^ Z.of_nat n.
Proof.
  induction n as [|n IH]; [simpl; lia|].
  rewrite Nat2Z.inj_succ, Z.pow_succ_r by lia. simpl Nat.iter.
  rewrite Pos2Z.inj_xO, IH. ring.
Qed.

Lemma Zpos_Pos_iter_xO (d m : positive) :
  Zpos (Pos.iter xO m d) = Zpos m * 2 ^ Zpos d.
Proof.
  rewrite Pos2Nat.inj_iter.
  change (nat_rect _ m (fun _ => xO) (Pos.to_nat d)) with (Nat.iter (Pos.to_nat d) xO m).
  by rewrite Zpos_iter_xO, positive_nat_Z.
Qed.

(** A mantissa that is a canonical one shifted left by [k] bits rounds
    back to the canonical one, whatever the format. *)
Lemma binary_round_aux_exact (p q : Z) (s : bool) (M m : positive) (e k : Z) :
  canonical_mantissa p q m e = true ->
  e <= q - p ->
  0 <= k ->
  Zpos M = Zpos m * 2 ^ k ->
  binary_round_aux p q s (Zpos M) (e - k) loc_Exact = S754_finite s m e.
Proof.
  intros Hcan Hbound Hk HM.
  unfold canonical_mantissa in Hcan. apply Z.eqb_eq in Hcan.
  assert (Zpos (digits2_pos M) = Zpos (digits2_pos m) + k) as Hdig.
  { rewrite !digits2_pos_log2, HM, Z.log2_mul_pow2 by lia. lia. }
  assert (M = Nat.iter (Z.to_nat k) xO m) as HMiter.
  { apply Pos2Z.inj. rewrite Zpos_iter_xO, Z2Nat.id by lia. exact HM. }
  unfold binary_round_aux, shr_fexp. cbn [Zdigits2 shr_record_of_loc].
  rewrite Hdig.
  replace (Zpos (digits2_pos m) + k + (e - k)) with (Zpos (digits2_pos m) + e) by lia.
  rewrite Hcan.
  replace (e - (e - k)) with k by lia.
  assert (shr {| shr_m := Zpos M; shr_r := false; shr_s := false |} (e - k) k =
          ({| shr_m := Zpos m; shr_r := false; shr_s := false |}, e)) as ->.
  { unfold shr. destruct k as [|pk|pk]; [| |lia].
    - f_equal; [|lia]. f_equal. simpl in HM. lia.
    - rewrite iter_pos_nat. f_equal; [|lia].
      rewrite HMiter. simpl Z.to_nat. apply shr_1_iter_exact. }
  cbn [shr_m loc_of_shr_record round_nearest_even Zdigits2 shr_record_of_loc].
  rewrite Hcan, Z.sub_diag. cbn [shr shr_m].
  apply Z.leb_le in Hbound. by rewrite Hbound.
Qed.

(** [1 * x] is [x]. *)
Lemma mul_one_l (x : float64) : valid x -> mul one x = x.
Proof.
  destruct x as [s|s| |s m e]; try reflexivity.
  unfold valid, valid_binary, bounded. intros [Hcan Hb%Z.leb_le]%andb_true_iff.
  unfold mul, one, SFmul. cbn [xorb].
  replace (-52 + e) with (e - 52) by lia.
  apply binary_round_aux_exact; try done.
  rewrite Pos2Z.inj_mul. lia.
Qed.

(** [x - y] for [x == y] is a zero or, for infinities, not a number. *)
Lemma sub_eq (x y : float64) :
  eq x y = true -> is_nan (sub x y) = true \/ exists s, sub x y = S754_zero s.
Proof.
  intros (_ & _ & Hc & He & Hm)%eq_true_iff.
  destruct x as [sx|sx| |sx mx ex], y as [sy|sy| |sy my ey];
    try destruct sx; try destruct sy; simpl in *; try lia;
    try (left; reflexivity); try (right; eexists; reflexivity).
  - assert (ey = ex) as -> by lia. assert (my = mx) as -> by lia.
    right. exists false. unfold sub, SFsub. by rewrite Z.sub_diag.
  - assert (ey = ex) as -> by lia. assert (my = mx) as -> by lia.
    right. exists false. unfold sub, SFsub. by rewrite Z.sub_diag.
Qed.

Lemma sub_eq_not_gt (x y : float64) :
  eq x y = true -> gt (sub x y) zero = false.
Proof.
  intros [Hnan|[s ->]]%sub_eq; [|by destruct s].
  by destruct (sub x y).
Qed.

(** *** Whole numbers below [2^53] *)

Lemma shl_align_spec (m : positive) (e e' : Z) :
  exists m' e'', shl_align m e e' = (m', e'') /\
    e'' = Z.min e e' /\ Zpos m' = Zpos m * 2 ^ (e - e'').
Proof.
  unfold shl_align. destruct (e' - e) as [|d|d] eqn:Hd.
  - exists m, e. split; [done|]. split; [lia|]. rewrite Z.sub_diag. simpl. lia.
  - exists m, e. split; [done|]. split; [lia|]. rewrite Z.sub_diag. simpl. lia.
  - exists (Pos.iter xO m d), e'. split; [done|]. split; [lia|].
    rewrite Zpos_Pos_iter_xO. f_equal. f_equal. lia.
Qed.

Lemma int_bits (k : Z) : 0 < k < 2 ^ 53 -> 0 <= Z.log2 k < 53.
Proof.
  intros [Hpos Hlt]. split; [apply Z.log2_nonneg|].
  by apply Z.log2_lt_pow2.
Qed.

Lemma int_repr_mantissa (k : Z) :
  0 < k < 2 ^ 53 ->
  Zpos (Z.to_pos (k * 2 ^ (prec - (Z.log2 k + 1)))) = k * 2 ^ (prec - (Z.log2 k + 1)).
Proof.
  intros Hk. pose proof (int_bits k Hk). unfold prec.
  apply Z2Pos.id. apply Z.mul_pos_pos; [lia|]. apply Z.pow_pos_nonneg; lia.
Qed.

Lemma int_repr_digits (k : Z) :
  0 < k < 2 ^ 53 ->
  Zpos (digits2_pos (Z.to_pos (k * 2 ^ (prec - (Z.log2 k + 1))))) = 53.
Proof.
  intros Hk. pose proof (int_bits k Hk).
  rewrite digits2_pos_log2, int_repr_mantissa by done. unfold prec.
  rewrite Z.log2_mul_pow2 by lia. lia.
Qed.

Lemma int_repr_valid (k : Z) : 0 < k < 2 ^ 53 -> valid (int_repr k).
Proof.
  intros Hk. pose proof (int_bits k Hk).
  unfold valid, int_repr, valid_binary, bounded, canonical_mantissa.
  rewrite int_repr_digits by done.
  apply andb_true_iff. split; [apply Z.eqb_eq | apply Z.leb_le];
    unfold fexp, SpecFloat.emin, prec, emax; lia.
Qed.

(** A mantissa that stands for the whole number [k] rounds to [k]. *)
Lemma round_int (s : bool) (k : Z) (M : positive) (t : Z) :
  0 < k < 2 ^ 53 ->
  prec - (Z.log2 k + 1) <= t ->
  Zpos M = k * 2 ^ t ->
  binary_round_aux prec emax s (Zpos M) (- t) loc_Exact =
  (if s then SFopp (int_repr k) else int_repr k).
Proof.
  intros Hk Ht HM. pose proof (int_bits k Hk) as Hb.
  pose proof (int_repr_valid k Hk) as Hv.
  unfold valid, int_repr, valid_binary, bounded in Hv.
  apply andb_true_iff in Hv as [Hcan Hbd%Z.leb_le].
  transitivity (S754_finite s (Z.to_pos (k * 2 ^ (prec - (Z.log2 k + 1))))
                            (Z.log2 k + 1 - prec)); [|by destruct s].
  replace (- t) with ((Z.log2 k + 1 - prec) - (t - (prec - (Z.log2 k + 1)))) by lia.
  apply binary_round_aux_exact; try done; [lia|].
  rewrite int_repr_mantissa, HM, <- Z.mul_assoc by done.
  rewrite <- Z.pow_add_r by (unfold prec in *; lia).
  f_equal. f_equal. lia.
Qed.

Lemma binary_round_int (k : Z) (P : positive) (e : Z) :
  0 < k < 2 ^ 53 -> e <= 0 -> Zpos P = k * 2 ^ (- e) ->
  binary_round prec emax false P e = int_repr k.
Proof.
  intros Hk He HP. pose proof (int_bits k Hk) as Hb.
  unfold binary_round.
  destruct (shl_align_spec P e (fexp prec emax (Zpos (digits2_pos P) + e)))
    as (m' & e' & -> & He' & Hm').
  assert (e' <= Z.log2 k + 1 - prec) as Hle.
  { rewrite He', digits2_pos_log2, HP, Z.log2_mul_pow2 by lia.
    unfold fexp, SpecFloat.emin, prec, emax. lia. }
  replace e' with (- (- e')) by lia.
  apply (round_int false); [done | lia |].
  rewrite Hm', HP, <- Z.mul_assoc, <- Z.pow_add_r by lia.
  f_equal. f_equal. lia.
Qed.

(** Go's [float64(k)]. *)
Lemma of_int_int_repr (k : Z) : 0 < k < 2 ^ 53 -> of_int k = int_repr k.
Proof.
  intros Hk. unfold of_int, binary_normalize.
  destruct k as [|p|p]; [lia| |lia].
  apply binary_round_int; [done | lia |]. simpl. lia.
Qed.

Lemma add_int_repr (a b : Z) :
  0 < a -> 0 < b -> a + b < 2 ^ 53 ->
  add (int_repr a) (int_repr b) = int_repr (a + b).
Proof.
  intros Ha Hb Hab.
  assert (0 < a < 2 ^ 53) as Ha' by lia. assert (0 < b < 2 ^ 53) as Hb' by lia.
  pose proof (int_bits a Ha'). pose proof (int_bits b Hb').
  pose proof (int_repr_mantissa a Ha') as Hma.
  pose proof (int_repr_mantissa b Hb') as Hmb.
  set (ea := Z.log2 a + 1 - prec) in *. set (eb := Z.log2 b + 1 - prec) in *.
  set (ma := Z.to_pos (a * 2 ^ (prec - (Z.log2 a + 1)))) in *.
  set (mb := Z.to_pos (b * 2 ^ (prec - (Z.log2 b + 1)))) in *.
  change (int_repr a) with (S754_finite false ma ea).
  change (int_repr b) with (S754_finite false mb eb).
  unfold add, SFadd.
  destruct (shl_align_spec ma ea (Z.min ea eb)) as (ma' & ea' & -> & Hea' & Hma').
  destruct (shl_align_spec mb eb (Z.min ea eb)) as (mb' & eb' & -> & Heb' & Hmb').
  cbn [fst cond_Zopp Z.add binary_normalize].
  rewrite Z.min_r in Hea' by apply Z.le_min_l.
  rewrite Z.min_r in Heb' by apply Z.le_min_r.
  pose proof (Z.le_min_l ea eb) as Hl. pose proof (Z.le_min_r ea eb) as Hr.
  rewrite <- Hea' in *. rewrite Heb' in *. clear Hea' Heb' eb'.
  assert (ea' <= 0) by (unfold ea, prec in *; lia).
  apply binary_round_int; [lia | done |].
  rewrite Pos2Z.inj_add, Hma', Hmb', Hma, Hmb, <- !Z.mul_assoc.
  rewrite <- !Z.pow_add_r by (unfold ea, eb, prec in *; lia).
  rewrite Z.mul_add_distr_r. f_equal; f_equal; f_equal; unfold ea, eb, prec in *; lia.
Qed.

Lemma div_eucl_exact (q b : Z) : 0 < b -> Z.div_eucl (q * b) b = (q, 0).
Proof.
  intros Hb.
  pose proof (Z.div_mul q b ltac:(lia)) as Hq.
  pose proof (Z.mod_mul q b ltac:(lia)) as Hr.
  unfold Z.div, Z.modulo in Hq, Hr.
  destruct (Z.div_eucl (q * b) b) as [q' r']. congruence.
Qed.

Lemma div_int_repr (n c : Z) :
  0 < n -> 0 < c -> n * c < 2 ^ 53 ->
  div (int_repr (n * c)) (int_repr n) = int_repr c.
Proof.
  intros Hn Hc Hnc.
  assert (0 < n * c < 2 ^ 53) as Hnc' by nia.
  assert (0 < n < 2 ^ 53) as Hn' by nia.
  assert (0 < c < 2 ^ 53) as Hc' by nia.
  pose proof (int_bits _ Hnc'). pose proof (int_bits _ Hn'). pose proof (int_bits _ Hc').
  assert (Z.log2 n <= Z.log2 (n * c)) as Hmono by (apply Z.log2_le_mono; nia).
  assert (Z.log2 (n * c) <= Z.log2 n + Z.log2 c + 1) as Habove
    by (apply Z.log2_mul_above; lia).
  pose proof (int_repr_mantissa _ Hnc') as Hm1.
  pose proof (int_repr_mantissa _ Hn') as Hm2.
  pose proof (int_repr_digits _ Hnc') as Hd1.
  pose proof (int_repr_digits _ Hn') as Hd2.
  change (int_repr (n * c)) with
    (S754_finite false (Z.to_pos (n * c * 2 ^ (prec - (Z.log2 (n * c) + 1))))
                 (Z.log2 (n * c) + 1 - prec)).
  change (int_repr n) with
    (S754_finite false (Z.to_pos (n * 2 ^ (prec - (Z.log2 n + 1)))) (Z.log2 n + 1 - prec)).
  unfold div, SFdiv, SFdiv_core_binary.
  cbn [Zdigits2 xorb]. rewrite Hd1, Hd2.
  set (t := 53 + Z.log2 n - Z.log2 (n * c)).
  assert (Z.min (fexp prec emax (53 + (Z.log2 (n * c) + 1 - prec) - (53 + (Z.log2 n + 1 - prec))))
                (Z.log2 (n * c) + 1 - prec - (Z.log2 n + 1 - prec)) = - t) as ->.
  { unfold fexp, SpecFloat.emin, prec, emax, t. lia. }
  replace (Z.log2 (n * c) + 1 - prec - (Z.log2 n + 1 - prec) - - t) with 53
    by (unfold prec, t; lia).
  cbv iota. rewrite Z.shiftl_mul_pow2, Hm1, Hm2 by lia.
  replace (n * c * 2 ^ (prec - (Z.log2 (n * c) + 1)) * 2 ^ 53)
    with ((c * 2 ^ t) * (n * 2 ^ (prec - (Z.log2 n + 1)))).
  2:{ unfold t, prec.
      transitivity (n * c * (2 ^ (53 + Z.log2 n - Z.log2 (n * c)) * 2 ^ (53 - (Z.log2 n + 1))));
        [ring|].
      rewrite <- !Z.mul_assoc. f_equal. f_equal.
      rewrite <- !Z.pow_add_r by lia. f_equal. lia. }
  rewrite div_eucl_exact
    by (apply Z.mul_pos_pos; [lia | apply Z.pow_pos_nonneg; unfold prec; lia]).
  assert (new_location (n * 2 ^ (prec - (Z.log2 n + 1))) 0 = loc_Exact) as ->.
  { unfold new_location, new_location_even, new_location_odd.
    by destruct (Z.even _). }
  assert (0 < c * 2 ^ t) as Hq
    by (apply Z.mul_pos_pos; [lia | apply Z.pow_pos_nonneg; unfold t; lia]).
  destruct (c * 2 ^ t) as [|Q|Q] eqn:HQ; [lia| |lia].
  apply (round_int false); [done | unfold prec, t; lia | done].
Qed.

End F64Exact.

(** ** The Laplace criterion *)

Section LaplaceFacts.
Import F64 Savage.
Local Open Scope string_scope.

Example of_int_3 : of_int 3 = S754_finite false 6755399441055744 (-51).
Proof. reflexivity. Qed.

Example div_12_4 : div (of_int 12) (of_int 4) = of_int 3.
Proof. vm_compute. reflexivity. Qed.

Lemma laplace_loop_lookup u als m a :
  laplace_loop u als m !! a =
  if decide (a ∈ als)
  then Some (div (sum_loop (row u a) zero) (of_int (statesCount u)))
  else m !! a.
Proof.
  revert m. induction als as [|b als IH]; intros m; cbn [laplace_loop].
  - case_decide as Hin; [by apply elem_of_nil in Hin | done].
  - rewrite IH. destruct (decide (a ∈ als)) as [Hin|Hnin].
    + by rewrite decide_True by (by apply list_elem_of_further).
    + destruct (decide (a = b)) as [->|Hne].
      * rewrite decide_True by apply list_elem_of_here. apply lookup_insert_eq.
      * rewrite decide_False by (intros [?|?]%elem_of_cons; done).
        by apply lookup_insert_ne.
Qed.

Lemma sum_loop_int (c : Z) (n : nat) (k : Z) :
  0 < c -> 0 < k -> (k + Z.of_nat n) * c < 2 ^ 53 ->
  sum_loop (replicate n (int_repr c)) (int_repr (k * c)) =
  int_repr ((k + Z.of_nat n) * c).
Proof.
  intros Hc. revert k. induction n as [|n IH]; intros k Hk Hlt; cbn [replicate sum_loop].
  - f_equal. lia.
  - rewrite add_int_repr by nia.
    replace (k * c + c) with ((k + 1) * c) by ring.
    rewrite IH by lia. f_equal. lia.
Qed.

Lemma sum_loop_constant (c : Z) (n : nat) :
  0 < c -> (0 < n)%nat -> Z.of_nat n * c < 2 ^ 53 ->
  sum_loop (replicate n (int_repr c)) zero = int_repr (Z.of_nat n * c).
Proof.
  intros Hc Hn Hlt. destruct n as [|n]; [lia|]. cbn [replicate sum_loop].
  change (add zero (int_repr c)) with (int_repr c).
  replace (int_repr c) with (int_repr (1 * c)) at 2 by (f_equal; lia).
  rewrite sum_loop_int by lia. f_equal. lia.
Qed.

End LaplaceFacts.

Section LaplaceClaims.
Import F64 Savage Scenarios.
Local Open Scope string_scope.

(** C9, as stated, fails: with the utility 1.4 in each of three states the
    sum rounds to 4.199999999999999 and the Laplace score is
    1.3999999999999997, which is not 1.4. *)
Lemma C9_laplace_of_constant_rounds :
  valid c1_4 /\
  row constant_1_4 "A" = replicate (Z.to_nat (statesCount constant_1_4)) c1_4 /\
  CalculateLaplace constant_1_4 !! "A" =
    Some (S754_finite false 6305039478318693 (-52)) /\
  eq (S754_finite false 6305039478318693 (-52)) c1_4 = false.
Proof. vm_compute. repeat split. Qed.

(** C9, amended.  With at least one state, an alternative whose utility is
    the same whole number [c >= 1] in every state, the number of states
    times [c] staying below [2^53], has Laplace score exactly [c]. *)
Theorem C9_laplace_of_constant_int (u : UncertainDecisionSystem) (a : string) (c : Z) :
  a ∈ alternatives u ->
  1 <= statesCount u ->
  1 <= c ->
  statesCount u * c < 2 ^ 53 ->
  row u a = replicate (Z.to_nat (statesCount u)) (of_int c) ->
  CalculateLaplace u !! a = Some (of_int c).
Proof.
  intros Ha Hn Hc Hlt Hrow. unfold CalculateLaplace.
  rewrite laplace_loop_lookup, decide_True by done. f_equal.
  assert (0 < c < 2 ^ 53) as Hc' by nia.
  assert (0 < statesCount u < 2 ^ 53) as Hn' by nia.
  rewrite Hrow, !of_int_int_repr by done.
  rewrite sum_loop_constant by lia.
  rewrite Z2Nat.id by lia. apply div_int_repr; lia.
Qed.

Lemma C9_laplace_of_constant_int_witness :
  CalculateLaplace savage_rows !! "B" = Some (of_int 6).
Proof.
  apply (C9_laplace_of_constant_int savage_rows "B" 6).
  - vm_compute. apply list_elem_of_further, list_elem_of_here.
  - vm_compute. discriminate.
  - lia.
  - vm_compute. reflexivity.
  - vm_compute. reflexivity.
Defined.

End LaplaceClaims.

(** ** The Savage criterion *)

Section SavageFacts.
Import F64 Savage.

Lemma column_max_total u j als mv :
  (forall a, a ∈ als -> is_Some (row u a !! j)) ->
  is_Some (column_max u j als mv).
Proof.
  revert mv. induction als as [|a als IH]; intros mv Hrows; cbn [column_max].
  - by eexists.
  - destruct (Hrows a (list_elem_of_here _ _)) as [x ->]. simpl.
    apply IH. intros b Hb. apply Hrows. by apply list_elem_of_further.
Qed.

(** With no NaN around, the running maximum ends at or above where it
    started, at or above every value of the column, and on one of them. *)
Lemma column_max_spec u j als mv m :
  is_nan mv = false ->
  (forall a x, a ∈ als -> row u a !! j = Some x -> is_nan x = false) ->
  column_max u j als mv = Some m ->
  le mv m = true /\
  (forall a x, a ∈ als -> row u a !! j = Some x -> le x m = true) /\
  (m = mv \/ exists a, a ∈ als /\ row u a !! j = Some m).
Proof.
  revert mv. induction als as [|a als IH]; intros mv Hmv Hnan; cbn [column_max].
  - intros [= <-]. split; [by apply le_refl|]. split; [|by left].
    intros a x Ha. by apply elem_of_nil in Ha.
  - destruct (row u a !! j) as [x|] eqn:Hx; [simpl | done].
    assert (is_nan x = false) as Hxn by (eapply Hnan; [apply list_elem_of_here | done]).
    assert (forall b y, b ∈ als -> row u b !! j = Some y -> is_nan y = false) as Hnan'.
    { intros b y Hb. apply Hnan. by apply list_elem_of_further. }
    intros Hm. rewrite gt_lt in Hm. destruct (lt mv x) eqn:Hlt.
    + destruct (IH x Hxn Hnan' Hm) as (Hle & Hall & Hex).
      split; [eapply le_trans; [by apply lt_le | done]|]. split.
      * intros b y [->|Hb]%elem_of_cons Hy; [|by eapply Hall].
        rewrite Hx in Hy. by injection Hy as <-.
      * right. destruct Hex as [->|(b & Hb & Hbm)].
        -- exists a. split; [apply list_elem_of_here | done].
        -- exists b. split; [by apply list_elem_of_further | done].
    + destruct (IH mv Hmv Hnan' Hm) as (Hle & Hall & Hex).
      split; [done|]. split.
      * intros b y [->|Hb]%elem_of_cons Hy; [|by eapply Hall].
        rewrite Hx in Hy. injection Hy as <-.
        eapply le_trans; [|done]. by apply lt_false_iff.
      * destruct Hex as [->|(b & Hb & Hbm)]; [by left|].
        right. exists b. split; [by apply list_elem_of_further | done].
Qed.

Lemma max_loop_spec u js M0 :
  (forall j a, j ∈ js -> a ∈ alternatives u -> is_Some (row u a !! j)) ->
  exists M, max_loop u js M0 = Some M /\ length M = length M0 /\
    forall j, (j < length M0)%nat ->
      M !! j = if decide (j ∈ js)
               then column_max u j (alternatives u) zero else M0 !! j.
Proof.
  revert M0. induction js as [|i js IH]; intros M0 Hrows; cbn [max_loop].
  - exists M0. split; [done|]. split; [done|]. intros j Hj.
    case_decide as Hin; [by apply elem_of_nil in Hin | done].
  - destruct (column_max_total u i (alternatives u) zero) as [mv Hmv].
    { intros a Ha. apply Hrows; [apply list_elem_of_here | done]. }
    rewrite Hmv. simpl.
    destruct (IH (<[i := mv]> M0)) as (M & HM & Hlen & Hget).
    { intros j a Hj. apply Hrows. by apply list_elem_of_further. }
    exists M. split; [done|]. rewrite length_insert in Hlen, Hget.
    split; [done|]. intros j Hj. rewrite (Hget j Hj).
    destruct (decide (j ∈ js)) as [Hin|Hnin].
    + by rewrite decide_True by (by apply list_elem_of_further).
    + destruct (decide (j = i)) as [->|Hne].
      * rewrite decide_True by apply list_elem_of_here.
        by rewrite list_lookup_insert_eq.
      * rewrite decide_False by (intros [?|?]%elem_of_cons; done).
        by rewrite list_lookup_insert_ne.
Qed.

Lemma maxOutcomes_spec u :
  complete u ->
  exists M, maxOutcomes u = Some M /\
    length M = Z.to_nat (statesCount u) /\
    forall j, (j < Z.to_nat (statesCount u))%nat ->
      exists m, M !! j = Some m /\ column_max u j (alternatives u) zero = Some m.
Proof.
  intros [Hn Hlen]. unfold maxOutcomes.
  destruct (Z.ltb_spec (statesCount u) 0) as [?|_]; [lia|].
  set (n := Z.to_nat (statesCount u)) in *.
  destruct (max_loop_spec u (seq 0 n) (replicate n zero)) as (M & HM & HlenM & Hget).
  { intros j a Hj%elem_of_seq Ha. apply lookup_lt_is_Some. rewrite (Hlen a Ha). lia. }
  rewrite length_replicate in HlenM, Hget.
  exists M. split; [done|]. split; [done|]. intros j Hj.
  specialize (Hget j Hj). rewrite decide_True in Hget by (apply elem_of_seq; lia).
  destruct (M !! j) as [m|] eqn:Hm.
  - by exists m.
  - apply lookup_ge_None in Hm. lia.
Qed.

(** The regret loop returns when the maxima reach as far as the row, and
    its result is never below zero. *)
Lemma regret_loop_spec M j data r0 :
  (j + length data <= length M)%nat ->
  le zero r0 = true ->
  exists r, regret_loop M j data r0 = Some r /\ le zero r = true.
Proof.
  revert j r0. induction data as [|x data IH]; intros j r0 Hlen Hr0; cbn [regret_loop].
  - by exists r0.
  - simpl in Hlen. destruct (lookup_lt_is_Some_2 M j ltac:(lia)) as [m ->]. simpl.
    apply IH; [lia|]. rewrite gt_lt.
    destruct (lt r0 (sub m x)) eqn:Hlt; [|done].
    apply lt_le. by eapply le_lt_trans.
Qed.

(** The score is the largest regret of the row, or [0.0] when none
    exceeds it. *)
Lemma regret_loop_max M j data r0 r :
  is_nan r0 = false ->
  regret_loop M j data r0 = Some r ->
  le r0 r = true /\
  (forall i x m, data !! i = Some x -> M !! (j + i)%nat = Some m ->
     is_nan (sub m x) = false -> le (sub m x) r = true) /\
  (r = r0 \/ exists i x m,
     data !! i = Some x /\ M !! (j + i)%nat = Some m /\ r = sub m x).
Proof.
  revert j r0. induction data as [|x data IH]; intros j r0 Hr0; cbn [regret_loop].
  - intros [= <-]. split; [by apply le_refl|]. split; [done | by left].
  - destruct (M !! j) as [m|] eqn:Hm; [simpl | done]. rewrite gt_lt. intros Hr.
    destruct (lt r0 (sub m x)) eqn:Hlt.
    + assert (is_nan (sub m x) = false) as Hn by (apply lt_true_iff in Hlt; tauto).
      destruct (IH _ _ Hn Hr) as (Hle & Hall & Hex).
      split; [eapply le_trans; [by apply lt_le | done]|]. split.
      * intros [|i] y m' Hy Hm' Hnan.
        -- simpl in Hy. injection Hy as <-. rewrite Nat.add_0_r, Hm in Hm'.
           by injection Hm' as <-.
        -- apply (Hall i); [done| |done].
           by replace (S j + i)%nat with (j + S i)%nat by lia.
      * right. destruct Hex as [->|(i & y & m' & Hy & Hm' & ->)].
        -- exists 0%nat, x, m. by rewrite Nat.add_0_r.
        -- exists (S i), y, m'. split; [done|]. split; [|done].
           by replace (j + S i)%nat with (S j + i)%nat by lia.
    + destruct (IH _ _ Hr0 Hr) as (Hle & Hall & Hex).
      split; [done|]. split.
      * intros [|i] y m' Hy Hm' Hnan.
        -- simpl in Hy. injection Hy as <-. rewrite Nat.add_0_r, Hm in Hm'.
           injection Hm' as <-. eapply le_trans; [|done]. by apply lt_false_iff.
        -- apply (Hall i); [done| |done].
           by replace (S j + i)%nat with (j + S i)%nat by lia.
      * destruct Hex as [->|(i & y & m' & Hy & Hm' & ->)]; [by left|].
        right. exists (S i), y, m'. split; [done|]. split; [|done].
        by replace (j + S i)%nat with (S j + i)%nat by lia.
Qed.

Lemma eq_sym x y : eq x y = true -> eq y x = true.
Proof. rewrite !eq_true_iff. unfold key_eq. intuition lia. Qed.

(** On a row that equals the maxima state by state every regret is a zero
    (or, between infinities, not a number) and the score stays [0.0]. *)
Lemma regret_loop_attained M j data :
  (forall i x, data !! i = Some x ->
     exists m, M !! (j + i)%nat = Some m /\ eq x m = true) ->
  regret_loop M j data zero = Some zero.
Proof.
  revert j. induction data as [|x data IH]; intros j Hatt; cbn [regret_loop]; [done|].
  destruct (Hatt 0%nat x eq_refl) as (m & Hm & Heq).
  rewrite Nat.add_0_r in Hm. rewrite Hm. simpl.
  rewrite (sub_eq_not_gt m x) by (by apply eq_sym).
  apply IH. intros i y Hy. destruct (Hatt (S i) y Hy) as (m' & Hm' & Heq').
  exists m'. split; [|done]. by replace (S j + i)%nat with (j + S i)%nat by lia.
Qed.

Lemma savage_loop_spec u M als s :
  (forall a, a ∈ als -> is_Some (regret_loop M 0 (row u a) zero)) ->
  exists s', savage_loop u M als s = Some s' /\
    forall a, s' !! a = if decide (a ∈ als)
                        then regret_loop M 0 (row u a) zero else s !! a.
Proof.
  revert s. induction als as [|b als IH]; intros s Hall; cbn [savage_loop].
  - exists s. split; [done|]. intros a.
    case_decide as Hin; [by apply elem_of_nil in Hin | done].
  - destruct (Hall b (list_elem_of_here _ _)) as [r Hr]. rewrite Hr. simpl.
    destruct (IH (<[b := r]> s)) as (s' & Hs' & Hget).
    { intros a Ha. apply Hall. by apply list_elem_of_further. }
    exists s'. split; [done|]. intros a. rewrite Hget.
    destruct (decide (a ∈ als)) as [Hin|Hnin].
    + by rewrite decide_True by (by apply list_elem_of_further).
    + destruct (decide (a = b)) as [->|Hne].
      * rewrite decide_True by apply list_elem_of_here.
        by rewrite lookup_insert_eq.
      * rewrite decide_False by (intros [?|?]%elem_of_cons; done).
        by rewrite lookup_insert_ne.
Qed.

End SavageFacts.

Section SavageClaims.
Import F64 Savage Scenarios.
Local Open Scope string_scope.

Lemma lt_not_ge x y : lt x y = true -> le y x = true -> False.
Proof.
  rewrite lt_true_iff, le_true_iff. unfold key_lt, key_eq.
  intros (_ & _ & H) (_ & _ & H'). lia.
Qed.

(** C3.  On a complete utility matrix [CalculateSavage] returns, every
    score is at least 0 and is the largest regret [M_j - U(a,j)] of the row
    (or [0.0]), and an alternative whose utility equals the per-state
    maximum [M_j] in every state has the score [0.0] exactly.  [M_j] is the
    running maximum started at 0; when all utilities are positive it is the
    largest utility of state [j] and is attained. *)
Theorem C3_savage_regret (u : UncertainDecisionSystem) :
  complete u ->
  exists M savage,
    maxOutcomes u = Some M /\ CalculateSavage u = Some savage /\
    (forall a, a ∈ alternatives u ->
       exists s, savage !! a = Some s /\ ge s zero = true /\
         (forall j x m, row u a !! j = Some x -> M !! j = Some m ->
            is_nan (sub m x) = false -> le (sub m x) s = true) /\
         (s = zero \/ exists j x m,
            row u a !! j = Some x /\ M !! j = Some m /\ s = sub m x)) /\
    (forall a, a ∈ alternatives u ->
       Forall2 (fun x m => eq x m = true) (row u a) M ->
       savage !! a = Some zero) /\
    (positive u -> forall j m, M !! j = Some m ->
       (forall a x, a ∈ alternatives u -> row u a !! j = Some x -> le x m = true) /\
       (alternatives u <> [] -> exists a, a ∈ alternatives u /\ row u a !! j = Some m)).
Proof.
  intros Hc. destruct (maxOutcomes_spec u Hc) as (M & HM & HlenM & Hcol).
  destruct Hc as [Hn Hlen].
  destruct (savage_loop_spec u M (alternatives u) ∅) as (savage & Hs & Hget).
  { intros a Ha.
    destruct (regret_loop_spec M 0 (row u a) zero) as (r & Hr & _); [|done|by eexists].
    rewrite (Hlen a Ha). lia. }
  exists M, savage. split; [done|]. split; [unfold CalculateSavage; by rewrite HM|].
  split; [|split].
  - intros a Ha. rewrite Hget, decide_True by done.
    destruct (regret_loop_spec M 0 (row u a) zero) as (r & Hr & Hle); [|done|].
    { rewrite (Hlen a Ha). lia. }
    exists r. rewrite ge_le. split; [done|]. split; [done|].
    destruct (regret_loop_max M 0 (row u a) zero r eq_refl Hr) as (_ & Hmax & Hex).
    done.
  - intros a Ha Hatt. rewrite Hget, decide_True by done.
    apply regret_loop_attained. intros i x Hx.
    destruct (Forall2_lookup_l _ _ _ _ _ Hatt Hx) as (m & Hm & Heq).
    by exists m.
  - intros Hpos j m Hm.
    assert (j < Z.to_nat (statesCount u))%nat as Hj
      by (rewrite <- HlenM; by eapply lookup_lt_Some).
    destruct (Hcol j Hj) as (m' & Hm' & Hmax). rewrite Hm in Hm'. injection Hm' as <-.
    assert (forall a x, a ∈ alternatives u -> row u a !! j = Some x -> lt zero x = true)
      as Hgt.
    { intros a x Ha Hx. rewrite <- gt_lt. eapply Hpos; [done|].
      by eapply list_elem_of_lookup_2. }
    destruct (column_max_spec u j (alternatives u) zero m) as (_ & Hall & Hex);
      [done| |done|].
    { intros a x Ha Hx. specialize (Hgt a x Ha Hx).
      apply lt_true_iff in Hgt. tauto. }
    split; [done|]. intros Hne. destruct Hex as [->|Hex]; [|done].
    assert (exists a0, a0 ∈ alternatives u) as [a0 Ha0].
    { destruct (alternatives u) as [|a0 als]; [done|].
      exists a0. apply list_elem_of_here. }
    destruct (lookup_lt_is_Some_2 (row u a0) j) as [x0 Hx0].
    { rewrite (Hlen a0 Ha0). lia. }
    exfalso. eapply lt_not_ge; [by eapply (Hgt a0 x0) | by eapply (Hall a0 x0)].
Qed.

(** No Savage score is NaN: the ascending ranking of the scores of a
    complete matrix is always handed numbers. *)
Lemma savage_scores_not_nan (u : UncertainDecisionSystem) savage :
  complete u -> CalculateSavage u = Some savage ->
  forall a s, savage !! a = Some s -> is_nan s = false.
Proof.
  intros Hc Hsav a s Hs. destruct (maxOutcomes_spec u Hc) as (M & HM & HlenM & _).
  destruct Hc as [Hn Hlen]. unfold CalculateSavage in Hsav. rewrite HM in Hsav.
  simpl in Hsav.
  destruct (savage_loop_spec u M (alternatives u) ∅) as (savage' & Hs' & Hget).
  { intros b Hb.
    destruct (regret_loop_spec M 0 (row u b) zero) as (r & Hr & _); [|done|by eexists].
    rewrite (Hlen b Hb). lia. }
  rewrite Hs' in Hsav. injection Hsav as <-. rewrite Hget in Hs.
  destruct (decide (a ∈ alternatives u)) as [Ha|_]; [|by rewrite lookup_empty in Hs].
  destruct (regret_loop_spec M 0 (row u a) zero) as (r & Hr & Hle); [|done|].
  { rewrite (Hlen a Ha). lia. }
  rewrite Hr in Hs. injection Hs as <-. by eapply le_not_nan_r.
Qed.

Lemma savage_rows_complete : complete savage_rows.
Proof.
  split; [vm_compute; discriminate|].
  intros a [->|[->|Ha%elem_of_nil]%elem_of_cons]%elem_of_cons; done.
Qed.

(** The scenario of the specification: A = [10, 2], B = [6, 6]; the maxima
    are [10, 6] and both regrets are 4. *)
Example savage_scenario :
  maxOutcomes savage_rows = Some [of_int 10; of_int 6] /\
  (fun s => (s !! "A", s !! "B")) <$> CalculateSavage savage_rows =
    Some (Some (of_int 4), Some (of_int 4)).
Proof. vm_compute. split; reflexivity. Qed.

(** A = [10, 6] attains both maxima and has no regret; B regrets 4. *)
Example savage_dominant :
  maxOutcomes dominant_rows = Some (row dominant_rows "A") /\
  (fun s => (s !! "A", s !! "B")) <$> CalculateSavage dominant_rows =
    Some (Some zero, Some (of_int 4)).
Proof. vm_compute. split; reflexivity. Qed.

Lemma C3_savage_regret_witness :
  exists M savage,
    maxOutcomes savage_rows = Some M /\ CalculateSavage savage_rows = Some savage /\
    (forall a, a ∈ alternatives savage_rows ->
       exists s, savage !! a = Some s /\ ge s zero = true /\
         (forall j x m, row savage_rows a !! j = Some x -> M !! j = Some m ->
            is_nan (sub m x) = false -> le (sub m x) s = true) /\
         (s = zero \/ exists j x m,
            row savage_rows a !! j = Some x /\ M !! j = Some m /\ s = sub m x)) /\
    (forall a, a ∈ alternatives savage_rows ->
       Forall2 (fun x m => eq x m = true) (row savage_rows a) M ->
       savage !! a = Some zero) /\
    (positive savage_rows -> forall j m, M !! j = Some m ->
       (forall a x, a ∈ alternatives savage_rows ->
          row savage_rows a !! j = Some x -> le x m = true) /\
       (alternatives savage_rows <> [] ->
          exists a, a ∈ alternatives savage_rows /\ row savage_rows a !! j = Some m)).
Proof. exact (C3_savage_regret savage_rows savage_rows_complete). Defined.

End SavageClaims.

(** ** Wald, MaxiMax and Hurwicz *)

Section CriteriaFacts.
Import F64 Hurwicz.

Lemma minmax_loop_spec data mn0 mx0 mn mx :
  minmax_loop data mn0 mx0 = (mn, mx) ->
  le mn0 mx0 = true ->
  le mn mx = true /\ le mn mn0 = true /\ le mx0 mx = true /\
  ((forall x, x ∈ data -> is_nan x = false) ->
   forall x, x ∈ data -> le mn x = true /\ le x mx = true).
Proof.
  revert mn0 mx0. induction data as [|v data IH]; intros mn0 mx0; cbn [minmax_loop].
  - intros [= <- <-] Hle. split; [done|].
    split; [apply le_refl; by eapply le_not_nan_l|].
    split; [apply le_refl; by eapply le_not_nan_r|].
    intros _ x Hx. by apply elem_of_nil in Hx.
  - intros Hres Hle. rewrite gt_lt in Hres.
    pose proof (le_not_nan_l _ _ Hle) as Hn0. pose proof (le_not_nan_r _ _ Hle) as Hx0.
    assert (le (if lt v mn0 then v else mn0) (if lt mx0 v then v else mx0) = true) as Hle'.
    { destruct (lt v mn0) eqn:H1, (lt mx0 v) eqn:H2; try done.
      - apply le_refl. apply lt_true_iff in H1. tauto.
      - apply lt_le. by eapply lt_le_trans.
      - apply lt_le. by eapply le_lt_trans. }
    destruct (IH _ _ Hres Hle') as (H1 & H2 & H3 & H4).
    split; [done|]. split; [|split].
    + eapply le_trans; [done|]. destruct (lt v mn0) eqn:Hv; [by apply lt_le | by apply le_refl].
    + eapply le_trans; [|done]. destruct (lt mx0 v) eqn:Hv; [by apply lt_le | by apply le_refl].
    + intros Hnan x [->|Hx]%elem_of_cons.
      * assert (is_nan v = false) as Hvn by (apply Hnan, list_elem_of_here).
        split.
        -- eapply le_trans; [done|].
           destruct (lt v mn0) eqn:Hv; [by apply le_refl | by apply lt_false_iff].
        -- eapply le_trans; [|done].
           destruct (lt mx0 v) eqn:Hv; [by apply le_refl | by apply lt_false_iff].
      * apply H4; [|done]. intros y Hy. apply Hnan. by apply list_elem_of_further.
Qed.

(** The two results of the loop are its starting values or values of the
    row. *)
Lemma minmax_loop_elem (P : float64 -> Prop) data mn0 mx0 mn mx :
  minmax_loop data mn0 mx0 = (mn, mx) ->
  P mn0 -> P mx0 -> Forall P data -> P mn /\ P mx.
Proof.
  revert mn0 mx0. induction data as [|v data IH]; intros mn0 mx0; cbn [minmax_loop].
  - by intros [= <- <-].
  - intros Hres Hmn Hmx [Hv Hdata]%Forall_cons.
    eapply IH; [done| | |done].
    + by destruct (lt v mn0).
    + by destruct (gt v mx0).
Qed.

Lemma utility_finite x :
  utility x -> exists m e, x = S754_finite false m e.
Proof.
  intros (_ & Hfin & Hge). destruct x as [s|s| |[] m e]; try done.
  by exists m, e.
Qed.

Lemma utility_not_nan x : utility x -> is_nan x = false.
Proof. intros (m & e & ->)%utility_finite. done. Qed.

Lemma eq_zero x : eq x zero = true -> exists s, x = S754_zero s.
Proof. destruct x as [s|[]| |[] m e]; try done. by exists s. Qed.

Lemma eq_one x : eq x one = true -> x = one.
Proof.
  intros (_ & _ & Hc & He & Hm)%eq_true_iff.
  destruct x as [s|[]| |[] m e]; simpl in *; try lia.
  unfold one. f_equal; lia.
Qed.

Lemma hurwicz_alpha_zero alpha mn mx :
  eq alpha zero = true -> utility mn -> utility mx ->
  add (mul alpha mx) (mul (sub one alpha) mn) = mn.
Proof.
  intros [s ->]%eq_zero Hmn (m' & e' & ->)%utility_finite.
  change (sub one (S754_zero s)) with one.
  rewrite mul_one_l by apply Hmn.
  destruct (utility_finite _ Hmn) as (m & e & ->). by destruct s.
Qed.

Lemma hurwicz_alpha_one alpha mn mx :
  eq alpha one = true -> utility mn -> utility mx ->
  add (mul alpha mx) (mul (sub one alpha) mn) = mx.
Proof.
  intros ->%eq_one (m & e & ->)%utility_finite Hmx.
  rewrite mul_one_l by apply Hmx.
  destruct (utility_finite _ Hmx) as (m' & e' & ->).
  change (sub one one) with (S754_zero false). reflexivity.
Qed.

End CriteriaFacts.

Section CriteriaClaims.
Import F64 Hurwicz Scenarios.
Local Open Scope string_scope.

(** C4.  For an alternative with at least one state, all its utilities
    being finite binary64 values from 1 upwards: the Wald score is a lower
    and the MaxiMax score an upper bound of its utilities, Wald is at most
    MaxiMax, and the Hurwicz score is the Wald score for [alpha == 0] and
    the MaxiMax score for [alpha == 1]. *)
Theorem C4_wald_maximax_hurwicz (u : UncertainDecisionSystem) (alpha : float64)
        (i : nat) (a : string) (data : list float64) :
  alternatives u !! i = Some a ->
  outcomes u !! a = Some data ->
  data <> [] ->
  Forall utility data ->
  exists r, CalculateCriteria u alpha !! i = Some r /\ name r = a /\
    le (wald r) (maxmax r) = true /\
    (forall x, x ∈ data -> le (wald r) x = true /\ le x (maxmax r) = true) /\
    hurwicz r = add (mul alpha (maxmax r)) (mul (sub one alpha) (wald r)) /\
    (eq alpha zero = true -> hurwicz r = wald r) /\
    (eq alpha one = true -> hurwicz r = maxmax r).
Proof.
  intros Hi Ha Hne Hdata. unfold CalculateCriteria.
  rewrite list_lookup_fmap, Hi. simpl. rewrite Ha. simpl.
  destruct data as [|d0 data']; [done|]. cbn [criteria_of].
  destruct (minmax_loop (d0 :: data') d0 d0) as [mn mx] eqn:Hloop.
  eexists. split; [done|]. simpl. split; [done|].
  assert (utility d0) as Hd0 by (by apply Forall_cons in Hdata as [? _]).
  destruct (minmax_loop_spec _ _ _ _ _ Hloop) as (Hle & _ & _ & Hbounds).
  { apply le_refl. by apply utility_not_nan. }
  destruct (minmax_loop_elem utility _ _ _ _ _ Hloop Hd0 Hd0 Hdata) as [Hmn Hmx].
  split; [done|]. split.
  - apply Hbounds. intros x Hx. apply utility_not_nan.
    by eapply (proj1 (Forall_forall _ _) Hdata).
  - split; [done|]. split; intros Halpha.
    + by apply hurwicz_alpha_zero.
    + by apply hurwicz_alpha_one.
Qed.

Example criteria_scenario :
  CalculateCriteria two_rows (S754_finite false 4503599627370496 (-53)) =
  [ {| name := "A"; wald := of_int 2; maxmax := of_int 10; hurwicz := of_int 6 |};
    {| name := "B"; wald := of_int 6; maxmax := of_int 6; hurwicz := of_int 6 |} ].
Proof. vm_compute. reflexivity. Qed.

Lemma utility_of_int_10_2 : Forall utility [of_int 10; of_int 2].
Proof. repeat constructor. Qed.

Lemma C4_wald_maximax_hurwicz_witness :
  exists r, CalculateCriteria two_rows zero !! 0%nat = Some r /\ name r = "A" /\
    le (wald r) (maxmax r) = true /\
    (forall x, x ∈ [of_int 10; of_int 2] ->
       le (wald r) x = true /\ le x (maxmax r) = true) /\
    hurwicz r = add (mul zero (maxmax r)) (mul (sub one zero) (wald r)) /\
    (eq zero zero = true -> hurwicz r = wald r) /\
    (eq zero one = true -> hurwicz r = maxmax r).
Proof.
  apply (C4_wald_maximax_hurwicz two_rows zero 0 "A" [of_int 10; of_int 2]).
  - reflexivity.
  - vm_compute. reflexivity.
  - discriminate.
  - exact utility_of_int_10_2.
Defined.

End CriteriaClaims.

(** ** [isort]: a sorted, stable rearrangement *)

Section InsertionFacts.
Import GoSort.
Context {A : Type} (less : A -> A -> bool).

Lemma rev_reverse (l : list A) : rev l = reverse l.
Proof. apply rev_alt. Qed.

Lemma filter_rev (P : A -> Prop) `{!forall x, Decision (P x)} (l : list A) :
  filter P (rev l) = rev (filter P l).
Proof. rewrite !rev_reverse. apply filter_reverse. Qed.

Lemma ins_perm x r : ins less x r ≡ₚ x :: r.
Proof.
  induction r as [|y r IH]; simpl; [done|].
  destruct (less x y); [|done]. rewrite IH. apply Permutation_swap.
Qed.

Lemma isort_perm l : isort less l ≡ₚ l.
Proof.
  unfold isort. rewrite rev_reverse, reverse_Permutation.
  assert (forall racc, foldl (fun racc x => ins less x racc) racc l ≡ₚ l ++ racc) as Hgen.
  { induction l as [|x l IH]; intros racc; simpl; [done|].
    rewrite IH, ins_perm. by rewrite Permutation_middle. }
  by rewrite Hgen, app_nil_r.
Qed.

Hypothesis less_asym : forall x y, less x y = true -> less y x = false.

Lemma ins_sorted x r :
  Sorted (fun u v => less u v = false) r ->
  Sorted (fun u v => less u v = false) (ins less x r).
Proof.
  induction r as [|y r IH]; intros Hs; simpl; [repeat constructor|].
  destruct (less x y) eqn:Hxy.
  - apply Sorted_inv in Hs as [Hs Hhd]. constructor; [by apply IH|].
    destruct r as [|z r]; simpl.
    + constructor. by apply less_asym.
    + destruct (less x z); constructor; [|by apply less_asym].
      by apply HdRel_inv in Hhd.
  - constructor; [done|]. by constructor.
Qed.

Lemma Sorted_rev_flip (R : A -> A -> Prop) (l : list A) :
  Sorted R l -> Sorted (fun x y => R y x) (rev l).
Proof.
  induction l as [|x l IH]; intros Hs; simpl; [constructor|].
  apply Sorted_inv in Hs as [Hs Hhd]. apply Sorted_snoc; [by apply IH|].
  destruct l as [|y l]; simpl; [constructor|].
  constructor. by apply HdRel_inv in Hhd.
Qed.

(** Neighbours in the result are in order: the later is not [less] than
    the earlier. *)
Lemma isort_sorted l : Sorted (fun x y => less y x = false) (isort less l).
Proof.
  unfold isort. apply (Sorted_rev_flip (fun u v => less u v = false)).
  assert (forall racc, Sorted (fun u v => less u v = false) racc ->
            Sorted (fun u v => less u v = false)
                   (foldl (fun racc x => ins less x racc) racc l)) as Hgen.
  { induction l as [|x l IH]; intros racc Hs; simpl; [done|].
    by apply IH, ins_sorted. }
  apply Hgen. constructor.
Qed.

(** Elements of a class none of which is [less] than another keep their
    order. *)
Lemma ins_stable (P : A -> Prop) `{!forall x, Decision (P x)} x r :
  (forall u v, P u -> P v -> less u v = false) ->
  filter P (ins less x r) = filter P (x :: r).
Proof.
  intros Hclass. induction r as [|y r IH]; simpl; [done|].
  destruct (less x y) eqn:Hxy; [|done].
  rewrite filter_cons, IH, !filter_cons.
  destruct (decide (P y)) as [Hy|Hy], (decide (P x)) as [Hx|Hx]; try done.
  rewrite Hclass in Hxy by done. done.
Qed.

Lemma isort_stable (P : A -> Prop) `{!forall x, Decision (P x)} l :
  (forall u v, P u -> P v -> less u v = false) ->
  filter P (isort less l) = filter P l.
Proof.
  intros Hclass. unfold isort.
  assert (forall racc, filter P (rev (foldl (fun racc x => ins less x racc) racc l)) =
                       filter P (rev racc) ++ filter P l) as Hgen.
  { induction l as [|x l IH]; intros racc; simpl; [by rewrite app_nil_r|].
    rewrite IH, filter_rev, (ins_stable P) by done.
    rewrite <- filter_rev. simpl. rewrite filter_app, <- app_assoc.
    f_equal. by rewrite filter_cons, filter_nil, filter_cons;
               destruct (decide (P x)). }
  by rewrite Hgen.
Qed.

End InsertionFacts.

(** ** Go's insertion sort on slices *)

Section SliceSort.
Import GoSort.
Context {D A : Type} `{Interface D}.

(** A sortable [D] that is a slice of [A] compared element by element. *)
Variable elems : D -> list A.
Variable lessE : D -> A -> A -> bool.
Hypothesis Len_elems : forall d, Len d = length (elems d).
Hypothesis Less_elems : forall d i j x y,
  elems d !! i = Some x -> elems d !! j = Some y -> Less d i j = lessE d x y.
Hypothesis Swap_elems : forall d i j, elems (Swap d i j) = swap_elems (elems d) i j.
Hypothesis Swap_lessE : forall d i j, lessE (Swap d i j) = lessE d.

Lemma swap_elems_adjacent (l1 : list A) (x y : A) (l2 : list A) :
  swap_elems (l1 ++ y :: x :: l2) (S (length l1)) (length l1) = l1 ++ x :: y :: l2.
Proof.
  unfold swap_elems.
  rewrite (lookup_app_r l1) by lia. rewrite (lookup_app_r l1) by lia.
  replace (S (length l1) - length l1)%nat with 1%nat by lia.
  rewrite Nat.sub_diag. simpl.
  rewrite (insert_app_r_alt l1) by lia. rewrite Nat.sub_diag. simpl.
  rewrite (insert_app_r_alt l1) by lia.
  by replace (S (length l1) - length l1)%nat with 1%nat by lia.
Qed.

Lemma swap_elems_perm (l : list A) (i j : nat) : swap_elems l i j ≡ₚ l.
Proof.
  unfold swap_elems.
  destruct (l !! i) as [x|] eqn:Hi; [|done].
  destruct (l !! j) as [y|] eqn:Hj; [|done].
  destruct (decide (i = j)) as [->|Hne].
  - assert (x = y) as -> by congruence.
    rewrite list_insert_insert_eq. by rewrite list_insert_id.
  - apply Permutation_inj. split; [by rewrite !length_insert|].
    exists (fun k => if decide (k = i) then j else if decide (k = j) then i else k). split.
    + intros k1 k2. repeat case_decide; congruence.
    + intros k. repeat case_decide; subst.
      * rewrite list_lookup_insert_eq by (rewrite length_insert; by eapply lookup_lt_Some).
        done.
      * rewrite list_lookup_insert_ne by done.
        rewrite list_lookup_insert_eq by (by eapply lookup_lt_Some). done.
      * by rewrite !list_lookup_insert_ne by done.
Qed.

Lemma length_ins (less : A -> A -> bool) x r : length (ins less x r) = S (length r).
Proof. induction r as [|y r IH]; simpl; [done|]. destruct (less x y); simpl; lia. Qed.

(** The inner loop on the element at [j], the prefix before it being [l1]. *)
Lemma sift_elems d j l1 x l2 :
  elems d = l1 ++ x :: l2 -> length l1 = j ->
  elems (sift d 0 j) = rev (ins (lessE d) x (rev l1)) ++ l2 /\
  lessE (sift d 0 j) = lessE d.
Proof.
  revert d l1 l2. induction j as [|j IH]; intros d l1 l2 Hd Hlen.
  - destruct l1; [|done]. simpl. by rewrite Hd.
  - destruct l1 as [|y l1' _] using rev_ind; [done|].
    rewrite length_app in Hlen. simpl in Hlen.
    assert (length l1' = j) as Hj by lia.
    cbn [sift]. rewrite bool_decide_eq_true_2 by lia. cbn [andb].
    rewrite (Less_elems d (S j) j x y).
    2:{ rewrite Hd, <- app_assoc. rewrite lookup_app_r by lia.
        by replace (S j - length l1')%nat with 1%nat by lia. }
    2:{ rewrite Hd, <- app_assoc. rewrite lookup_app_r by lia.
        by replace (j - length l1')%nat with 0%nat by lia. }
    rewrite rev_app_distr. cbn [rev app ins].
    destruct (lessE d x y) eqn:Hless.
    + destruct (IH (Swap d (S j) j) l1' (y :: l2)) as [He Hl]; [|done|].
      { rewrite Swap_elems, Hd, <- app_assoc. simpl. rewrite <- Hj.
        apply swap_elems_adjacent. }
      rewrite Swap_lessE in He, Hl. rewrite He, Hl. split; [|done].
      cbn [rev]. by rewrite <- app_assoc.
    + split; [|done]. rewrite Hd. cbn [rev]. rewrite rev_involutive.
      by rewrite <- !app_assoc.
Qed.

Lemma insertion_loop_elems d i l1 l2 :
  elems d = l1 ++ l2 -> length l1 = i ->
  elems (insertion_loop d 0 i (length l2)) =
    rev (foldl (fun racc x => ins (lessE d) x racc) (rev l1) l2) /\
  lessE (insertion_loop d 0 i (length l2)) = lessE d.
Proof.
  revert d i l1. induction l2 as [|x l2 IH]; intros d i l1 Hd Hlen; cbn [length insertion_loop foldl].
  - rewrite rev_involutive, Hd. by rewrite app_nil_r.
  - destruct (sift_elems d i l1 x l2 Hd Hlen) as [He Hl].
    destruct (IH (sift d 0 i) (S i) (rev (ins (lessE d) x (rev l1)))) as [He' Hl'].
    { done. }
    { rewrite length_rev, length_ins, length_rev. lia. }
    rewrite Hl in He', Hl'. rewrite rev_involutive in He'. by rewrite He', Hl'.
Qed.

(** On slices, [insertionSort(data, 0, n)] is [isort]. *)
Lemma insertionSort_elems d :
  elems (insertionSort d 0 (Len d)) = isort (lessE d) (elems d) /\
  lessE (insertionSort d 0 (Len d)) = lessE d.
Proof.
  unfold insertionSort, isort. rewrite Len_elems.
  destruct (elems d) as [|x l2] eqn:Hd.
  - simpl. by rewrite Hd.
  - cbn [length]. replace (S (length l2) - 1)%nat with (length l2) by lia.
    by apply (insertion_loop_elems d 1 [x] l2).
Qed.

Lemma swapped_elems d d' :
  swapped d d' -> elems d' ≡ₚ elems d /\ lessE d' = lessE d.
Proof.
  induction 1 as [d|d i j d' Hi Hj _ [IHp IHl]]; [done|].
  rewrite Swap_elems, swap_elems_perm in IHp. by rewrite Swap_lessE in IHl.
Qed.

Lemma IsSorted_elems d :
  IsSorted d -> Sorted (fun x y => lessE d y x = false) (elems d).
Proof.
  unfold IsSorted. rewrite Len_elems. intros Hs.
  assert (forall i x y, elems d !! i = Some x -> elems d !! S i = Some y ->
            lessE d y x = false) as Hadj.
  { intros i x y Hx Hy. rewrite <- (Less_elems d (S i) i y x Hy Hx).
    apply Hs. by eapply lookup_lt_Some. }
  clear Hs. induction (elems d) as [|x l IH]; [constructor|].
  constructor.
  - apply IH. intros i a b Ha Hb. by apply (Hadj (S i)).
  - destruct l as [|y l]; constructor. by apply (Hadj 0%nat).
Qed.

Lemma Len_Swap d i j : Len (Swap d i j) = Len d.
Proof. by rewrite !Len_elems, Swap_elems, swap_elems_perm. Qed.

Lemma swapped_Len d d' : swapped d d' -> Len d' = Len d.
Proof. induction 1 as [d|d i j d' _ _ _ IH]; [done|]. by rewrite IH, Len_Swap. Qed.

Lemma swapped_trans d1 d2 d3 : swapped d1 d2 -> swapped d2 d3 -> swapped d1 d3.
Proof.
  induction 1 as [d|d i j d' Hi Hj _ IH]; [done|].
  intros H3. apply (swapped_step d i j d3 Hi Hj). by apply IH.
Qed.

Lemma swapped_sift d j : (j < Len d)%nat -> swapped d (sift d 0 j).
Proof.
  revert d. induction j as [|j IH]; intros d Hj; cbn [sift]; [constructor|].
  destruct (bool_decide (0 < S j)%nat && Less d (S j) j); [|constructor].
  eapply (swapped_step d (S j) j); [done | lia |].
  apply IH. rewrite Len_Swap. lia.
Qed.

Lemma swapped_insertion_loop d i n :
  (i + n <= Len d)%nat -> swapped d (insertion_loop d 0 i n).
Proof.
  revert d i. induction n as [|n IH]; intros d i Hn; cbn [insertion_loop]; [constructor|].
  assert (swapped d (sift d 0 i)) as Hs by (apply swapped_sift; lia).
  eapply swapped_trans; [done|]. apply IH.
  rewrite (swapped_Len _ _ Hs). lia.
Qed.

(** The insertion sort only ever exchanges elements. *)
Lemma swapped_insertionSort d : swapped d (insertionSort d 0 (Len d)).
Proof.
  unfold insertionSort. destruct (Len d) as [|n] eqn:Hn; [constructor|].
  apply swapped_insertion_loop. lia.
Qed.

Lemma Sorted_lookup (R : A -> A -> Prop) (l : list A) i x y :
  Sorted R l -> l !! i = Some x -> l !! S i = Some y -> R x y.
Proof.
  revert i. induction l as [|a l IH]; intros i Hs Hx Hy; [done|].
  apply Sorted_inv in Hs as [Hs Hhd]. destruct i as [|i]; simpl in *.
  - injection Hx as ->. destruct l as [|b l]; [done|]. simpl in Hy.
    injection Hy as ->. by apply HdRel_inv in Hhd.
  - by eapply IH.
Qed.

Lemma IsSorted_insertionSort d :
  (forall x y, lessE d x y = true -> lessE d y x = false) ->
  IsSorted (insertionSort d 0 (Len d)).
Proof.
  intros Hasym i Hi. destruct (insertionSort_elems d) as [He Hl].
  rewrite Len_elems in Hi.
  destruct (lookup_lt_is_Some_2 _ _ Hi) as [y Hy].
  destruct (lookup_lt_is_Some_2 (elems (insertionSort d 0 (Len d))) i) as [x Hx];
    [lia|].
  rewrite (Less_elems _ (S i) i y x Hy Hx), Hl.
  rewrite He in Hx, Hy.
  by apply (Sorted_lookup _ _ _ _ _ (isort_sorted (lessE d) Hasym (elems d)) Hx Hy).
Qed.

(** [sort.Sort] returns: the result of the insertion sort is one of the
    outcomes the model allows, for a slice of any length. *)
Lemma Sort_returns d :
  (forall x y, lessE d x y = true -> lessE d y x = false) ->
  Sort d (insertionSort d 0 (Len d)).
Proof.
  intros Hasym. unfold Sort. case_decide; [done|].
  split; [apply swapped_insertionSort | intros _; by apply IsSorted_insertionSort].
Qed.

(** What [sort.Sort] and [sort.Slice] leave behind: the same elements, and
    neighbours in order when the comparison never holds both ways and, on
    the elements at hand, is a transitive ordering. *)
Lemma Sort_elems d d' :
  (forall x y, lessE d x y = true -> lessE d y x = false) ->
  (forall x y z, x ∈ elems d -> y ∈ elems d -> z ∈ elems d ->
     (lessE d x y = true -> lessE d y z = true -> lessE d x z = true) /\
     (lessE d x y = false -> lessE d y z = false -> lessE d x z = false)) ->
  Sort d d' ->
  elems d' ≡ₚ elems d /\ lessE d' = lessE d /\
  Sorted (fun x y => lessE d y x = false) (elems d').
Proof.
  intros Hasym Htrans. unfold Sort. case_decide as Hlen.
  - intros ->. destruct (insertionSort_elems d) as [-> ->].
    split; [apply isort_perm|]. split; [done|]. by apply isort_sorted.
  - intros [Hsw Hsorted]. destruct (swapped_elems d d' Hsw) as [Hp Hl].
    split; [done|]. split; [done|]. rewrite <- Hl. apply IsSorted_elems, Hsorted.
    intros i j k Hi Hj Hk. rewrite Len_elems in Hi, Hj, Hk.
    destruct (lookup_lt_is_Some_2 _ _ Hi) as [x Hx].
    destruct (lookup_lt_is_Some_2 _ _ Hj) as [y Hy].
    destruct (lookup_lt_is_Some_2 _ _ Hk) as [z Hz].
    rewrite (Less_elems d i j x y), (Less_elems d j k y z), (Less_elems d i k x z) by done.
    apply Htrans; by eapply list_elem_of_lookup_2.
Qed.

(** Up to twelve elements the result is that of the insertion sort. *)
Lemma Sort_small d d' :
  (length (elems d) <= maxInsertion)%nat -> Sort d d' ->
  elems d' = isort (lessE d) (elems d) /\ lessE d' = lessE d.
Proof.
  intros Hlen. unfold Sort. rewrite decide_True by (by rewrite Len_elems).
  intros ->. apply insertionSort_elems.
Qed.

(** Whatever the comparison, [sort.Sort] and [sort.Slice] only rearrange. *)
Lemma Sort_perm d d' : Sort d d' -> elems d' ≡ₚ elems d.
Proof.
  unfold Sort. case_decide as Hlen.
  - intros ->. destruct (insertionSort_elems d) as [-> _]. apply isort_perm.
  - intros [Hsw _]. by destruct (swapped_elems d d' Hsw).
Qed.

End SliceSort.

(** ** Rankings *)

Section RankingFacts.
Import F64 GoSort.

Lemma lines_positions {A : Type} (g : A -> string) (h : A -> float64) (l : list A) :
  (imap (fun i x => (Z.of_nat i + 1, g x, h x)) l).*1.*1 =
  Z.of_nat <$> seq 1 (length l).
Proof.
  rewrite !fmap_imap.
  rewrite (imap_ext _ (fun i _ => Z.of_nat (S i))) by (intros; simpl; lia).
  by rewrite imap_seq_0, <- fmap_S_seq, <- list_fmap_compose.
Qed.

Lemma lines_names {A : Type} (g : A -> string) (h : A -> float64) (l : list A) :
  (imap (fun i x => (Z.of_nat i + 1, g x, h x)) l).*1.*2 = g <$> l.
Proof.
  rewrite !fmap_imap. rewrite (imap_ext _ (const g)) by done. apply imap_const.
Qed.

Lemma lines_scores {A : Type} (g : A -> string) (h : A -> float64) (l : list A) :
  (imap (fun i x => (Z.of_nat i + 1, g x, h x)) l).*2 = h <$> l.
Proof.
  rewrite fmap_imap. rewrite (imap_ext _ (const h)) by done. apply imap_const.
Qed.

Lemma Sorted_elem_impl {A : Type} (R R' : A -> A -> Prop) (l : list A) :
  (forall x y, x ∈ l -> y ∈ l -> R x y -> R' x y) -> Sorted R l -> Sorted R' l.
Proof.
  induction l as [|x l IH]; intros Himpl Hs; [constructor|].
  apply Sorted_inv in Hs as [Hs Hhd]. constructor.
  - apply IH; [|done]. intros a b Ha Hb. apply Himpl; by apply list_elem_of_further.
  - destruct l as [|y l]; constructor. apply HdRel_inv in Hhd.
    apply Himpl; [apply list_elem_of_here | apply list_elem_of_further, list_elem_of_here | done].
Qed.

Lemma StronglySorted_scores {A : Type} (h : A -> float64) (R : float64 -> float64 -> Prop)
      (l : list A) :
  StronglySorted (fun x y => R (h x) (h y)) l -> StronglySorted R (h <$> l).
Proof.
  induction 1 as [|x l Hs IH Hall]; simpl; constructor; [done|].
  by apply Forall_fmap.
Qed.

(** A slice whose neighbours are never out of order, with no NaN among the
    scores, has its scores in order throughout. *)
Lemma ascending_scores {A : Type} (h : A -> float64) (l : list A) :
  (forall x, x ∈ l -> is_nan (h x) = false) ->
  Sorted (fun x y => lt (h y) (h x) = false) l ->
  StronglySorted (fun s t => le s t = true) (h <$> l).
Proof.
  intros Hnan Hs. apply StronglySorted_scores.
  apply Sorted_StronglySorted.
  - intros x y z. apply le_trans.
  - eapply Sorted_elem_impl; [|done]. intros x y Hx Hy Hlt.
    cbv beta in Hlt. apply lt_false_iff in Hlt; auto.
Qed.

Lemma descending_scores {A : Type} (h : A -> float64) (l : list A) :
  (forall x, x ∈ l -> is_nan (h x) = false) ->
  Sorted (fun x y => gt (h y) (h x) = false) l ->
  StronglySorted (fun s t => ge s t = true) (h <$> l).
Proof.
  intros Hnan Hs. apply StronglySorted_scores.
  apply Sorted_StronglySorted.
  - intros x y z. rewrite !ge_le. intros H1 H2. by eapply le_trans.
  - eapply Sorted_elem_impl; [|done]. intros x y Hx Hy Hgt.
    cbv beta in Hgt. rewrite gt_lt in Hgt. rewrite ge_le.
    apply lt_false_iff in Hgt; auto.
Qed.

(** Go's [<] on numbers is a transitive ordering in the sense of the sort
    package. *)
Lemma lt_transitive_ordering x y z :
  is_nan x = false -> is_nan y = false -> is_nan z = false ->
  (lt x y = true -> lt y z = true -> lt x z = true) /\
  (lt x y = false -> lt y z = false -> lt x z = false).
Proof.
  intros Hx Hy Hz. split; [apply lt_trans|].
  rewrite !lt_false_iff by done. intros H1 H2. by eapply le_trans.
Qed.

End RankingFacts.

Section SavageRanking.
Import F64 GoSort Savage.

Lemma less_value_asym asc x y : less_value asc x y = true -> less_value asc y x = false.
Proof. destruct asc; simpl; rewrite ?gt_lt; apply lt_asym. Qed.

Lemma lessSwap_Len (d : lessSwap) : Len d = length (arr d).
Proof. reflexivity. Qed.

Lemma lessSwap_Less (d : lessSwap) i j x y :
  arr d !! i = Some x -> arr d !! j = Some y ->
  Less d i j = less_value (ascending d) x y.
Proof. intros Hx Hy. simpl. by rewrite Hx, Hy. Qed.

Lemma lessSwap_Swap_arr (d : lessSwap) i j :
  arr (Swap d i j) = swap_elems (arr d) i j.
Proof. reflexivity. Qed.

Lemma lessSwap_Swap_less (d : lessSwap) i j :
  less_value (ascending (Swap d i j)) = less_value (ascending d).
Proof. reflexivity. Qed.

Lemma lessSwap_Sort_elems (d d' : lessSwap) :
  (forall x, x ∈ arr d -> is_nan (value x) = false) ->
  Sort d d' ->
  arr d' ≡ₚ arr d /\ ascending d' = ascending d /\
  Sorted (fun x y => less_value (ascending d) y x = false) (arr d').
Proof.
  intros Hnan HS.
  destruct (Sort_elems arr (fun d => less_value (ascending d))
              lessSwap_Len lessSwap_Less lessSwap_Swap_arr lessSwap_Swap_less d d')
    as (Hp & Hl & Hs); [| |done|].
  - intros x y. apply less_value_asym.
  - intros x y z Hx Hy Hz. destruct (ascending d); simpl; rewrite ?gt_lt.
    + apply lt_transitive_ordering; auto.
    + destruct (lt_transitive_ordering (value z) (value y) (value x)) as [H1 H2]; auto.
  - split; [done|]. split; [|done].
    destruct d as [[] ?], d' as [[] ?]; simpl in *; try done.
    + assert (less_value false {| alt := EmptyString; value := zero |}
                               {| alt := EmptyString; value := one |} =
              less_value true {| alt := EmptyString; value := zero |}
                              {| alt := EmptyString; value := one |}) as Habs
        by (by rewrite Hl).
      done.
    + assert (less_value true {| alt := EmptyString; value := zero |}
                              {| alt := EmptyString; value := one |} =
              less_value false {| alt := EmptyString; value := zero |}
                               {| alt := EmptyString; value := one |}) as Habs
        by (by rewrite Hl).
      done.
Qed.

Lemma lessSwap_Sort_small (d d' : lessSwap) :
  (length (arr d) <= maxInsertion)%nat -> Sort d d' ->
  arr d' = isort (less_value (ascending d)) (arr d).
Proof.
  intros Hlen HS.
  by destruct (Sort_small arr (fun d => less_value (ascending d))
              lessSwap_Len lessSwap_Less lessSwap_Swap_arr lessSwap_Swap_less
              d d' Hlen HS).
Qed.

Lemma sift_ascending (d : lessSwap) a j : ascending (sift d a j) = ascending d.
Proof.
  revert d. induction j as [|j IH]; intros d; cbn [sift]; [done|].
  destruct (bool_decide (a < S j)%nat && Less d (S j) j); [|done].
  by rewrite IH.
Qed.

Lemma insertion_loop_ascending (d : lessSwap) a i n :
  ascending (insertion_loop d a i n) = ascending d.
Proof.
  revert d i. induction n as [|n IH]; intros d i; cbn [insertion_loop]; [done|].
  by rewrite IH, sift_ascending.
Qed.

(** [sortAltValues] returns, whatever the mapping and the direction. *)
Lemma sortAltValues_returns (data : gmap string float64) (asc : bool) :
  exists out, sortAltValues data asc out.
Proof.
  set (arr0 := (fun kv : string * float64 => {| alt := kv.1; value := kv.2 |})
                 <$> map_to_list data).
  set (d := {| ascending := asc; arr := arr0 |}).
  exists (arr (insertionSort d 0 (Len d))), arr0. split; [unfold iteration; reflexivity|].
  pose proof (Sort_returns arr (fun d => less_value (ascending d))
                lessSwap_Len lessSwap_Less lessSwap_Swap_arr lessSwap_Swap_less d
                (less_value_asym asc)) as HS.
  pose proof (insertion_loop_ascending d 0 1 (Len d - 1)) as Hasc.
  fold (insertionSort d 0 (Len d)) in Hasc.
  destruct (insertionSort d 0 (Len d)) as [asc' out]. simpl in *. by subst asc'.
Qed.

Lemma iteration_elem data arr0 x :
  iteration data arr0 -> x ∈ arr0 -> data !! alt x = Some (value x).
Proof.
  unfold iteration. intros Hit Hx. rewrite Hit in Hx.
  apply list_elem_of_fmap in Hx as ([k v] & -> & Hkv).
  by apply elem_of_map_to_list in Hkv.
Qed.

Lemma iteration_pairs data arr0 :
  iteration data arr0 -> (fun x => (alt x, value x)) <$> arr0 ≡ₚ map_to_list data.
Proof.
  unfold iteration. intros ->. rewrite <- list_fmap_compose.
  rewrite (list_fmap_ext _ id); [by rewrite list_fmap_id|]. by intros ? [k v].
Qed.

End SavageRanking.

Section HurwiczRanking.
Import F64 GoSort Hurwicz.

Lemma ByCriterion_Len (b : ByCriterion) : Len b = length (alts b).
Proof. reflexivity. Qed.

Lemma ByCriterion_Less (b : ByCriterion) i j x y :
  alts b !! i = Some x -> alts b !! j = Some y ->
  Less b i j = gt (value b x) (value b y).
Proof. intros Hx Hy. simpl. by rewrite Hx, Hy. Qed.

Lemma ByCriterion_Swap_alts (b : ByCriterion) i j :
  alts (Swap b i j) = swap_elems (alts b) i j.
Proof. reflexivity. Qed.

Lemma ByCriterion_Swap_less (b : ByCriterion) i j :
  (fun x y => gt (value (Swap b i j) x) (value (Swap b i j) y)) =
  (fun x y => gt (value b x) (value b y)).
Proof. reflexivity. Qed.

Lemma ByCriterion_Sort_elems (alts0 alts1 : list Alternative) (f : Alternative -> float64) :
  (forall x, x ∈ alts0 -> is_nan (f x) = false) ->
  Sort {| alts := alts0; value := f |} {| alts := alts1; value := f |} ->
  alts1 ≡ₚ alts0 /\ Sorted (fun x y => gt (f y) (f x) = false) alts1.
Proof.
  intros Hnan HS.
  destruct (Sort_elems alts (fun b x y => gt (value b x) (value b y))
              ByCriterion_Len ByCriterion_Less ByCriterion_Swap_alts
              ByCriterion_Swap_less {| alts := alts0; value := f |}
              {| alts := alts1; value := f |}) as (Hp & _ & Hs); [| |done|done].
  - intros x y. simpl. rewrite !gt_lt. apply lt_asym.
  - intros x y z Hx Hy Hz. simpl in *. rewrite !gt_lt.
    destruct (lt_transitive_ordering (f z) (f y) (f x)) as [H1 H2]; auto.
Qed.

Lemma ByCriterion_Sort_small (alts0 alts1 : list Alternative) (f : Alternative -> float64) :
  (length alts0 <= maxInsertion)%nat ->
  Sort {| alts := alts0; value := f |} {| alts := alts1; value := f |} ->
  alts1 = isort (fun x y => gt (f x) (f y)) alts0.
Proof.
  intros Hlen HS.
  by destruct (Sort_small alts (fun b x y => gt (value b x) (value b y))
              ByCriterion_Len ByCriterion_Less ByCriterion_Swap_alts
              ByCriterion_Swap_less {| alts := alts0; value := f |}
              {| alts := alts1; value := f |} Hlen HS).
Qed.

Lemma sift_value (b : ByCriterion) a j : value (sift b a j) = value b.
Proof.
  revert b. induction j as [|j IH]; intros b; cbn [sift]; [done|].
  destruct (bool_decide (a < S j)%nat && Less b (S j) j); [|done].
  by rewrite IH.
Qed.

Lemma insertion_loop_value (b : ByCriterion) a i n :
  value (insertion_loop b a i n) = value b.
Proof.
  revert b i. induction n as [|n IH]; intros b i; cbn [insertion_loop]; [done|].
  by rewrite IH, sift_value.
Qed.

(** [PrintRankings] returns, whatever the slice and the criterion. *)
Lemma PrintRankings_returns (alts0 : list Alternative) (f : Alternative -> float64) :
  exists alts1 lines, PrintRankings alts0 f alts1 lines.
Proof.
  set (d := {| alts := alts0; value := f |}).
  exists (alts (insertionSort d 0 (Len d))). eexists. split; [|done].
  assert (forall x y, gt (value d x) (value d y) = true ->
                      gt (value d y) (value d x) = false) as Hasym
    by (intros x y; rewrite !gt_lt; apply lt_asym).
  pose proof (Sort_returns alts (fun b x y => gt (value b x) (value b y))
                ByCriterion_Len ByCriterion_Less ByCriterion_Swap_alts
                ByCriterion_Swap_less d Hasym) as HS.
  pose proof (insertion_loop_value d 0 1 (Len d - 1)) as Hv.
  fold (insertionSort d 0 (Len d)) in Hv.
  destruct (insertionSort d 0 (Len d)) as [l' f']. simpl in *. by subst f'.
Qed.

(** Up to twelve alternatives [PrintRankings] has one possible outcome. *)
Lemma PrintRankings_small (alts0 : list Alternative) (f : Alternative -> float64) :
  (length alts0 <= maxInsertion)%nat ->
  PrintRankings alts0 f (isort (fun x y => gt (f x) (f y)) alts0)
    (imap (fun i a => (Z.of_nat i + 1, name a, f a))
          (isort (fun x y => gt (f x) (f y)) alts0)).
Proof.
  intros Hlen. split; [|done]. unfold Sort. rewrite decide_True by done.
  destruct (insertionSort_elems alts (fun b x y => gt (value b x) (value b y))
              ByCriterion_Len ByCriterion_Less ByCriterion_Swap_alts
              ByCriterion_Swap_less {| alts := alts0; value := f |}) as [He _].
  pose proof (insertion_loop_value {| alts := alts0; value := f |} 0 1
                (Len {| alts := alts0; value := f |} - 1)) as Hv.
  fold (insertionSort {| alts := alts0; value := f |} 0
          (Len {| alts := alts0; value := f |})) in Hv.
  destruct (insertionSort _ 0 _) as [l' f']. simpl in He, Hv. by subst.
Qed.

End HurwiczRanking.

Section RankingClaims.
Import F64 GoSort.
Local Open Scope string_scope.

(** C7.  [sortAltValues] returns for every mapping and either direction;
    whatever slice it returns for a mapping of [N] scores, none of them
    NaN, the lines printed from it carry the positions 1..N in order and
    the pairs of the mapping, and their scores read in that order never
    decrease (ascending) or never increase (descending).  The same holds
    for the in-place descending ranking of [PrintRankings]. *)
Theorem C7_ranked_result_sorted :
  (forall (data : gmap string float64) (asc : bool),
     (exists out, Savage.sortAltValues data asc out) /\
     forall out : list Savage.AltValue,
       (forall k v, data !! k = Some v -> is_nan v = false) ->
       Savage.sortAltValues data asc out ->
       (Savage.PrintRanking out).*1.*1 = Z.of_nat <$> seq 1 (size data) /\
       (fun r => (r.1.2, r.2)) <$> Savage.PrintRanking out ≡ₚ map_to_list data /\
       StronglySorted (fun s t => if asc then le s t = true else ge s t = true)
                      (Savage.PrintRanking out).*2) /\
  (forall (alts0 : list Hurwicz.Alternative) (f : Hurwicz.Alternative -> float64),
     (exists alts1 lines, Hurwicz.PrintRankings alts0 f alts1 lines) /\
     forall (alts1 : list Hurwicz.Alternative) (lines : list (Z * string * float64)),
       (forall a, a ∈ alts0 -> is_nan (f a) = false) ->
       Hurwicz.PrintRankings alts0 f alts1 lines ->
       lines.*1.*1 = Z.of_nat <$> seq 1 (length alts0) /\
       alts1 ≡ₚ alts0 /\
       lines = imap (fun i a => (Z.of_nat i + 1, Hurwicz.name a, f a)) alts1 /\
       StronglySorted (fun s t => ge s t = true) lines.*2).
Proof.
  split.
  - intros data asc. split; [apply sortAltValues_returns|].
    intros out Hnan (arr0 & Hit & HS).
    destruct (lessSwap_Sort_elems
                {| Savage.ascending := asc; Savage.arr := arr0 |}
                {| Savage.ascending := asc; Savage.arr := out |}) as (Hp & _ & Hs);
      [|done|].
    { intros x Hx. eapply Hnan. by eapply iteration_elem. }
    simpl in Hp, Hs.
    assert (length out = size data) as Hlen.
    { rewrite Hp, <- (length_fmap (fun x => (Savage.alt x, Savage.value x))).
      rewrite (iteration_pairs _ _ Hit). apply length_map_to_list. }
    unfold Savage.PrintRanking. split; [by rewrite lines_positions, Hlen|]. split.
    + rewrite <- (iteration_pairs _ _ Hit), <- Hp, fmap_imap.
      rewrite (imap_ext _ (const (fun x => (Savage.alt x, Savage.value x)))) by done.
      by rewrite imap_const.
    + rewrite lines_scores.
      assert (forall x, x ∈ out -> is_nan (Savage.value x) = false) as Hnan'.
      { intros x Hx. rewrite Hp in Hx. eapply Hnan. by eapply iteration_elem. }
      destruct asc; simpl in Hs.
      * by apply ascending_scores.
      * by apply descending_scores.
  - intros alts0 f. split; [apply PrintRankings_returns|].
    intros alts1 lines Hnan [HS ->].
    destruct (ByCriterion_Sort_elems _ _ _ Hnan HS) as [Hp Hs].
    split; [by rewrite lines_positions, Hp|]. split; [done|]. split; [done|].
    rewrite lines_scores. apply descending_scores; [|done].
    intros x Hx. rewrite Hp in Hx. by apply Hnan.
Qed.

End RankingClaims.

Section TieClaims.
Import F64 GoSort Scenarios.
Local Open Scope string_scope.

Example wald_ranking_of_tie_rows :
  isort (fun x y => gt (Hurwicz.wald x) (Hurwicz.wald y))
        (Hurwicz.CalculateCriteria tie_rows zero) =
  [ {| Hurwicz.name := "B"; Hurwicz.wald := of_int 2; Hurwicz.maxmax := of_int 5;
       Hurwicz.hurwicz := of_int 2 |};
    {| Hurwicz.name := "A"; Hurwicz.wald := of_int 1; Hurwicz.maxmax := of_int 5;
       Hurwicz.hurwicz := of_int 1 |} ].
Proof. vm_compute. reflexivity. Qed.

(** C8, as stated, fails twice.  In [sortAltValues] the tied Savage scores
    of the scenario come out as A, B in one run and as B, A in another,
    according to the order in which the map was iterated.  In the third
    program [main] ranks one slice three times in place: for A = [1, 5] and
    B = [2, 5], declared in this order, the Wald ranking moves B to the
    front and the MaxiMax ranking, a tie, then prints B before A. *)
Lemma C8_ties_not_in_declaration_order :
  Savage.CalculateSavage savage_rows = Some savage_tie /\
  Savage.sortAltValues savage_tie true
    [ {| Savage.alt := "A"; Savage.value := of_int 4 |};
      {| Savage.alt := "B"; Savage.value := of_int 4 |} ] /\
  Savage.sortAltValues savage_tie true
    [ {| Savage.alt := "B"; Savage.value := of_int 4 |};
      {| Savage.alt := "A"; Savage.value := of_int 4 |} ] /\
  Hurwicz.alternatives tie_rows = ["A"; "B"] /\
  (exists printed, Hurwicz.main_rankings tie_rows zero printed) /\
  (forall printed, Hurwicz.main_rankings tie_rows zero printed ->
     printed.1.2 = [ (1, "B", of_int 5); (2, "A", of_int 5) ]).
Proof.
  split; [vm_compute; reflexivity|].
  assert (map_to_list savage_tie ≡ₚ [("A", of_int 4); ("B", of_int 4)]) as Hl.
  { unfold savage_tie. rewrite map_to_list_insert by done.
    by rewrite map_to_list_singleton. }
  split; [|split]; [| |split; [done|split]].
  - eexists. split; [unfold Savage.iteration; by rewrite Hl|].
    unfold Sort. rewrite decide_True by (vm_compute; lia). reflexivity.
  - eexists. split.
    + unfold Savage.iteration. rewrite Hl. apply Permutation_swap.
    + unfold Sort. rewrite decide_True by (vm_compute; lia). reflexivity.
  - set (a0 := Hurwicz.CalculateCriteria tie_rows zero).
    set (a1 := isort (fun x y => gt (Hurwicz.wald x) (Hurwicz.wald y)) a0).
    set (a2 := isort (fun x y => gt (Hurwicz.maxmax x) (Hurwicz.maxmax y)) a1).
    set (a3 := isort (fun x y => gt (Hurwicz.hurwicz x) (Hurwicz.hurwicz y)) a2).
    apply (ex_intro _
      (imap (fun i a => (Z.of_nat i + 1, Hurwicz.name a, Hurwicz.wald a)) a1,
       imap (fun i a => (Z.of_nat i + 1, Hurwicz.name a, Hurwicz.maxmax a)) a2,
       imap (fun i a => (Z.of_nat i + 1, Hurwicz.name a, Hurwicz.hurwicz a)) a3)).
    exists a1, a2, a3. cbn [fst snd].
    split; [|split]; apply PrintRankings_small; vm_compute; lia.
  - intros [[p1 p2] p3] (a1 & a2 & a3 & [H1 _] & [H2 ->] & _). simpl.
    apply ByCriterion_Sort_small in H1; [|vm_compute; lia]. subst a1.
    apply ByCriterion_Sort_small in H2; [|vm_compute; lia]. subst a2.
    vm_compute. reflexivity.
Qed.

(** C8, amended.  On up to twelve alternatives, where Go's sort is the
    insertion sort, alternatives of equal score keep the order in which
    the sort received them: in [sortAltValues] the order [arr0] in which
    the map happened to be iterated, in [PrintRankings] the order of the
    slice handed in, which [main] shares between its rankings.  Given that
    order the result is determined. *)
Theorem C8_ties_keep_received_order :
  (forall (data : gmap string float64) (asc : bool) (out : list Savage.AltValue),
     (size data <= 12)%nat ->
     Savage.sortAltValues data asc out ->
     exists arr0, Savage.iteration data arr0 /\
       out = isort (Savage.less_value asc) arr0 /\
       forall v, filter (fun x => eq (Savage.value x) v = true) out =
                 filter (fun x => eq (Savage.value x) v = true) arr0) /\
  (forall (alts0 alts1 : list Hurwicz.Alternative) (f : Hurwicz.Alternative -> float64)
          (lines : list (Z * string * float64)),
     (length alts0 <= 12)%nat ->
     Hurwicz.PrintRankings alts0 f alts1 lines ->
     alts1 = isort (fun x y => gt (f x) (f y)) alts0 /\
     forall v, filter (fun a => eq (f a) v = true) alts1 =
               filter (fun a => eq (f a) v = true) alts0).
Proof.
  split.
  - intros data asc out Hsize (arr0 & Hit & HS). exists arr0. split; [done|].
    assert (length arr0 = size data) as Hlen.
    { rewrite <- (length_fmap (fun x => (Savage.alt x, Savage.value x))).
      rewrite (iteration_pairs _ _ Hit). apply length_map_to_list. }
    apply lessSwap_Sort_small in HS; [|simpl; unfold maxInsertion; lia].
    simpl in HS. subst out. split; [done|]. intros v.
    apply isort_stable. intros x y Hx Hy.
    destruct asc; simpl; rewrite ?gt_lt; by eapply eq_class_not_lt.
  - intros alts0 alts1 f lines Hlen [HS _].
    apply ByCriterion_Sort_small in HS; [|done]. subst alts1. split; [done|].
    intros v. apply isort_stable. intros x y Hx Hy.
    rewrite gt_lt. by eapply eq_class_not_lt.
Qed.

End TieClaims.

(* ===================================================================== *)
(** * Part III: further properties of the three programs *)
(* ===================================================================== *)

(** ** The Pareto set as a choice *)

Section ParetoChoice.
Import Pareto GoSort.
Local Open Scope string_scope.

Lemma dominates_trans p a b c :
  dominates p a b -> dominates p b c -> dominates p a c.
Proof.
  intros [Hab (e & He & Hlt)] [Hbc _]. split.
  - intros e' He'. specialize (Hab e' He'). specialize (Hbc e' He'). lia.
  - exists e. split; [done|]. specialize (Hbc e He). lia.
Qed.

Lemma dominates_irrefl p a : ~ dominates p a a.
Proof. intros [_ (e & _ & Hlt)]. lia. Qed.

(** Between alternatives the computed entry is the rule itself. *)
Lemma BuildDominance_dominates p :
  exists p', BuildDominance p = Some p' /\ alts p' = alts p /\
    forall x y, x ∈ alts p -> y ∈ alts p ->
      (dom_get (dominance p') x y = true <-> dominates p x y).
Proof.
  destruct (BuildDominance_spec p) as (p' & Hp' & Halts & _ & _ & Hin & _).
  exists p'. split; [done|]. split; [done|]. intros x y Hx Hy.
  rewrite (Hin x y Hx), andb_true_iff, bool_decide_eq_true, pair_test_dominates.
  split; [tauto|]. intros Hd. split; [|done]. split; [done|].
  intros ->. by eapply dominates_irrefl.
Qed.

Lemma filter_all {A : Type} (P : A -> Prop) `{!forall x, Decision (P x)} (l : list A) :
  (forall a, a ∈ l -> P a) -> filter P l = l.
Proof.
  induction l as [|x l IH]; intros Hall; [done|].
  rewrite filter_cons, decide_True by apply Hall, list_elem_of_here.
  f_equal. apply IH. intros a Ha. by apply Hall, list_elem_of_further.
Qed.

(** X1.  The Pareto set covers the alternatives: after [BuildDominance],
    every alternative that [ParetoSet] leaves out has [dominance[b][a]]
    true for some member [b] of the Pareto set. *)
Theorem pareto_set_covers (p : ParetoSystem) :
  exists p', BuildDominance p = Some p' /\
    forall a, a ∈ alts p -> a ∉ ParetoSet p' ->
      exists b, b ∈ ParetoSet p' /\ dom_get (dominance p') b a = true.
Proof.
  destruct (BuildDominance_dominates p) as (p' & Hp' & Halts & Hdom).
  exists p'. split; [done|]. intros a Ha Hout.
  set (D := filter (fun b => dom_get (dominance p') b a = true) (alts p)).
  assert (D <> []) as HD.
  { destruct (dominated p' a (alts p')) eqn:Hd.
    - apply dominated_spec in Hd as (b & Hb & Hba). rewrite Halts in Hb.
      assert (b ∈ D) as HbD by (by apply list_elem_of_filter).
      intros Hnil. rewrite Hnil in HbD. by apply elem_of_nil in HbD.
    - exfalso. apply Hout, elem_of_ParetoSet. rewrite Halts. split; [done|].
      rewrite <- Halts. intros Hex%dominated_spec. congruence. }
  destruct (least_element (rank_sum p (experts p)) D HD) as (b & HbD & Hmin).
  apply list_elem_of_filter in HbD as [Hba Hb].
  exists b. split; [|done]. apply elem_of_ParetoSet. rewrite Halts. split; [done|].
  intros (c & Hc & Hcb).
  apply Hdom in Hcb; [|done..]. apply Hdom in Hba; [|done..].
  pose proof (dominates_trans p c b a Hcb Hba) as Hca.
  assert (c ∈ D) as HcD.
  { apply list_elem_of_filter. split; [|done]. by apply Hdom. }
  specialize (Hmin c HcD). apply dominates_rank_sum in Hcb. lia.
Qed.

(** X2.  When no alternative dominates another by the rule (no experts,
    equal ranks throughout, or rankings that cross), the Pareto set is the
    whole list of alternatives, sorted. *)
Theorem pareto_set_all_when_incomparable (p : ParetoSystem) :
  (forall a b, a ∈ alts p -> b ∈ alts p -> ~ dominates p a b) ->
  exists p', BuildDominance p = Some p' /\ ParetoSet p' = Strings (alts p).
Proof.
  intros Hinc. destruct (BuildDominance_dominates p) as (p' & Hp' & Halts & Hdom).
  exists p'. split; [done|]. unfold ParetoSet. rewrite collect_filter. simpl.
  rewrite filter_all; [by rewrite Halts|].
  intros a Ha. apply not_true_is_false. intros (b & Hb & Hba)%dominated_spec.
  rewrite Halts in Ha, Hb. apply Hdom in Hba; [|done..]. exact (Hinc b a Hb Ha Hba).
Qed.

Lemma pareto_set_all_when_incomparable_witness :
  exists p', BuildDominance (newParetoSystem ["B"; "A"] [] ∅) = Some p' /\
    ParetoSet p' = Strings ["B"; "A"].
Proof.
  apply (pareto_set_all_when_incomparable (newParetoSystem ["B"; "A"] [] ∅)).
  intros a b _ _ [_ (e & He & _)]. simpl in He. by apply elem_of_nil in He.
Defined.

Lemma compare_experts_ext p q a1 a2 es better notWorse :
  rankings q = rankings p ->
  compare_experts q a1 a2 es better notWorse =
  compare_experts p a1 a2 es better notWorse.
Proof.
  intros Hr. revert better. induction es as [|e es IH]; intros better; [done|].
  cbn [compare_experts]. unfold rank. rewrite Hr.
  destruct (_ >? _); [done|]. apply IH.
Qed.

Lemma pair_test_ext p q a1 a2 :
  rankings q = rankings p -> experts q = experts p ->
  pair_test q a1 a2 = pair_test p a1 a2.
Proof.
  intros Hr He. unfold pair_test. by rewrite He, (compare_experts_ext p q).
Qed.

Lemma inner_loop_ext p q a1 as2 d :
  rankings q = rankings p -> experts q = experts p ->
  inner_loop q a1 as2 d = inner_loop p a1 as2 d.
Proof.
  intros Hr He. revert d. induction as2 as [|a2 rest IH]; intros d; [done|].
  cbn [inner_loop]. rewrite (pair_test_ext p q) by done.
  destruct (decide (a1 = a2)); [apply IH|].
  destruct (pair_test p a1 a2); [|apply IH].
  destruct (dom_set d a1 a2); simpl; [apply IH | done].
Qed.

Lemma outer_loop_ext p q as1 d :
  rankings q = rankings p -> experts q = experts p -> alts q = alts p ->
  outer_loop q as1 d = outer_loop p as1 d.
Proof.
  intros Hr He Ha. revert d. induction as1 as [|a1 rest IH]; intros d; [done|].
  cbn [outer_loop]. rewrite Ha, (inner_loop_ext p q) by done.
  destruct (inner_loop p a1 (alts p) d); simpl; [apply IH | done].
Qed.

(** The pair loop of one alternative writes into its own row only. *)
Lemma inner_loop_other p a1 as2 d d' x :
  inner_loop p a1 as2 d = Some d' -> x <> a1 -> d' !! x = d !! x.
Proof.
  revert d. induction as2 as [|a2 rest IH]; intros d Hd Hne; cbn [inner_loop] in Hd.
  - by injection Hd as ->.
  - destruct (decide (a1 = a2)); [by apply IH|].
    destruct (pair_test p a1 a2); [|by apply IH].
    unfold dom_set in Hd. destruct (d !! a1) as [row|] eqn:Hrow; [|done].
    simpl in Hd. rewrite (IH _ Hd Hne). by apply lookup_insert_ne.
Qed.

Lemma outer_loop_other p as1 d d' x :
  outer_loop p as1 d = Some d' -> x ∉ as1 -> d' !! x = d !! x.
Proof.
  revert d. induction as1 as [|a1 rest IH]; intros d Hd Hx; cbn [outer_loop] in Hd.
  - by injection Hd as ->.
  - destruct (inner_loop p a1 (alts p) d) as [d1|] eqn:Hd1; [|done]. simpl in Hd.
    apply not_elem_of_cons in Hx as [Hne Hx].
    rewrite (IH _ Hd Hx). by eapply inner_loop_other.
Qed.

(** X3.  Recomputing is stable: [BuildDominance] run on its own result
    returns that result unchanged, the rows of the alternatives being
    cleared and filled again with the same entries. *)
Theorem BuildDominance_idempotent (p : ParetoSystem) :
  exists p', BuildDominance p = Some p' /\ BuildDominance p' = Some p'.
Proof.
  destruct (BuildDominance_spec p) as (p' & Hp' & _).
  exists p'. split; [done|]. unfold BuildDominance in *.
  destruct (outer_loop p (alts p) (init_rows (alts p) (dominance p)))
    as [d'|] eqn:Hd; [|done].
  simpl in Hp'. injection Hp' as <-. cbn [with_dominance alts dominance].
  rewrite (outer_loop_ext p) by done.
  assert (init_rows (alts p) d' = init_rows (alts p) (dominance p)) as ->.
  { apply map_eq. intros x. rewrite !init_rows_lookup. case_decide as Hx; [done|].
    rewrite (outer_loop_other _ _ _ _ _ Hd Hx).
    by rewrite init_rows_lookup, decide_False. }
  by rewrite Hd.
Qed.

End ParetoChoice.

(** ** When [CalculateSavage] returns, and whom the rankings list *)

Section SavageReturns.
Import F64 GoSort Savage.







Lemma sortAltValues_names (data : gmap string float64) asc out :
  sortAltValues data asc out -> alt <$> out ≡ₚ (map_to_list data).*1.
Proof.
  intros (arr0 & Hit & HS).
  pose proof (Sort_perm arr (fun d => less_value (ascending d))
                lessSwap_Len lessSwap_Less lessSwap_Swap_arr lessSwap_Swap_less
                _ _ HS) as Hp.
  simpl in Hp. rewrite Hp, <- (iteration_pairs _ _ Hit), <- list_fmap_compose.
  done.
Qed.

Lemma names_of_scores (data : gmap string float64) (als : list string) asc out :
  (forall a, is_Some (data !! a) <-> a ∈ als) ->
  sortAltValues data asc out -> alt <$> out ≡ₚ remove_dups als.
Proof.
  intros Hkeys HS. rewrite (sortAltValues_names _ _ _ HS).
  apply NoDup_Permutation.
  - apply NoDup_fst_map_to_list.
  - apply NoDup_remove_dups.
  - intros a. rewrite elem_of_remove_dups, <- Hkeys. split.
    + intros ([k v] & -> & Hkv%elem_of_map_to_list)%list_elem_of_fmap. by eexists.
    + intros [v Hv]. apply list_elem_of_fmap. exists (a, v). split; [done|].
      by apply elem_of_map_to_list.
Qed.

Lemma savage_loop_keys u M als s s' a :
  savage_loop u M als s = Some s' ->
  (is_Some (s' !! a) <-> a ∈ als \/ is_Some (s !! a)).
Proof.
  revert s. induction als as [|b als IH]; intros s Hs; cbn [savage_loop] in Hs.
  - injection Hs as ->. rewrite elem_of_nil. tauto.
  - destruct (regret_loop M 0 (row u b) zero) as [r|]; [|done]. simpl in Hs.
    rewrite (IH _ Hs), elem_of_cons, lookup_insert_is_Some. clear.
    destruct (decide (b = a)); intuition congruence.
Qed.

(** X5.  A ranking has one line for every declared name, however often
    the name was declared: the scores are kept in a map under the name, so
    alternatives declared under one name share an entry.  This holds for
    the Laplace scores and, when [CalculateSavage] returns, for the Savage
    scores, in either direction of [sortAltValues]. *)
Theorem ranking_lists_each_name_once (u : UncertainDecisionSystem) :
  (forall asc out,
     sortAltValues (CalculateLaplace u) asc out ->
     alt <$> out ≡ₚ remove_dups (alternatives u)) /\
  (forall savage asc out,
     CalculateSavage u = Some savage ->
     sortAltValues savage asc out ->
     alt <$> out ≡ₚ remove_dups (alternatives u)).
Proof.
  split.
  - intros asc out. apply names_of_scores. intros a.
    unfold CalculateLaplace. rewrite laplace_loop_lookup.
    case_decide; [split; [done | by eexists]|].
    rewrite lookup_empty. split; [by intros [? ?] | done].
  - intros savage asc out Hs. apply names_of_scores. intros a.
    unfold CalculateSavage in Hs. destruct (maxOutcomes u) as [M|]; [|done].
    simpl in Hs. rewrite (savage_loop_keys _ _ _ _ _ a Hs), lookup_empty.
    split; [intros [?|[? ?]]; done | by left].
Qed.

Lemma le_antisym x y : le x y = true -> le y x = true -> eq x y = true.
Proof.
  rewrite !le_true_iff, eq_true_iff. unfold key_lt, key_eq.
  intros (Hx & Hy & H1) (_ & _ & H2). split; [done|]. split; [done|]. lia.
Qed.

(** X6.  Without ties the ranking is determined: for scores that are
    not NaN and pairwise different, any two results of [sortAltValues] on
    the same mapping are the same slice, whatever the order in which the
    map was iterated and whatever the number of alternatives. *)
Theorem ranking_without_ties_unique (data : gmap string float64) (asc : bool)
        (out1 out2 : list AltValue) :
  (forall k v, data !! k = Some v -> is_nan v = false) ->
  (forall k1 k2 v1 v2, data !! k1 = Some v1 -> data !! k2 = Some v2 ->
     eq v1 v2 = true -> k1 = k2) ->
  sortAltValues data asc out1 -> sortAltValues data asc out2 -> out1 = out2.
Proof.
  intros Hnan Hdiff (arr1 & Hit1 & HS1) (arr2 & Hit2 & HS2).
  destruct (lessSwap_Sort_elems {| ascending := asc; arr := arr1 |}
              {| ascending := asc; arr := out1 |}) as (Hp1 & _ & Hs1); [|done|].
  { intros x Hx. exact (Hnan _ _ (iteration_elem _ _ _ Hit1 Hx)). }
  destruct (lessSwap_Sort_elems {| ascending := asc; arr := arr2 |}
              {| ascending := asc; arr := out2 |}) as (Hp2 & _ & Hs2); [|done|].
  { intros x Hx. exact (Hnan _ _ (iteration_elem _ _ _ Hit2 Hx)). }
  simpl in Hp1, Hp2, Hs1, Hs2.
  assert (forall x, x ∈ out1 -> data !! alt x = Some (value x)) as Hin1.
  { intros x Hx. rewrite Hp1 in Hx. exact (iteration_elem _ _ _ Hit1 Hx). }
  assert (forall x, x ∈ out2 -> data !! alt x = Some (value x)) as Hin2.
  { intros x Hx. rewrite Hp2 in Hx. exact (iteration_elem _ _ _ Hit2 Hx). }
  set (R := fun x y : AltValue =>
              if asc then le (value x) (value y) = true
              else le (value y) (value x) = true).
  assert (Transitive R) as HR.
  { intros x y z. unfold R. destruct asc; intros H1 H2; by eapply le_trans. }
  assert (forall out, (forall x, x ∈ out -> data !! alt x = Some (value x)) ->
            Sorted (fun x y => less_value asc y x = false) out -> Sorted R out)
    as Hsorted.
  { intros out Hin. apply Sorted_elem_impl. intros x y Hx Hy Hlt. unfold R.
    apply Hin, Hnan in Hx. apply Hin, Hnan in Hy.
    destruct asc; simpl in Hlt; rewrite ?gt_lt in Hlt;
      apply lt_false_iff in Hlt; done. }
  apply (Sorted_unique_strong R); [|by apply Hsorted..|].
  - intros x1 x2 Hx1 Hx2 H12 H21.
    assert (eq (value x1) (value x2) = true) as Heq.
    { unfold R in H12, H21. destruct asc; [by apply le_antisym|].
      by apply le_antisym. }
    pose proof (Hdiff _ _ _ _ (Hin1 _ Hx1) (Hin2 _ Hx2) Heq) as Halt.
    apply Hin1 in Hx1. apply Hin2 in Hx2. rewrite <- Halt in Hx2.
    destruct x1 as [a1 v1], x2 as [a2 v2]; simpl in *. congruence.
  - rewrite Hp1, Hp2. unfold iteration in Hit1, Hit2. by rewrite Hit1, Hit2.
Qed.

End SavageReturns.

(** ** Reasoning about a dialogue *)

Section ConsoleLogic.
Import Console.

Lemma post_ret {A : Type} (a : A) c (Q : A -> console -> Prop) :
  Q a c -> post (mret a) c Q.
Proof. done. Qed.

Lemma post_bind {A B : Type} (m : IO A) (f : A -> IO B) c (Q : B -> console -> Prop) :
  post m c (fun a c' => post (f a) c' Q) -> post (m ≫= f) c Q.
Proof. unfold post, mbind, IO_bind. by destruct (m c). Qed.

Lemma post_mono {A : Type} (m : IO A) c (Q Q' : A -> console -> Prop) :
  post m c Q -> (forall a c', Q a c' -> Q' a c') -> post m c Q'.
Proof. unfold post. destruct (m c); auto. Qed.

Lemma post_value {A : Type} (m : IO A) c (Q : A -> console -> Prop) a c' :
  post m c Q -> m c = Value a c' -> Q a c'.
Proof. unfold post. intros HQ Hrun. by rewrite Hrun in HQ. Qed.

Lemma post_cases {A : Type} (m : IO A) c (Q : A -> console -> Prop) :
  post m c Q -> m c = OutOfFuel \/ exists a c', m c = Value a c' /\ Q a c'.
Proof. unfold post. destruct (m c) as [a c'| |]; [right; eauto | done | by left]. Qed.

Lemma post_write e c (Q : unit -> console -> Prop) :
  Q tt {| stdin := stdin c; stdout := stdout c ++ [e] |} -> post (write e) c Q.
Proof. done. Qed.

Lemma post_must {A : Type} (o : option A) c (Q : A -> console -> Prop) a :
  o = Some a -> Q a c -> post (must o) c Q.
Proof. by intros ->. Qed.

(** The rule of a [range] loop: [I done s c] holds of the elements
    [done] already visited. *)
Lemma post_for_range {A S : Type} (I : list A -> S -> console -> Prop)
      (body : A -> S -> IO S) (l : list A) s c :
  (forall done x rest s c, l = done ++ x :: rest -> I done s c ->
     post (body x s) c (I (done ++ [x]))) ->
  I [] s c -> post (for_range l body s) c (I l).
Proof.
  intros Hbody.
  assert (forall rest done s c, l = done ++ rest -> I done s c ->
            post (for_range rest body s) c (I l)) as Hgen.
  { induction rest as [|x rest IH]; intros done s' c' Hl HI; cbn [for_range].
    - rewrite app_nil_r in Hl. subst done. by apply post_ret.
    - apply post_bind. eapply post_mono; [by eapply Hbody|].
      intros s'' c'' HI'. cbv beta. apply (IH (done ++ [x])); [|done].
      by rewrite <- app_assoc. }
  by apply (Hgen l []).
Qed.


(** The rule of an unbounded loop: [I] holds whenever the body is
    entered, [Q] when the loop is left. *)
Lemma post_forever {A : Type} (I : console -> Prop) (Q : A -> console -> Prop)
      (body : IO (option A)) fuel c :
  (forall c, I c ->
     post body c (fun r c' => match r with Some v => Q v c' | None => I c' end)) ->
  I c -> post (forever fuel body) c Q.
Proof.
  intros Hbody. revert c. induction fuel as [|fuel IH]; intros c HI; [done|].
  cbn [forever]. apply post_bind. eapply post_mono; [by apply Hbody|].
  intros [v|] c' HQ; [by apply post_ret | by apply IH].
Qed.

(** A loop whose body never yields a value never returns. *)
Lemma forever_spins {A : Type} (I : console -> Prop) (body : IO (option A)) fuel c :
  (forall c, I c -> exists c', body c = Value None c' /\ I c') ->
  I c -> forever fuel body c = OutOfFuel.
Proof.
  intros Hbody. revert c. induction fuel as [|fuel IH]; intros c HI; [done|].
  cbn [forever]. destruct (Hbody c HI) as (c' & Hc' & HI').
  unfold mbind, IO_bind. rewrite Hc'. by apply IH.
Qed.

Lemma wrote_refl c : wrote c c.
Proof. exists []. by rewrite app_nil_r. Qed.

Lemma wrote_trans c1 c2 c3 : wrote c1 c2 -> wrote c2 c3 -> wrote c1 c3.
Proof. intros [e1 H1] [e2 H2]. exists (e1 ++ e2). by rewrite H2, H1, app_assoc. Qed.

Lemma wrote_write e c : wrote c {| stdin := stdin c; stdout := stdout c ++ [e] |}.
Proof. by exists [e]. Qed.





Lemma replicate_concat_end {A : Type} (k : nat) (x : list A) :
  concat (replicate k x) ++ x = concat (replicate (S k) x).
Proof.
  induction k as [|k IH]; simpl; [by rewrite app_nil_r|].
  by rewrite <- app_assoc, IH.
Qed.

End ConsoleLogic.


(** ** SEM10/tpr-4: what the dialogue collects *)

Section ParetoDialogue.
Import Console Pareto ParetoMain Sessions.
Context `{Strconv}.

Lemma readString_post prompt c :
  post (readString prompt) c (fun s c' =>
    stdout c' = stdout c ++ [Print prompt] /\
    exists line err, ReadString (stdin c) = (line, err, stdin c') /\ s = TrimSpace line).
Proof.
  unfold readString, post, mbind, IO_bind, write, read_line. simpl.
  destruct (ReadString (stdin c)) as [[line err] rest]. simpl. eauto.
Qed.

Lemma refused_again k prompt complaint l :
  l ++ refused k prompt complaint ++ [Print prompt] ++ [complaint] =
  l ++ refused (S k) prompt complaint.
Proof. unfold refused. by rewrite <- replicate_concat_end. Qed.

Lemma readInt_post fuel prompt c :
  post (readInt fuel prompt) c (fun v c' =>
    0 < v /\
    exists k, stdout c' =
      stdout c ++ refused k prompt (Println [Str msgInvalidNumber]) ++ [Print prompt]).
Proof.
  unfold readInt.
  apply (post_forever (fun c1 => exists k, stdout c1 =
           stdout c ++ refused k prompt (Println [Str msgInvalidNumber]))).
  2:{ exists 0%nat. by rewrite app_nil_r. }
  intros c1 [k Hk]. apply post_bind.
  eapply post_mono; [apply readString_post|].
  intros s c2 [Hout _]. cbv zeta beta.
  assert (post (write (Println [Str msgInvalidNumber]);; mret None) c2
            (fun (r : option Z) c' =>
               match r with
               | Some v => 0 < v /\ exists k, stdout c' =
                   stdout c ++ refused k prompt (Println [Str msgInvalidNumber]) ++
                   [Print prompt]
               | None => exists k, stdout c' =
                   stdout c ++ refused k prompt (Println [Str msgInvalidNumber])
               end)) as Hagain.
  { exists (S k). simpl. rewrite Hout, Hk, <- !app_assoc. apply refused_again. }
  destruct (Atoi s) as [v|]; [|done].
  case_bool_decide as Hv; [|done].
  apply post_ret. split; [lia|]. exists k. by rewrite Hout, Hk, <- app_assoc.
Qed.

Lemma readRank_post fuel prompt max c :
  post (readRank fuel prompt max) c (fun v c' =>
    1 <= v <= max /\
    exists k, stdout c' =
      stdout c ++ refused k prompt (Printf fmtRankRange [Int max]) ++ [Print prompt]).
Proof.
  unfold readRank.
  apply (post_forever (fun c1 => exists k, stdout c1 =
           stdout c ++ refused k prompt (Printf fmtRankRange [Int max]))).
  2:{ exists 0%nat. by rewrite app_nil_r. }
  intros c1 [k Hk]. apply post_bind.
  eapply post_mono; [apply readString_post|].
  intros s c2 [Hout _]. cbv zeta beta.
  assert (post (write (Printf fmtRankRange [Int max]);; mret None) c2
            (fun (r : option Z) c' =>
               match r with
               | Some v => 1 <= v <= max /\ exists k, stdout c' =
                   stdout c ++ refused k prompt (Printf fmtRankRange [Int max]) ++
                   [Print prompt]
               | None => exists k, stdout c' =
                   stdout c ++ refused k prompt (Printf fmtRankRange [Int max])
               end)) as Hagain.
  { exists (S k). simpl. rewrite Hout, Hk, <- !app_assoc. apply refused_again. }
  destruct (Atoi s) as [v|]; [|done].
  destruct (bool_decide (v >= 1) && bool_decide (v <= max)) eqn:Hv; [|done].
  apply andb_true_iff in Hv as [H1%bool_decide_eq_true H2%bool_decide_eq_true].
  apply post_ret. split; [lia|]. exists k. by rewrite Hout, Hk, <- app_assoc.
Qed.

(** X7.  [readRank] only returns a rank between 1 and [max]; by then it
    has written the prompt once for the line it accepted and, for every
    line it refused, the prompt and one complaint, and nothing else. *)
Theorem readRank_accepts (fuel : nat) (prompt : arg) (max : Z) (c c' : console) (v : Z) :
  readRank fuel prompt max c = Value v c' ->
  1 <= v <= max /\
  exists k, stdout c' =
    stdout c ++ refused k prompt (Printf fmtRankRange [Int max]) ++ [Print prompt].
Proof. intros Hrun. exact (post_value _ _ _ _ _ (readRank_post fuel prompt max c) Hrun). Qed.

(** X8.  At the end of input the two prompt loops never return: the read
    error is dropped, the empty line does not parse, and the loop goes
    round again; no number of iterations ends it. *)
Theorem prompt_loops_spin_at_end_of_input (fuel : nat) (prompt : arg) (max : Z)
        (c : console) :
  Atoi (TrimSpace EmptyString) = None ->
  stdin c = EmptyString ->
  readInt fuel prompt c = OutOfFuel /\ readRank fuel prompt max c = OutOfFuel.
Proof.
  intros Hempty Hc. split.
  - apply (forever_spins (fun c => stdin c = EmptyString)); [|done].
    intros c1 Hc1. unfold readString, mbind, IO_bind, write, read_line. simpl.
    rewrite Hc1. simpl. rewrite Hempty. eexists. split; [done|done].
  - apply (forever_spins (fun c => stdin c = EmptyString)); [|done].
    intros c1 Hc1. unfold readString, mbind, IO_bind, write, read_line. simpl.
    rewrite Hc1. simpl. rewrite Hempty. eexists. split; [done|done].
Qed.

Lemma read_names_post format n c :
  post (read_names format n) c (fun items c' =>
    length items = Z.to_nat n /\ wrote c c').
Proof.
  unfold read_names.
  apply (post_for_range (fun _ items c' => length items = Z.to_nat n /\ wrote c c')).
  - intros done i rest items c1 _ [Hlen Hw]. apply post_bind.
    eapply post_mono; [apply readString_post|].
    intros s c2 [Hout _]. apply post_ret. split; [by rewrite length_insert|].
    eapply wrote_trans; [done|]. by eexists.
  - split; [apply length_replicate | apply wrote_refl].
Qed.

Lemma newParetoSystem_post fuel c :
  post (newParetoSystem fuel) c (fun p c' =>
    (0 < length (alts p))%nat /\ (0 < length (experts p))%nat /\
    rankings p = ∅ /\ dominance p = ∅ /\ wrote c c').
Proof.
  unfold newParetoSystem.
  apply post_bind. eapply post_mono; [apply readInt_post|].
  intros n c1 [Hn [k1 Hw1]].
  apply post_bind. eapply post_mono; [apply read_names_post|].
  intros als c2 [Hals Hw2].
  apply post_bind. eapply post_mono; [apply readInt_post|].
  intros m c3 [Hm [k3 Hw3]].
  apply post_bind. eapply post_mono; [apply read_names_post|].
  intros es c4 [Hes Hw4].
  apply post_ret. simpl. split; [lia|]. split; [lia|]. split; [done|]. split; [done|].
  eapply wrote_trans; [by eexists|]. eapply wrote_trans; [done|].
  eapply wrote_trans; [by eexists | done].
Qed.

(** X9.  [newParetoSystem] never returns a system without alternatives
    or without experts: both counts are asked again until they are
    positive, and as many names are read.  The two maps start empty. *)
Theorem newParetoSystem_counts (fuel : nat) (c c' : console) (p : ParetoSystem) :
  newParetoSystem fuel c = Value p c' ->
  (0 < length (alts p))%nat /\ (0 < length (experts p))%nat /\
  rankings p = ∅ /\ dominance p = ∅.
Proof.
  intros Hrun.
  destruct (post_value _ _ _ _ _ (newParetoSystem_post fuel c) Hrun)
    as (Ha & He & Hr & Hd & _).
  done.
Qed.

Lemma CollectRankings_post fuel p c :
  post (CollectRankings fuel p) c (fun p' c' =>
    alts p' = alts p /\ experts p' = experts p /\ dominance p' = dominance p /\
    ranked (rankings p') (experts p) (alts p) (Z.of_nat (length (alts p))) /\
    wrote c c').
Proof.
  unfold CollectRankings. cbv zeta. set (count := Z.of_nat (length (alts p))).
  apply post_bind. eapply post_mono.
  - apply (post_for_range (fun done rk c' =>
             ranked rk done (alts p) count /\ wrote c c')).
    2:{ split; [|apply wrote_refl]. intros e a He. by apply elem_of_nil in He. }
    intros done e rest rk c1 _ [HI Hw]. apply post_bind, post_write.
    eapply post_mono.
    + apply (post_for_range (fun done_a rk2 c' =>
               (exists row, rk2 !! e = Some row /\
                  forall a, a ∈ done_a -> exists v, row !! a = Some v /\ 1 <= v <= count) /\
               (forall e', e' <> e -> rk2 !! e' = rk !! e') /\
               wrote c c')).
      2:{ split; [|split].
          - exists ∅. split; [apply lookup_insert_eq|].
            intros a Ha. by apply elem_of_nil in Ha.
          - intros e' He'. by apply lookup_insert_ne.
          - eapply wrote_trans; [done | apply wrote_write]. }
      intros done_a a rest_a rk2 c2 _ ((row & Hrow & Hdone) & Hother & Hw2).
      apply post_bind. eapply post_mono; [apply readRank_post|].
      intros v c3 [Hv [k Hw3]]. unfold rank_set. rewrite Hrow.
      eapply post_must; [done|]. split; [|split].
      * exists (<[a := v]> row). split; [apply lookup_insert_eq|].
        intros a' Ha'. destruct (decide (a' = a)) as [->|Hne].
        -- exists v. split; [apply lookup_insert_eq | done].
        -- rewrite lookup_insert_ne by done. apply Hdone.
           apply elem_of_app in Ha' as [Ha'|Ha'%list_elem_of_singleton]; done.
      * intros e' He'. rewrite lookup_insert_ne by done. by apply Hother.
      * eapply wrote_trans; [done | by eexists].
    + intros rk2 c2 ((row & Hrow & Hall) & Hother & Hw2). split; [|done].
      intros e' a He' Ha.
      destruct (decide (e' = e)) as [->|Hne].
      * destruct (Hall a Ha) as (v & Hv & Hrange). by exists row, v.
      * rewrite Hother by done. apply HI; [|done].
        apply elem_of_app in He' as [He'|He'%list_elem_of_singleton]; done.
  - intros rk c1 [Hranked Hw]. by apply post_ret.
Qed.

Lemma ranked_rank p es als count e a :
  ranked (rankings p) es als count -> e ∈ es -> a ∈ als -> 1 <= rank p e a <= count.
Proof.
  intros Hr He Ha. destruct (Hr e a He Ha) as (row & v & Hrow & Hv & Hrange).
  unfold rank. by rewrite Hrow; simpl; rewrite Hv.
Qed.

(** X10.  [CollectRankings] does not panic, and when it returns every
    expert has given every alternative a rank between 1 and the number of
    alternatives: the rank matrix is complete and within range.  The names
    and the dominance map are left as they were. *)
Theorem CollectRankings_complete (fuel : nat) (p : ParetoSystem) (c : console) :
  CollectRankings fuel p c = OutOfFuel \/
  exists p' c', CollectRankings fuel p c = Value p' c' /\
    alts p' = alts p /\ experts p' = experts p /\ dominance p' = dominance p /\
    forall e a, e ∈ experts p -> a ∈ alts p ->
      1 <= rank p' e a <= Z.of_nat (length (alts p)).
Proof.
  destruct (post_cases _ _ _ (CollectRankings_post fuel p c))
    as [?|(p' & c' & Hrun & Ha & He & Hd & Hr & _)]; [by left|].
  right. exists p', c'. repeat (split; [done|]).
  intros e a Hin_e Hin_a. by eapply ranked_rank.
Qed.





End ParetoDialogue.

(** ** SEM10/tpr-3: what the dialogue collects *)

Section SavageDialogue.
Import Console F64 GoSort Savage SavageMain.
Context `{Strconv}.

Lemma ReadString_line_ahead input :
  line_ahead input = false -> ReadString input = (input, true, EmptyString).
Proof.
  induction input as [|ch rest IH]; [done|]. cbn [line_ahead ReadString].
  intros [Hch Hrest]%orb_false_iff. rewrite Hch, (IH Hrest). done.
Qed.

Lemma ReadString_rest input :
  line_ahead input = false -> line_ahead (ReadString input).2 = false.
Proof. intros Hno. by rewrite ReadString_line_ahead. Qed.

(** What [readString] does in one step. *)
Lemma tpr3_readString_run prompt c :
  readString prompt c =
  let '(line, err, rest) := ReadString (stdin c) in
  Value (if err : bool then (EmptyString, true) else (TrimSpace line, false))
        {| stdin := rest; stdout := stdout c ++ [Print prompt] |}.
Proof.
  unfold readString, mbind, IO_bind, write, read_line. simpl.
  destruct (ReadString (stdin c)) as [[line err] rest]. by destruct err.
Qed.

Lemma tpr3_readString_post prompt c :
  post (readString prompt) c (fun _ c' => stdout c' = stdout c ++ [Print prompt]).
Proof.
  unfold post. rewrite tpr3_readString_run.
  by destruct (ReadString (stdin c)) as [[line err] rest].
Qed.



Lemma tpr3_readValidatedFloat_post fuel prompt min max c :
  post (readValidatedFloat fuel prompt min max) c (fun v c' =>
    accepted min max v /\ wrote c c').
Proof.
  unfold readValidatedFloat.
  apply (post_forever (fun c1 => wrote c c1)); [|apply wrote_refl].
  intros c1 Hw. apply post_bind. eapply post_mono; [apply tpr3_readString_post|].
  intros [str err] c2 Hout.
  assert (wrote c c2) as Hw2 by (eapply wrote_trans; [done | by eexists]).
  destruct err; [done|]. cbv zeta.
  assert (post (write (Println [Str errInvalidValue]);; mret None) c2
            (fun (r : option float64) c' =>
               match r with
               | Some v => accepted min max v /\ wrote c c'
               | None => wrote c c'
               end)) as Hagain.
  { eapply wrote_trans; [done | apply wrote_write]. }
  destruct (ParseFloat str) as [val|]; [|done].
  destruct (ge val min && le val max) eqn:Hv; [|done].
  apply andb_true_iff in Hv. by apply post_ret.
Qed.

(** X12.  [readValidatedFloat] only returns a value [v] with
    [v >= min && v <= max]; such a value is not NaN. *)
Theorem readValidatedFloat_accepts (fuel : nat) (prompt : arg) (min max : float64)
        (c c' : console) (v : float64) :
  readValidatedFloat fuel prompt min max c = Value v c' ->
  ge v min = true /\ le v max = true /\ is_nan v = false.
Proof.
  intros Hrun.
  destruct (post_value _ _ _ _ _ (tpr3_readValidatedFloat_post fuel prompt min max c) Hrun)
    as [[Hge Hle] _].
  split; [done|]. split; [done|]. by eapply le_not_nan_l.
Qed.












End SavageDialogue.

(** ** The third program: what the dialogue collects *)

Section HurwiczDialogue.
Import Console F64 GoSort Hurwicz HurwiczMain.
Context `{Strconv}.

Lemma third_readString_run prompt c :
  readString prompt c =
  let '(line, err, rest) := ReadString (stdin c) in
  Value (if err : bool then (EmptyString, true) else (TrimSpace line, false))
        {| stdin := rest; stdout := stdout c ++ [Print prompt] |}.
Proof.
  unfold readString, mbind, IO_bind, write, read_line. simpl.
  destruct (ReadString (stdin c)) as [[line err] rest]. by destruct err.
Qed.

Lemma third_readString_post prompt c :
  post (readString prompt) c (fun _ c' => stdout c' = stdout c ++ [Print prompt]).
Proof.
  unfold post. rewrite third_readString_run.
  by destruct (ReadString (stdin c)) as [[line err] rest].
Qed.



Lemma third_readFloat_post prompt c :
  post (readFloat prompt) c (fun _ c' => wrote c c').
Proof.
  unfold readFloat. apply post_bind. eapply post_mono; [apply third_readString_post|].
  intros [str err] c1 Hout. assert (wrote c c1) by (by eexists).
  by destruct err.
Qed.

Lemma third_readValidatedFloat_post fuel prompt min max c :
  post (readValidatedFloat fuel prompt min max) c (fun v c' =>
    accepted min max v /\ wrote c c').
Proof.
  unfold readValidatedFloat.
  apply (post_forever (fun c1 => wrote c c1)); [|apply wrote_refl].
  intros c1 Hw. apply post_bind. eapply post_mono; [apply third_readFloat_post|].
  intros r c2 Hw2'.
  assert (wrote c c2) as Hw2 by exact (wrote_trans _ _ _ Hw Hw2').
  cbv zeta.
  assert (post (write (Println [Str errInvalidValue]);; mret None) c2
            (fun (r : option float64) c' =>
               match r with
               | Some v => accepted min max v /\ wrote c c'
               | None => wrote c c'
               end)) as Hagain.
  { eapply wrote_trans; [done | apply wrote_write]. }
  destruct r as [value|]; [|done].
  destruct (ge value min && le value max) eqn:Hv; [|done].
  apply andb_true_iff in Hv. by apply post_ret.
Qed.






Lemma third_CollectOutcomes_post fuel u c :
  0 <= statesCount u ->
  post (CollectOutcomes fuel u) c (fun u' c' =>
    alternatives u' = alternatives u /\ statesCount u' = statesCount u /\
    maxScore u' = maxScore u /\
    (forall a, a ∈ alternatives u ->
       exists values, outcomes u' !! a = Some values /\ collected u values) /\
    wrote c c').
Proof.
  intros Hn. unfold CollectOutcomes.
  apply post_bind. eapply post_mono.
  - apply (post_for_range (fun done outcomes c' =>
             (forall a, a ∈ done ->
                exists values, outcomes !! a = Some values /\ collected u values) /\
             wrote c c')).
    2:{ split; [|apply wrote_refl]. intros a Ha. by apply elem_of_nil in Ha. }
    intros done alt rest outcomes c1 _ [HI Hw]. apply post_bind, post_write.
    unfold make_floats. destruct (Z.ltb_spec (statesCount u) 0) as [|_]; [lia|].
    apply post_bind. eapply post_must; [done|].
    apply post_bind. eapply post_mono.
    + apply (post_for_range (fun done_j values c' =>
               length values = Z.to_nat (statesCount u) /\
               (forall j, j ∈ done_j ->
                  exists v, values !! j = Some v /\ accepted one (of_int (maxScore u)) v) /\
               wrote c c')).
      2:{ split; [apply length_replicate|]. split.
          - intros j Hj. by apply elem_of_nil in Hj.
          - eapply wrote_trans; [done | apply wrote_write]. }
      intros done_j j rest_j values c2 Hseq (Hlen & Hdone & Hw2). cbv zeta.
      apply post_bind. eapply post_mono; [apply third_readValidatedFloat_post|].
      intros v c3 [Hv Hw3]. apply post_ret.
      assert (j < length values)%nat as Hj.
      { rewrite Hlen. assert (j ∈ seq 0 (Z.to_nat (statesCount u))) as Hin.
        { rewrite Hseq. apply elem_of_app. right. apply list_elem_of_here. }
        apply elem_of_seq in Hin. lia. }
      split; [by rewrite length_insert|]. split; [|by eapply wrote_trans].
      intros j' Hj'. destruct (decide (j' = j)) as [->|Hne].
      * exists v. split; [by apply list_lookup_insert_eq | done].
      * rewrite list_lookup_insert_ne by done. apply Hdone.
        apply elem_of_app in Hj' as [Hj'|Hj'%list_elem_of_singleton]; done.
    + intros values c2 (Hlen & Hall & Hw2). apply post_ret. split; [|done].
      intros a Ha. destruct (decide (a = alt)) as [->|Hne].
      * exists values. split; [apply lookup_insert_eq|]. split; [done|].
        apply Forall_lookup. intros j x Hx.
        destruct (Hall j) as (v & Hv & Hacc).
        { apply elem_of_seq. apply lookup_lt_Some in Hx. lia. }
        congruence.
      * rewrite lookup_insert_ne by done. apply HI.
        apply elem_of_app in Ha as [Ha|Ha%list_elem_of_singleton]; done.
  - intros outcomes c1 [Hall Hw]. by apply post_ret.
Qed.


Lemma fmap_fixed {A : Type} (f : A -> A) (l : list A) :
  (forall a, a ∈ l -> f a = a) -> f <$> l = l.
Proof.
  induction l as [|x l IH]; intros Hf; [done|]. simpl.
  rewrite Hf by apply list_elem_of_here. f_equal.
  apply IH. intros a Ha. by apply Hf, list_elem_of_further.
Qed.

(** The entry computed from a row of accepted utilities. *)
Lemma criteria_of_accepted alpha a values lo hi :
  values <> [] -> Forall (accepted lo hi) values ->
  name (criteria_of alpha a values) = a /\
  accepted lo hi (wald (criteria_of alpha a values)) /\
  accepted lo hi (maxmax (criteria_of alpha a values)) /\
  le (wald (criteria_of alpha a values)) (maxmax (criteria_of alpha a values)) = true.
Proof.
  intros Hne Hall. destruct values as [|d0 rest]; [done|]. unfold criteria_of.
  destruct (minmax_loop (d0 :: rest) d0 d0) as [mn mx] eqn:Hmm. simpl.
  assert (accepted lo hi d0) as Hd0 by (by apply Forall_inv in Hall).
  destruct (minmax_loop_elem (accepted lo hi) _ _ _ _ _ Hmm Hd0 Hd0 Hall) as [Hmn Hmx].
  split; [done|]. split; [done|]. split; [done|].
  destruct (minmax_loop_spec _ _ _ _ _ Hmm) as (Hle & _); [|done].
  apply le_refl. destruct Hd0 as [_ Hle]. by eapply le_not_nan_l.
Qed.

Lemma criteria_of_collected u u' alpha :
  0 < statesCount u ->
  alternatives u' = alternatives u ->
  (forall a, a ∈ alternatives u ->
     exists values, outcomes u' !! a = Some values /\ collected u values) ->
  name <$> Hurwicz.CalculateCriteria u' alpha = alternatives u /\
  forall r, r ∈ Hurwicz.CalculateCriteria u' alpha ->
    ge (wald r) one = true /\ le (wald r) (maxmax r) = true /\
    le (maxmax r) (of_int (maxScore u)) = true.
Proof.
  intros Hn Ha Hall.
  assert (forall a, a ∈ alternatives u ->
            exists values, default [] (outcomes u' !! a) = values /\
              values <> [] /\ Forall (accepted one (of_int (maxScore u))) values)
    as Hrows.
  { intros a Hin. destruct (Hall a Hin) as (values & Hv & Hlen & Hacc).
    exists values. rewrite Hv. split; [done|]. split; [|done].
    intros ->. simpl in Hlen. lia. }
  unfold Hurwicz.CalculateCriteria. rewrite Ha. split.
  - rewrite <- list_fmap_compose. apply fmap_fixed. intros a Hin. simpl.
    destruct (Hrows a Hin) as (values & -> & Hne & Hacc).
    by destruct (criteria_of_accepted alpha a values _ _ Hne Hacc) as [-> _].
  - intros r (a & -> & Hin)%list_elem_of_fmap.
    destruct (Hrows a Hin) as (values & -> & Hne & Hacc).
    destruct (criteria_of_accepted alpha a values _ _ Hne Hacc)
      as (_ & [Hw _] & [_ Hm] & Hle).
    done.
Qed.

(** X15.  On a matrix that [CollectOutcomes] filled for at least one
    state, [CalculateCriteria] skips nobody: the entries carry the names of
    the alternatives in the order of their declaration, every Wald score is
    at least 1, every MaxiMax score at most [float64(maxScore)], and the
    coefficient it read lies between 0 and 1. *)
Theorem criteria_of_collected_matrix (fuel fuel' : nat) (u u' : UncertainDecisionSystem)
        (c c' c'' : console) (alts : list Alternative) :
  0 < statesCount u ->
  CollectOutcomes fuel u c = Value u' c' ->
  CalculateCriteria fuel' u' c' = Value alts c'' ->
  name <$> alts = alternatives u /\
  (forall r, r ∈ alts ->
     ge (wald r) one = true /\ le (wald r) (maxmax r) = true /\
     le (maxmax r) (of_int (maxScore u)) = true) /\
  exists alpha, ge alpha zero = true /\ le alpha one = true /\
    alts = Hurwicz.CalculateCriteria u' alpha.
Proof.
  intros Hn Hrun1 Hrun2.
  destruct (post_value _ _ _ _ _
              (third_CollectOutcomes_post fuel u c ltac:(lia)) Hrun1)
    as (Ha & _ & _ & Hall & _).
  unfold CalculateCriteria, mbind, IO_bind in Hrun2.
  pose proof (third_readValidatedFloat_post fuel' (Str promptAlpha) zero one c')
    as Halpha. unfold post in Halpha.
  destruct (readValidatedFloat fuel' (Str promptAlpha) zero one c')
    as [alpha c3| |]; [|done..].
  injection Hrun2 as <- _. destruct Halpha as [[Hge Hle] _].
  destruct (criteria_of_collected u u' alpha Hn Ha Hall) as [Hnames Hscores].
  split; [done|]. split; [done|]. by exists alpha.
Qed.




End HurwiczDialogue.

(** ** The readers of the three programs side by side *)

Section Readers.
Import Console.
Context `{Strconv}.

(** X17.  A last line that is not ended by a line feed is used by the
    first program and lost by the other two: [ReadString] returns the
    bytes with [io.EOF]; the first [readString] drops the error and
    returns the bytes trimmed, the other two drop the bytes and return the
    empty string with the error.  Either way the input is then used up. *)
Theorem last_line_without_line_feed (prompt : arg) (c : console) :
  line_ahead (stdin c) = false ->
  ParetoMain.readString prompt c =
    Value (TrimSpace (stdin c))
          {| stdin := EmptyString; stdout := stdout c ++ [Print prompt] |} /\
  SavageMain.readString prompt c =
    Value (EmptyString, true)
          {| stdin := EmptyString; stdout := stdout c ++ [Print prompt] |} /\
  HurwiczMain.readString prompt c =
    Value (EmptyString, true)
          {| stdin := EmptyString; stdout := stdout c ++ [Print prompt] |}.
Proof.
  intros Hno. split; [|split].
  - unfold ParetoMain.readString, mbind, IO_bind, write, read_line. simpl.
    by rewrite ReadString_line_ahead.
  - by rewrite tpr3_readString_run, ReadString_line_ahead.
  - by rewrite third_readString_run, ReadString_line_ahead.
Qed.

(** X18.  With no whole line left on standard input, [readValidatedFloat]
    never returns, in the second program and in the third: every read
    fails, the loop goes round again, and no number of iterations ends
    it. *)
Theorem readValidatedFloat_spins_without_a_line (fuel : nat) (prompt : arg)
        (min max : float64) (c : console) :
  line_ahead (stdin c) = false ->
  SavageMain.readValidatedFloat fuel prompt min max c = OutOfFuel /\
  HurwiczMain.readValidatedFloat fuel prompt min max c = OutOfFuel.
Proof.
  intros Hno. split.
  - apply (forever_spins (fun c => line_ahead (stdin c) = false)); [|done].
    intros c1 Hc1. unfold mbind, IO_bind.
    rewrite tpr3_readString_run, ReadString_line_ahead by done.
    eexists. split; [done|]. done.
  - apply (forever_spins (fun c => line_ahead (stdin c) = false)); [|done].
    intros c1 Hc1. unfold HurwiczMain.readFloat, mbind, IO_bind.
    rewrite third_readString_run, ReadString_line_ahead by done. simpl.
    eexists. split; [done|]. done.
Qed.


End Readers.

(** ** The criteria as a table *)

Section CriteriaTable.
Import F64 GoSort Hurwicz.

(** X20.  [CalculateCriteria] returns one entry for every alternative, in
    the order of declaration.  For an alternative with utilities the entry
    has its name, and its Wald and MaxiMax scores are utilities of its row;
    for an alternative without utilities the loop moves on and the entry
    stays the zero value, the name empty and the scores 0. *)
Theorem CalculateCriteria_entries (u : UncertainDecisionSystem) (alpha : float64) :
  length (CalculateCriteria u alpha) = length (alternatives u) /\
  forall i a, alternatives u !! i = Some a ->
    exists r, CalculateCriteria u alpha !! i = Some r /\
      match default [] (outcomes u !! a) with
      | [] => r = zeroAlternative
      | d0 :: rest =>
          name r = a /\ wald r ∈ d0 :: rest /\ maxmax r ∈ d0 :: rest
      end.
Proof.
  unfold CalculateCriteria. split; [by rewrite length_fmap|].
  intros i a Hi. rewrite list_lookup_fmap, Hi. simpl. eexists. split; [done|].
  destruct (default [] (outcomes u !! a)) as [|d0 rest]; [done|].
  unfold criteria_of.
  destruct (minmax_loop (d0 :: rest) d0 d0) as [mn mx] eqn:Hmm. simpl.
  split; [done|].
  apply (minmax_loop_elem (fun x => x ∈ d0 :: rest) _ _ _ _ _ Hmm);
    [apply list_elem_of_here.. | by apply Forall_forall].
Qed.

Lemma PrintRankings_names alts0 f alts1 lines :
  PrintRankings alts0 f alts1 lines ->
  alts1 ≡ₚ alts0 /\ lines.*1.*2 = name <$> alts1.
Proof.
  intros [HS ->]. split; [|apply lines_names].
  exact (Sort_perm alts (fun b x y => gt (value b x) (value b y))
           ByCriterion_Len ByCriterion_Less ByCriterion_Swap_alts
           ByCriterion_Swap_less _ _ HS).
Qed.

(** X21.  The three rankings of [main] can always be made, and whatever
    the scores, NaN included, each of them lists the names of the entries
    of [CalculateCriteria], every entry once. *)
Theorem main_rankings_list_every_entry (u : UncertainDecisionSystem) (alpha : float64) :
  (exists printed, main_rankings u alpha printed) /\
  forall printed, main_rankings u alpha printed ->
    printed.1.1.*1.*2 ≡ₚ name <$> CalculateCriteria u alpha /\
    printed.1.2.*1.*2 ≡ₚ name <$> CalculateCriteria u alpha /\
    printed.2.*1.*2 ≡ₚ name <$> CalculateCriteria u alpha.
Proof.
  split.
  - destruct (PrintRankings_returns (CalculateCriteria u alpha) wald) as (a1 & l1 & H1).
    destruct (PrintRankings_returns a1 maxmax) as (a2 & l2 & H2).
    destruct (PrintRankings_returns a2 hurwicz) as (a3 & l3 & H3).
    apply (ex_intro _ (l1, l2, l3)). exists a1, a2, a3. exact (conj H1 (conj H2 H3)).
  - intros [[l1 l2] l3] (a1 & a2 & a3 & H1 & H2 & H3). simpl in *.
    apply PrintRankings_names in H1 as [P1 ->].
    apply PrintRankings_names in H2 as [P2 ->].
    apply PrintRankings_names in H3 as [P3 ->].
    rewrite P3, P2, P1. done.
Qed.

End CriteriaTable.

(** ** Runs *)

Section Runs.
Import Console Sessions.
Local Open Scope string_scope.

(** A run of the first program: the Pareto set of the session is A. *)
Example pareto_session :
  last_written 2 (ParetoMain.main (H := typed) 2 pareto_keys) =
  Some [ Println [Str ParetoMain.msgParetoSet];
         Printf ParetoMain.fmtParetoItem [Int 1; Str "A"] ].
Proof. vm_compute. reflexivity. Qed.

(** The dialogue of the second program typed for the utility scenario
    leaves the matrix of that scenario. *)
Example savage_session :
  match SavageMain.newUncertainDecisionSystem (H := typed) savage_keys with
  | Value (inr u) c1 =>
      match SavageMain.inputs (H := typed) 1 u c1 with
      | Value u' _ => Some u'
      | _ => None
      end
  | _ => None
  end = Some Scenarios.savage_rows.
Proof. vm_compute. reflexivity. Qed.

Lemma readRank_accepts_witness :
  exists c' v,
    ParetoMain.readRank (H := typed) 2 (Str "rank: ") 2 (keyboard ["3"; "1"]) =
      Value v c' /\
    (1 <= v <= 2)%Z /\
    exists k, stdout c' =
      (stdout (keyboard ["3"; "1"]) ++
       refused k (Str "rank: ") (Printf ParetoMain.fmtRankRange [Int 2]) ++
       [Print (Str "rank: ")])%list.
Proof.
  assert (exists c' v,
            ParetoMain.readRank (H := typed) 2 (Str "rank: ") 2 (keyboard ["3"; "1"]) =
            Value v c') as (c' & v & Hrun)
    by (vm_compute; do 2 eexists; reflexivity).
  exists c', v. split; [exact Hrun|].
  exact (readRank_accepts (H := typed) 2 _ 2 _ c' v Hrun).
Defined.

Lemma prompt_loops_spin_at_end_of_input_witness :
  ParetoMain.readInt (H := typed) 7 (Str "count: ") (keyboard []) = OutOfFuel /\
  ParetoMain.readRank (H := typed) 7 (Str "count: ") 3 (keyboard []) = OutOfFuel.
Proof.
  exact (prompt_loops_spin_at_end_of_input (H := typed) 7 (Str "count: ") 3
           (keyboard []) eq_refl eq_refl).
Defined.

Lemma newParetoSystem_counts_witness :
  exists p c',
    ParetoMain.newParetoSystem (H := typed) 2 pareto_keys = Value p c' /\
    (0 < length (Pareto.alts p))%nat /\ (0 < length (Pareto.experts p))%nat /\
    Pareto.rankings p = ∅ /\ Pareto.dominance p = ∅.
Proof.
  assert (exists p c',
            ParetoMain.newParetoSystem (H := typed) 2 pareto_keys = Value p c')
    as (p & c' & Hrun) by (vm_compute; do 2 eexists; reflexivity).
  exists p, c'. split; [exact Hrun|].
  exact (newParetoSystem_counts (H := typed) 2 _ c' p Hrun).
Defined.

Lemma readValidatedFloat_accepts_witness :
  exists v c',
    SavageMain.readValidatedFloat (H := typed) 2 (Str "value: ") F64.one
      (F64.of_int 10) (keyboard ["11"; "6"]) = Value v c' /\
    F64.ge v F64.one = true /\ F64.le v (F64.of_int 10) = true /\
    F64.is_nan v = false.
Proof.
  assert (exists v c',
            SavageMain.readValidatedFloat (H := typed) 2 (Str "value: ") F64.one
              (F64.of_int 10) (keyboard ["11"; "6"]) = Value v c')
    as (v & c' & Hrun) by (vm_compute; do 2 eexists; reflexivity).
  exists v, c'. split; [exact Hrun|].
  exact (readValidatedFloat_accepts (H := typed) 2 _ _ _ _ c' v Hrun).
Defined.


(** The run of the witness above does return, with the matrix of the
    utility scenario. *)
Example CollectOutcomes_session :
  match SavageMain.CollectOutcomes (H := typed) 2 empty_rows utility_keys with
  | Value u' _ => Some u'
  | _ => None
  end = Some Scenarios.savage_rows.
Proof. vm_compute. reflexivity. Qed.

Lemma criteria_of_collected_matrix_witness :
  exists u' c' alts c'',
    (0 < Hurwicz.statesCount empty_rows3)%Z /\
    HurwiczMain.CollectOutcomes (H := typed) 2 empty_rows3 utility_keys = Value u' c' /\
    HurwiczMain.CalculateCriteria (H := typed) 1 u' c' = Value alts c'' /\
    Hurwicz.name <$> alts = Hurwicz.alternatives empty_rows3 /\
    (forall r, r ∈ alts ->
       F64.ge (Hurwicz.wald r) F64.one = true /\
       F64.le (Hurwicz.wald r) (Hurwicz.maxmax r) = true /\
       F64.le (Hurwicz.maxmax r) (F64.of_int (Hurwicz.maxScore empty_rows3)) = true) /\
    exists alpha, F64.ge alpha F64.zero = true /\ F64.le alpha F64.one = true /\
      alts = Hurwicz.CalculateCriteria u' alpha.
Proof.
  assert (0 < Hurwicz.statesCount empty_rows3)%Z as Hn by (simpl; lia).
  assert (exists u' c',
            HurwiczMain.CollectOutcomes (H := typed) 2 empty_rows3 utility_keys =
            Value u' c' /\
            exists alts c'',
              HurwiczMain.CalculateCriteria (H := typed) 1 u' c' = Value alts c'')
    as (u' & c' & Hrun1 & alts & c'' & Hrun2).
  { let r := eval vm_compute in
      (HurwiczMain.CollectOutcomes (H := typed) 2 empty_rows3 utility_keys) in
    match r with
    | Value ?u ?c =>
        exists u, c; split;
          [vm_compute; reflexivity | vm_compute; do 2 eexists; reflexivity]
    end. }
  exists u', c', alts, c''. split; [exact Hn|]. split; [exact Hrun1|].
  split; [exact Hrun2|].
  exact (criteria_of_collected_matrix (H := typed) 2 1 empty_rows3 u' utility_keys
           c' c'' alts Hn Hrun1 Hrun2).
Defined.

Lemma last_line_without_line_feed_witness :
  ParetoMain.readString (H := typed) (Str "count: ") unfinished_line =
    Value (TrimSpace (Strconv := typed) (stdin unfinished_line))
          {| stdin := EmptyString;
             stdout := (stdout unfinished_line ++ [Print (Str "count: ")])%list |} /\
  SavageMain.readString (H := typed) (Str "count: ") unfinished_line =
    Value (EmptyString, true)
          {| stdin := EmptyString;
             stdout := (stdout unfinished_line ++ [Print (Str "count: ")])%list |} /\
  HurwiczMain.readString (H := typed) (Str "count: ") unfinished_line =
    Value (EmptyString, true)
          {| stdin := EmptyString;
             stdout := (stdout unfinished_line ++ [Print (Str "count: ")])%list |}.
Proof.
  exact (last_line_without_line_feed (H := typed) (Str "count: ") unfinished_line
           eq_refl).
Defined.

Lemma readValidatedFloat_spins_without_a_line_witness :
  SavageMain.readValidatedFloat (H := typed) 9 (Str "value: ") F64.one
    (F64.of_int 10) unfinished_line = OutOfFuel /\
  HurwiczMain.readValidatedFloat (H := typed) 9 (Str "value: ") F64.one
    (F64.of_int 10) unfinished_line = OutOfFuel.
Proof.
  exact (readValidatedFloat_spins_without_a_line (H := typed) 9 (Str "value: ")
           F64.one (F64.of_int 10) unfinished_line eq_refl).
Defined.

Lemma ranking_without_ties_unique_witness :
  Savage.sortAltValues distinct_scores true
    [ {| Savage.alt := "A"; Savage.value := F64.of_int 1 |};
      {| Savage.alt := "B"; Savage.value := F64.of_int 2 |} ] /\
  forall out, Savage.sortAltValues distinct_scores true out ->
    out = [ {| Savage.alt := "A"; Savage.value := F64.of_int 1 |};
            {| Savage.alt := "B"; Savage.value := F64.of_int 2 |} ].
Proof.
  assert (forall k v, distinct_scores !! k = Some v -> F64.is_nan v = false) as Hnan.
  { intros k v Hkv. unfold distinct_scores in Hkv.
    apply lookup_insert_Some in Hkv as [[_ <-]|[_ Hkv]]; [done|].
    by apply lookup_singleton_Some in Hkv as [_ <-]. }
  assert (forall k1 k2 v1 v2,
            distinct_scores !! k1 = Some v1 -> distinct_scores !! k2 = Some v2 ->
            F64.eq v1 v2 = true -> k1 = k2) as Hdiff.
  { intros k1 k2 v1 v2 H1 H2 Heq. unfold distinct_scores in H1, H2.
    apply lookup_insert_Some in H1 as [[<- <-]|[_ H1]];
      [|apply lookup_singleton_Some in H1 as [<- <-]];
      (apply lookup_insert_Some in H2 as [[<- <-]|[_ H2]];
        [|apply lookup_singleton_Some in H2 as [<- <-]]);
      first [reflexivity | by vm_compute in Heq]. }
  assert (Savage.sortAltValues distinct_scores true
            [ {| Savage.alt := "A"; Savage.value := F64.of_int 1 |};
              {| Savage.alt := "B"; Savage.value := F64.of_int 2 |} ]) as Hs.
  { eexists. split.
    - unfold Savage.iteration, distinct_scores.
      rewrite map_to_list_insert by done. by rewrite map_to_list_singleton.
    - unfold GoSort.Sort. rewrite decide_True by (vm_compute; lia). reflexivity. }
  split; [exact Hs|]. intros out Hout.
  exact (ranking_without_ties_unique distinct_scores true out _ Hnan Hdiff Hout Hs).
Defined.

End Runs.
